(** * muSE functional objects: hashtables, vectors and file ports

    A shallow embedding of [muse_builtin_hashtable.c], [muse_builtin_vector.c]
    and [muse_builtin_fileport.c].  Cells are integer handles into a heap of
    cons cells; the C code's in-place updates of cells ([_sett], bucket
    relinking) are modelled as updates of that heap, so that aliasing is
    visible.  Undefined behaviour of the C code (division by zero, access
    outside an array, dereferencing a handle that is not a cons cell) and a
    loop that does not terminate are results [None]. *)

From stdpp Require Import gmap list strings.
From Stdlib Require Import ZArith Lia Strings.Byte.

Open Scope Z_scope.

(** ** Machine integers and cells *)

Module Cells.

(** [muse_cell] is an opaque integer handle; [MUSE_NIL] is the zero handle,
    which C conditions such as [if ( value )] and [while ( alist )] test. *)
Abbreviation muse_cell := Z.
Definition MUSE_NIL : muse_cell := 0.

(** A C [int] is 32 bits wide; [to_int] is the conversion [(int)x] and the
    wrap-around of [int] arithmetic. *)
Definition int_modulus : Z := 2 ^ 32.
Definition int_half : Z := 2 ^ 31.
Definition to_int (z : Z) : Z := (z + int_half) mod int_modulus - int_half.
Definition is_int (z : Z) : Prop := - int_half <= z < int_half.

(** Modelled from the spec: the cons cells of the cell heap, which is
    external to these files ("Cell Heap (external): opaque handles ...
    pointers into GC-managed storage (pairs, ...)").  Only cons cells are
    stored in the heap. *)
Record cons_t := Cons { head : muse_cell; tail : muse_cell }.

Abbreviation heap := (gmap Z cons_t).

(** Modelled from the spec: the allocator ("supplies [allocate]"); the new
    handle is neither NIL nor in use. *)
Definition fresh_cell (m : heap) : muse_cell := fresh ({[MUSE_NIL]} ∪ dom m).

(** Modelled from the spec: [_cons], which allocates a pair. *)
Definition _cons (m : heap) (h t : muse_cell) : heap * muse_cell :=
  let c := fresh_cell m in (<[c := Cons h t]> m, c).

(** Modelled from the spec: [_head] and [_tail], the fields of a pair;
    undefined on a handle that is not a pair. *)
Definition _head (m : heap) (c : muse_cell) : option muse_cell := head <$> m !! c.
Definition _tail (m : heap) (c : muse_cell) : option muse_cell := tail <$> m !! c.

(** Modelled from the spec: [_sett], which overwrites the tail of a pair in
    place. *)
Definition _sett (m : heap) (c v : muse_cell) : option heap :=
  x ← m !! c; Some (<[c := Cons (head x) v]> m).

(** C arrays of cells ([calloc]ed, indexed by an [int]).  An index outside
    the array is undefined behaviour. *)
Definition calloc (n : Z) : list muse_cell := replicate (Z.to_nat n) MUSE_NIL.

Definition arr_get (a : list muse_cell) (i : Z) : option muse_cell :=
  if decide (0 <= i) then a !! Z.to_nat i else None.

Definition arr_set (a : list muse_cell) (i : Z) (v : muse_cell) : option (list muse_cell) :=
  if decide (0 <= i < Z.of_nat (length a)) then Some (<[Z.to_nat i := v]> a) else None.

(** The bound on the iterations of a loop that walks a list of cells: a list
    without a cycle has at most as many cells as the heap. *)
Definition walk_fuel (m : heap) : nat := S (size m).

(** Modelled from the spec: [muse_list_length], a helper of the cell runtime
    that is not in these files; a list is a chain of pairs that ends in
    NIL. *)
Fixpoint list_length_loop (fuel : nat) (m : heap) (lst : muse_cell) (n : Z) : option Z :=
  match fuel with
  | O => None
  | S fuel' =>
    if decide (lst = MUSE_NIL) then Some n
    else next ← _tail m lst; list_length_loop fuel' m next (n + 1)
  end.

Definition muse_list_length (m : heap) (lst : muse_cell) : option Z :=
  n ← list_length_loop (walk_fuel m) m lst 0; Some (to_int n).

(** Modelled from the spec: [muse_array_to_list( count, array + from, astep )],
    not in these files: a fresh list of the [count] cells at [from],
    [from + astep], ... of the array, in that order. *)
Fixpoint array_to_list (count : nat) (m : heap) (array : list muse_cell) (from astep : Z)
  : option (heap * muse_cell) :=
  match count with
  | O => Some (m, MUSE_NIL)
  | S count' =>
    x ← arr_get array from;
    '(m', rest) ← array_to_list count' m array (from + astep) astep;
    Some (_cons m' x rest)
  end.

Definition muse_array_to_list (m : heap) (count : Z) (array : list muse_cell) (from astep : Z)
  : option (heap * muse_cell) :=
  array_to_list (Z.to_nat count) m array from astep.

(** Modelled from the spec: [muse_list_extract( count, list, 1, array, 1 )],
    not in these files ("construction from a list copies in list order"):
    the heads of the first [count] cells of the list are stored at
    [array[0]], [array[1]], ... *)
Fixpoint list_extract (count : nat) (m : heap) (lst : muse_cell) (array : list muse_cell)
    (i : Z) : option (list muse_cell) :=
  match count with
  | O => Some array
  | S count' =>
    x ← _head m lst;
    next ← _tail m lst;
    array' ← arr_set array i x;
    list_extract count' m next array' (i + 1)
  end.

Definition muse_list_extract (m : heap) (count : Z) (lst : muse_cell)
    (array : list muse_cell) : option (list muse_cell) :=
  list_extract (Z.to_nat count) m lst array 0.

(** Modelled from the spec: [muse_list_to_array( list, &count )], not in
    these files: a new array of the elements of the list, and their
    number. *)
Definition muse_list_to_array (m : heap) (lst : muse_cell) : option (list muse_cell * Z) :=
  count ← muse_list_length m lst;
  array ← muse_list_extract m count lst (calloc count);
  Some (array, count).

(** *** Facts about machine integers, the heap and arrays *)

Lemma to_int_id z : is_int z -> to_int z = z.
Proof.
  unfold is_int, to_int, int_half, int_modulus. intros Hz.
  rewrite Z.mod_small by lia. lia.
Qed.

Lemma to_int_is_int z : is_int (to_int z).
Proof.
  unfold is_int, to_int, int_half, int_modulus.
  pose proof (Z.mod_pos_bound (z + 2 ^ 31) (2 ^ 32)). lia.
Qed.

Lemma fresh_cell_None (m : heap) : m !! fresh_cell m = None.
Proof.
  apply not_elem_of_dom. unfold fresh_cell.
  pose proof (is_fresh ({[MUSE_NIL]} ∪ dom m)). set_solver.
Qed.

Lemma fresh_cell_not_NIL (m : heap) : fresh_cell m <> MUSE_NIL.
Proof.
  unfold fresh_cell.
  pose proof (is_fresh ({[MUSE_NIL]} ∪ dom m)). set_solver.
Qed.

Lemma length_calloc n : length (calloc n) = Z.to_nat n.
Proof. unfold calloc. apply length_replicate. Qed.

Lemma arr_get_Some (a : list muse_cell) i v :
  arr_get a i = Some v <-> 0 <= i /\ a !! Z.to_nat i = Some v.
Proof. unfold arr_get. case_decide; naive_solver. Qed.

Lemma arr_get_nat (a : list muse_cell) (i : nat) : arr_get a (Z.of_nat i) = a !! i.
Proof. unfold arr_get. case_decide; [by rewrite Nat2Z.id | lia]. Qed.

Lemma arr_set_nat (a : list muse_cell) (i : nat) v :
  (i < length a)%nat -> arr_set a (Z.of_nat i) v = Some (<[i := v]> a).
Proof. intros Hi. unfold arr_set. case_decide; [by rewrite Nat2Z.id | lia]. Qed.

Lemma arr_set_Some (a a' : list muse_cell) i v :
  arr_set a i v = Some a' ->
  0 <= i < Z.of_nat (length a) /\ a' = <[Z.to_nat i := v]> a.
Proof. unfold arr_set. case_decide; naive_solver. Qed.

End Cells.

(** ** Hashtables ([muse_builtin_hashtable.c]) *)

Module Hashtable.
Import Cells.

Record hashtable_t := Hashtable {
  count : Z;                   (* int count *)
  bucket_count : Z;            (* int bucket_count *)
  buckets : list muse_cell     (* muse_cell *buckets *)
}.

(** A [muse_cell*] as the hashtable code uses it: the address of a bucket or
    of the tail field of a cons cell. *)
Inductive cellref :=
  | InBucket (i : Z)
  | InTail (c : muse_cell).

Definition load (m : heap) (bk : list muse_cell) (p : cellref) : option muse_cell :=
  match p with
  | InBucket i => arr_get bk i
  | InTail c => _tail m c
  end.

Definition store (m : heap) (bk : list muse_cell) (p : cellref) (v : muse_cell)
  : option (heap * list muse_cell) :=
  match p with
  | InBucket i => bk' ← arr_set bk i v; Some (m, bk')
  | InTail c => m' ← _sett m c v; Some (m', bk)
  end.

(** [hashtable_init]: the object is zero-initialised by the protocol, the
    argument (when there is one) is converted to [int]. *)
Definition hashtable_init (args : option Z) : hashtable_t :=
  let bc := match args with Some n => to_int n | None => 7 end in
  {| count := 0; bucket_count := bc; buckets := calloc bc |}.

(** [bucket_for_hash]: C's [%] truncates towards zero ([Z.rem]) and is
    undefined for a zero modulus. *)
Definition bucket_for_hash (hash : Z) (modulus : Z) : option Z :=
  if decide (modulus = 0) then None
  else Some (to_int (Z.rem (Z.rem hash modulus + modulus) modulus)).

Section WithHash.

(** [muse_hash] and the structural equality of keys belong to the cell
    runtime.  Keys are treated as immutable. *)
Variable muse_hash : muse_cell -> Z.
Variable muse_equal : muse_cell -> muse_cell -> bool.

(** The inner [while ( alist )] loop of [hashtable_rehash]. *)
Fixpoint rehash_chain (fuel : nat) (m : heap) (new_buckets : list muse_cell)
    (new_bucket_count : Z) (alist : muse_cell) : option (heap * list muse_cell) :=
  match fuel with
  | O => None
  | S fuel' =>
    if decide (alist = MUSE_NIL) then Some (m, new_buckets)
    else
      kv ← _head m alist;
      k ← _head m kv;
      new_b ← bucket_for_hash (muse_hash k) new_bucket_count;
      next ← _tail m alist;
      old ← arr_get new_buckets new_b;
      m' ← _sett m alist old;
      new_buckets' ← arr_set new_buckets new_b alist;
      rehash_chain fuel' m' new_buckets' new_bucket_count next
  end.

(** The outer [for ( ; i < N; ++i )] loop, over the bucket indices
    [i, i+1, ..., i+n-1]. *)
Fixpoint rehash_buckets (n : nat) (i : Z) (m : heap) (old_buckets new_buckets : list muse_cell)
    (new_bucket_count : Z) : option (heap * list muse_cell) :=
  match n with
  | O => Some (m, new_buckets)
  | S n' =>
    alist ← arr_get old_buckets i;
    '(m', new_buckets') ← rehash_chain (walk_fuel m) m new_buckets new_bucket_count alist;
    rehash_buckets n' (i + 1) m' old_buckets new_buckets' new_bucket_count
  end.

Definition hashtable_rehash (m : heap) (h : hashtable_t) (new_bucket_count : Z)
  : option (heap * hashtable_t) :=
  let new_bucket_count := Z.lor new_bucket_count 1 in
  let new_buckets := calloc new_bucket_count in
  '(m', new_buckets') ←
    rehash_buckets (Z.to_nat (bucket_count h)) 0 m (buckets h) new_buckets new_bucket_count;
  Some (m', {| count := count h; bucket_count := new_bucket_count; buckets := new_buckets' |}).

(** [hashtable_add]; [muse_assert] is fatal when it fails. *)
Definition hashtable_add (m : heap) (h : hashtable_t) (key value : muse_cell)
    (hash_opt : option Z) : option (heap * hashtable_t * cellref) :=
  let hash := match hash_opt with Some x => x | None => muse_hash key end in
  bucket ← bucket_for_hash hash (bucket_count h);
  '(m1, h1, bucket1) ←
    (if decide (to_int (count h + 1) >= to_int (2 * bucket_count h)) then
       '(m', h') ← hashtable_rehash m h (to_int (bucket_count h * 2));
       bucket' ← bucket_for_hash hash (bucket_count h');
       Some (m', h', bucket')
     else Some (m, h, bucket));
  if decide (value = MUSE_NIL) then None
  else
    old ← arr_get (buckets h1) bucket1;
    let '(m2, kv) := _cons m1 key value in
    let '(m3, c) := _cons m2 kv old in
    bk ← arr_set (buckets h1) bucket1 c;
    Some (m3,
          {| count := to_int (count h1 + 1); bucket_count := bucket_count h1; buckets := bk |},
          InBucket bucket1).

(** Modelled from the spec: [muse_assoc_iter], which is not in these files
    ("linear scan of that bucket's association list for structural key
    equality").  It returns the address of the cell reference that holds the
    list cell of the first pair whose key equals [key], or NULL. *)
Fixpoint assoc_iter (fuel : nat) (m : heap) (bk : list muse_cell) (alist : cellref)
    (key : muse_cell) : option (option cellref) :=
  match fuel with
  | O => None
  | S fuel' =>
    c ← load m bk alist;
    if decide (c = MUSE_NIL) then Some None
    else
      kv ← _head m c;
      k ← _head m kv;
      if muse_equal k key then Some (Some alist)
      else assoc_iter fuel' m bk (InTail c) key
  end.

Definition muse_assoc_iter (m : heap) (bk : list muse_cell) (alist : cellref)
    (key : muse_cell) : option (option cellref) :=
  assoc_iter (walk_fuel m) m bk alist key.

(** [hashtable_get]: the pair's address (or NULL) and the hash written to
    [hash_out]. *)
Definition hashtable_get (m : heap) (h : hashtable_t) (key : muse_cell)
  : option (option cellref * Z) :=
  let hash := muse_hash key in
  bucket ← bucket_for_hash hash (bucket_count h);
  kvpair ← muse_assoc_iter m (buckets h) (InBucket bucket) key;
  Some (kvpair, hash).

(** [fn_hashtable]: the call entry point.  [value_arg] is the evaluated
    second argument when there is one. *)
Definition fn_hashtable (m : heap) (h : hashtable_t) (key : muse_cell)
    (value_arg : option muse_cell) : option (heap * hashtable_t * muse_cell) :=
  '(kvpair, hash) ← hashtable_get m h key;
  match value_arg with
  | Some value =>
    match kvpair with
    | Some p =>
      if decide (value = MUSE_NIL) then
        c ← load m (buckets h) p;
        t ← _tail m c;
        '(m', bk') ← store m (buckets h) p t;
        Some (m',
              {| count := to_int (count h - 1); bucket_count := bucket_count h; buckets := bk' |},
              MUSE_NIL)
      else
        c ← load m (buckets h) p;
        kv ← _head m c;
        m' ← _sett m kv value;
        Some (m', h, value)
    | None =>
      if decide (value = MUSE_NIL) then Some (m, h, MUSE_NIL)
      else
        '(m', h', _) ← hashtable_add m h key value (Some hash);
        Some (m', h', value)
    end
  | None =>
    match kvpair with
    | Some p =>
      c ← load m (buckets h) p;
      kv ← _head m c;
      v ← _tail m kv;
      Some (m, h, v)
    | None => Some (m, h, MUSE_NIL)
    end
  end.

(** [fn_alist_to_hashtable]: a table with the default seven buckets gets a
    copy of the list's spine as its first bucket and is rehashed to [count]
    buckets.  The pairs of the list are shared with the table. *)
Definition fn_alist_to_hashtable (m : heap) (alist : muse_cell) : option (heap * hashtable_t) :=
  let h := hashtable_init None in
  '(alistarr, count) ← muse_list_to_array m alist;
  '(m1, alist_copy) ← muse_array_to_list m count alistarr 0 1;
  bk ← arr_set (buckets h) 0 alist_copy;
  hashtable_rehash m1 {| count := count; bucket_count := bucket_count h; buckets := bk |} count.

(** A sequence of calls of the table, each with a key and, for a call with
    two arguments, a value. *)
Fixpoint run_calls (m : heap) (h : hashtable_t) (calls : list (muse_cell * option muse_cell))
  : option (heap * hashtable_t) :=
  match calls with
  | [] => Some (m, h)
  | (key, value_arg) :: rest =>
    '(m', h', _) ← fn_hashtable m h key value_arg;
    run_calls m' h' rest
  end.

(** *** The representation of a table in the heap

    A bucket is a chain of list cells, each of which points to a pair cell.
    An [entry] names the two cells of one stored pair and their contents. *)
Record entry := Entry {
  e_cell : muse_cell;   (* the list cell in the bucket's chain *)
  e_pair : muse_cell;   (* the (key . value) cell *)
  e_key : muse_cell;
  e_val : muse_cell
}.

Fixpoint chain (m : heap) (c : muse_cell) (es : list entry) : Prop :=
  match es with
  | [] => c = MUSE_NIL
  | e :: es' =>
    c = e_cell e /\ c <> MUSE_NIL /\
    exists next, m !! c = Some (Cons (e_pair e) next) /\
                 m !! e_pair e = Some (Cons (e_key e) (e_val e)) /\
                 chain m next es'
  end.

Definition cells_of (es : list entry) : list muse_cell :=
  e ← es; [e_cell e; e_pair e].
Arguments cells_of : simpl never.

Record table_inv (m : heap) (h : hashtable_t) (bs : list (list entry)) : Prop := {
  inv_bucket_count : 0 < bucket_count h < int_half;
  inv_length : Z.of_nat (length (buckets h)) = bucket_count h;
  inv_chains : Forall2 (chain m) (buckets h) bs;
  inv_nodup : NoDup (cells_of (concat bs));
  inv_count : count h = Z.of_nat (length (concat bs))
}.

(** Every pair lives in the bucket its key hashes to. *)
Definition placed (bc : Z) (bs : list (list entry)) : Prop :=
  forall (i : nat) es e,
    bs !! i = Some es -> e ∈ es ->
    bucket_for_hash (muse_hash (e_key e)) bc = Some (Z.of_nat i).

(** What the scan of [muse_assoc_iter] yields on a chain: the first entry
    whose key equals [key], and the address that was holding its list cell. *)
Fixpoint first_match (key : muse_cell) (es : list entry) : option entry :=
  match es with
  | [] => None
  | e :: es' => if muse_equal (e_key e) key then Some e else first_match key es'
  end.

Fixpoint scan (key : muse_cell) (prev : cellref) (es : list entry) : option cellref :=
  match es with
  | [] => None
  | e :: es' =>
    if muse_equal (e_key e) key then Some prev else scan key (InTail (e_cell e)) es'
  end.

(** The chain after the value of the first match is replaced, and after the
    first match is unlinked. *)
Fixpoint set_first (key v : muse_cell) (es : list entry) : list entry :=
  match es with
  | [] => []
  | e :: es' =>
    if muse_equal (e_key e) key
    then Entry (e_cell e) (e_pair e) (e_key e) v :: es'
    else e :: set_first key v es'
  end.

Fixpoint drop_first (key : muse_cell) (es : list entry) : list entry :=
  match es with
  | [] => []
  | e :: es' => if muse_equal (e_key e) key then es' else e :: drop_first key es'
  end.

(** The number of stored pairs of a chain whose key equals [key]. *)
Fixpoint key_count (key : muse_cell) (es : list entry) : nat :=
  match es with
  | [] => 0
  | e :: es' => ((if muse_equal (e_key e) key then 1 else 0) + key_count key es')%nat
  end.

(** No two stored pairs have equal keys. *)
Definition keys_unique (es : list entry) : Prop :=
  forall e1 e2, e1 ∈ es -> e2 ∈ es -> muse_equal (e_key e1) (e_key e2) = true -> e1 = e2.

(** The [int] fields can take the next pair and the doubled bucket count. *)
Definition room_to_grow (h : hashtable_t) : Prop :=
  count h + 1 < int_half /\ 2 * bucket_count h < int_half.

(** The value that a call with one argument returns. *)
Definition lookup_value (m : heap) (h : hashtable_t) (key : muse_cell) : option muse_cell :=
  '(_, _, v) ← fn_hashtable m h key None; Some v.

(** *** Chains and heap updates *)

Lemma chain_agree (m m' : heap) es : forall c,
  (forall a, a ∈ cells_of es -> m' !! a = m !! a) ->
  chain m c es -> chain m' c es.
Proof.
  induction es as [|e es IH]; intros c Hag; simpl; [done |].
  intros (-> & Hnil & next & Hc & Hp & Hrest).
  split; [done |]. split; [done |]. exists next.
  rewrite !Hag by (unfold cells_of; simpl; set_solver).
  split; [done |]. split; [done |].
  apply IH; [| done]. intros a Ha. apply Hag.
  unfold cells_of in *. simpl. set_solver.
Qed.

Lemma chain_insert_fresh (m : heap) c es a x :
  a ∉ cells_of es -> chain m c es -> chain (<[a := x]> m) c es.
Proof.
  intros Ha. apply chain_agree. intros b Hb.
  apply lookup_insert_ne. set_solver.
Qed.

Lemma chain_cells_dom (m : heap) es : forall c a,
  chain m c es -> a ∈ cells_of es -> is_Some (m !! a).
Proof.
  induction es as [|e es IH]; intros c a; simpl.
  - intros _ Ha. unfold cells_of in Ha. simpl in Ha. set_solver.
  - intros (-> & _ & next & Hc & Hp & Hrest) Ha.
    unfold cells_of in Ha. simpl in Ha.
    rewrite !elem_of_cons in Ha. destruct Ha as [-> | [-> | Ha]]; eauto.
Qed.

Lemma chain_inj (m : heap) es1 : forall es2 c,
  chain m c es1 -> chain m c es2 -> es1 = es2.
Proof.
  induction es1 as [|e1 es1 IH]; intros [|e2 es2] c; simpl; try done.
  - intros -> (_ & ? & _). done.
  - intros (_ & ? & _) ->. done.
  - intros (-> & _ & n1 & Hc1 & Hp1 & Hr1) (He & _ & n2 & Hc2 & Hp2 & Hr2).
    rewrite Hc1 in Hc2. injection Hc2 as Hpe <-.
    rewrite Hpe, Hp2 in Hp1. injection Hp1 as Hk Hv.
    f_equal; [destruct e1, e2; simpl in *; congruence | eauto].
Qed.

Lemma cells_of_cons e es : cells_of (e :: es) = e_cell e :: e_pair e :: cells_of es.
Proof. done. Qed.

Lemma cells_of_app es1 es2 : cells_of (es1 ++ es2) = cells_of es1 ++ cells_of es2.
Proof. unfold cells_of. apply bind_app. Qed.

Lemma elem_of_cells_of a es :
  a ∈ cells_of es <-> exists e, e ∈ es /\ (a = e_cell e \/ a = e_pair e).
Proof.
  unfold cells_of. rewrite list_elem_of_bind. split.
  - intros (e & Ha & He). exists e. set_solver.
  - intros (e & He & Ha). exists e. set_solver.
Qed.

Lemma chain_length_fuel (m : heap) c es :
  chain m c es -> NoDup (cells_of es) -> (length es < walk_fuel m)%nat.
Proof.
  intros Hch Hnd. unfold walk_fuel.
  assert (NoDup (e_cell <$> es)) as Hnd'.
  { clear Hch. induction es as [|e es IH]; [constructor |].
    rewrite cells_of_cons in Hnd. rewrite fmap_cons.
    apply NoDup_cons in Hnd as [Hn1 Hnd]. apply NoDup_cons in Hnd as [Hn2 Hnd].
    constructor; [| by apply IH].
    intros Hin. apply Hn1. apply list_elem_of_fmap in Hin as (e' & He' & Hin).
    right. apply elem_of_cells_of. eauto. }
  assert (list_to_set (e_cell <$> es) ⊆ dom m) as Hsub.
  { intros a Ha. apply elem_of_list_to_set in Ha.
    apply list_elem_of_fmap in Ha as (e & -> & He).
    apply elem_of_dom. eapply chain_cells_dom; [done |].
    apply elem_of_cells_of. eauto. }
  apply subseteq_size in Hsub.
  rewrite size_list_to_set, length_fmap, size_dom in Hsub by done. lia.
Qed.

(** *** The scan of a chain *)

Lemma assoc_iter_scan (m : heap) bk key es : forall fuel ref c,
  load m bk ref = Some c -> chain m c es -> (length es < fuel)%nat ->
  assoc_iter fuel m bk ref key = Some (scan key ref es).
Proof.
  induction es as [|e es IH]; intros [|fuel] ref c Hld Hch Hfuel;
    simpl in Hfuel; try lia; simpl in *.
  - subst c. by rewrite Hld.
  - destruct Hch as (-> & Hnil & next & Hc & Hp & Hrest).
    rewrite Hld. simpl. rewrite decide_False by done.
    unfold _head. rewrite Hc. simpl. rewrite Hp. simpl.
    destruct (muse_equal (e_key e) key); [done |].
    apply (IH fuel (InTail (e_cell e)) next); [| done | lia].
    simpl. unfold _tail. by rewrite Hc.
Qed.

Lemma scan_None key es : forall ref,
  scan key ref es = None <-> first_match key es = None.
Proof.
  induction es as [|e es IH]; intros ref; simpl; [done |].
  destruct (muse_equal (e_key e) key); [done | apply IH].
Qed.

Lemma scan_Some (m : heap) bk key es : forall ref c r,
  load m bk ref = Some c -> chain m c es -> scan key ref es = Some r ->
  exists e, first_match key es = Some e /\ load m bk r = Some (e_cell e).
Proof.
  induction es as [|e es IH]; intros ref c r Hld Hch Hscan; simpl in *; [done |].
  destruct Hch as (-> & Hnil & next & Hc & Hp & Hrest).
  destruct (muse_equal (e_key e) key).
  - injection Hscan as <-. eauto.
  - apply (IH (InTail (e_cell e)) next); [| done | done].
    simpl. unfold _tail. by rewrite Hc.
Qed.

Lemma first_match_elem key es e :
  first_match key es = Some e -> e ∈ es /\ muse_equal (e_key e) key = true.
Proof.
  induction es as [|e' es IH]; simpl; [done |].
  destruct (muse_equal (e_key e') key) eqn:Heq.
  - intros [= ->]. split; [left | done].
  - intros H. destruct (IH H). split; [by right | done].
Qed.

Lemma first_match_cell (m : heap) c key es e :
  chain m c es -> first_match key es = Some e ->
  m !! e_pair e = Some (Cons (e_key e) (e_val e)) /\
  exists next, m !! e_cell e = Some (Cons (e_pair e) next).
Proof.
  revert c. induction es as [|e' es IH]; intros c; simpl; [done |].
  intros (-> & Hnil & next & Hc & Hp & Hrest).
  destruct (muse_equal (e_key e') key); [| by apply (IH next)].
  intros [= <-]. eauto.
Qed.

(** *** Buckets *)

Lemma bucket_for_hash_range hash bc :
  0 < bc < int_half ->
  exists b : nat, bucket_for_hash hash bc = Some (Z.of_nat b) /\ (Z.of_nat b < bc).
Proof.
  intros Hbc. unfold bucket_for_hash. rewrite decide_False by lia.
  pose proof (Z.rem_bound_abs hash bc ltac:(lia)) as H1.
  assert (0 <= Z.rem hash bc + bc) as H2 by lia.
  pose proof (Z.rem_bound_pos (Z.rem hash bc + bc) bc H2 ltac:(lia)) as H3.
  exists (Z.to_nat (Z.rem (Z.rem hash bc + bc) bc)).
  rewrite Z2Nat.id by lia. split; [| lia].
  f_equal. apply to_int_id. unfold is_int. lia.
Qed.

Lemma table_bucket (m : heap) h bs (b : nat) :
  table_inv m h bs -> Z.of_nat b < bucket_count h ->
  exists c es, buckets h !! b = Some c /\ bs !! b = Some es /\ chain m c es.
Proof.
  intros Hinv Hb.
  destruct (lookup_lt_is_Some_2 (buckets h) b) as [c Hc].
  { pose proof (inv_length _ _ _ Hinv). lia. }
  destruct (Forall2_lookup_l _ _ _ _ _ (inv_chains _ _ _ Hinv) Hc) as (es & Hes & Hch).
  eauto.
Qed.

Lemma table_bucket_nodup (m : heap) h bs (b : nat) es :
  table_inv m h bs -> bs !! b = Some es -> NoDup (cells_of es).
Proof.
  intros Hinv Hes. pose proof (inv_nodup _ _ _ Hinv) as Hnd.
  apply list_elem_of_split_length in Hes as (bs1 & bs2 & -> & _).
  rewrite concat_app, concat_cons, !cells_of_app in Hnd.
  apply NoDup_app in Hnd as (_ & _ & Hnd). by apply NoDup_app in Hnd as (Hnd & _).
Qed.

(** Two descriptions of the bucket of one key are the same bucket. *)
Ltac same_bucket Hb Hb' Hes Hes' :=
  rewrite Hb in Hb'; injection Hb' as Hb'; apply Nat2Z.inj in Hb';
  match type of Hb' with _ = ?b' => subst b' end;
  rewrite Hes in Hes'; injection Hes' as <-.

(** [hashtable_get] on a table that satisfies the invariant. *)
Lemma hashtable_get_spec (m : heap) h bs key :
  table_inv m h bs ->
  exists (b : nat) es,
    bucket_for_hash (muse_hash key) (bucket_count h) = Some (Z.of_nat b) /\
    bs !! b = Some es /\
    hashtable_get m h key = Some (scan key (InBucket (Z.of_nat b)) es, muse_hash key).
Proof.
  intros Hinv.
  destruct (bucket_for_hash_range (muse_hash key) _ (inv_bucket_count _ _ _ Hinv))
    as (b & Hb & Hlt).
  destruct (table_bucket _ _ _ b Hinv Hlt) as (c & es & Hc & Hes & Hch).
  exists b, es. split; [done |]. split; [done |].
  unfold hashtable_get. rewrite Hb. simpl.
  unfold muse_assoc_iter.
  rewrite (assoc_iter_scan m (buckets h) key es _ _ c); [done | | done |].
  - simpl. by rewrite arr_get_nat.
  - eapply chain_length_fuel; [done |]. by eapply table_bucket_nodup.
Qed.

(** *** Replacing one bucket of a table *)

Lemma chains_frame (m m' : heap) cs ess :
  Forall2 (chain m) cs ess ->
  (forall a, a ∈ cells_of (concat ess) -> m' !! a = m !! a) ->
  Forall2 (chain m') cs ess.
Proof.
  induction 1 as [|c es cs ess Hch _ IH]; intros Hag; constructor.
  - eapply chain_agree; [| done]. intros a Ha. apply Hag.
    simpl. rewrite cells_of_app. set_solver.
  - apply IH. intros a Ha. apply Hag. simpl. rewrite cells_of_app. set_solver.
Qed.

Lemma nodup_replace (A E E' B : list muse_cell) :
  NoDup (A ++ E ++ B) -> NoDup E' ->
  (forall a, a ∈ E' -> a ∈ E \/ a ∉ A ++ E ++ B) ->
  NoDup (A ++ E' ++ B).
Proof.
  intros Hnd HE' Hsub.
  apply NoDup_app in Hnd as (HA & HAEB & HEB).
  apply NoDup_app in HEB as (HE & HEB & HB).
  apply NoDup_app. split; [done |]. split.
  - intros a Ha Hin. apply elem_of_app in Hin as [Hin | Hin].
    + destruct (Hsub a Hin) as [H | H]; [apply (HAEB a Ha) | apply H]; set_solver.
    + apply (HAEB a Ha). set_solver.
  - apply NoDup_app. split; [done |]. split; [| done].
    intros a Ha Hin. destruct (Hsub a Ha) as [H | H]; [by apply (HEB a) | apply H].
    set_solver.
Qed.

Lemma table_inv_replace (m m' : heap) h h' bs (b : nat) es c' es' :
  table_inv m h bs -> bs !! b = Some es ->
  (forall a, a ∈ cells_of (concat bs) -> a ∉ cells_of es -> m' !! a = m !! a) ->
  chain m' c' es' ->
  NoDup (cells_of es') ->
  (forall a, a ∈ cells_of es' -> a ∈ cells_of es \/ a ∉ cells_of (concat bs)) ->
  bucket_count h' = bucket_count h ->
  buckets h' = <[b := c']> (buckets h) ->
  count h' = count h + (Z.of_nat (length es') - Z.of_nat (length es)) ->
  table_inv m' h' (<[b := es']> bs).
Proof.
  intros [Hbc Hlen Hch Hnd Hcnt] Hes Hag Hch' Hnd' Hsub Hbc' Hbk' Hcnt'.
  apply list_elem_of_split_length in Hes as (bs1 & bs2 & -> & Hb).
  apply Forall2_app_inv_r in Hch as (cs1 & cs2' & Hch1 & Hch2 & Hbk).
  apply Forall2_cons_inv_r in Hch2 as (c & cs2 & Hc & Hch2 & ->).
  assert (length cs1 = b) as Hb1 by (apply Forall2_length in Hch1; lia).
  rewrite concat_app, concat_cons, !cells_of_app in Hnd, Hag, Hsub.
  rewrite concat_app, concat_cons, !length_app in Hcnt.
  assert (<[b:=es']> (bs1 ++ es :: bs2) = bs1 ++ es' :: bs2) as ->.
  { subst b. rewrite insert_app_r_alt by lia.
    by replace (length bs1 - length bs1)%nat with 0%nat by lia. }
  assert (buckets h' = cs1 ++ c' :: cs2) as Hbk''.
  { rewrite Hbk', Hbk. rewrite <- Hb1. rewrite insert_app_r_alt by lia.
    by replace (length cs1 - length cs1)%nat with 0%nat by lia. }
  pose proof Hnd as Hnd0.
  apply NoDup_app in Hnd0 as (_ & HAEB & HEB).
  apply NoDup_app in HEB as (_ & HEB & _).
  constructor.
  - lia.
  - rewrite Hbc', <- Hlen, Hbk'', Hbk, !length_app. simpl. lia.
  - rewrite Hbk''. apply Forall2_app; [| constructor; [done |]].
    + eapply chains_frame; [done |]. intros a Ha. apply Hag; [set_solver |].
      intros Hin. apply (HAEB a Ha). set_solver.
    + eapply chains_frame; [done |]. intros a Ha. apply Hag; [set_solver |].
      intros Hin. by apply (HEB a Hin).
  - rewrite concat_app, concat_cons, !cells_of_app.
    by apply (nodup_replace _ (cells_of es)).
  - rewrite concat_app, concat_cons, !length_app. lia.
Qed.

(** *** Looking a key up: [fn_hashtable] with one argument *)

Lemma fn_hashtable_lookup (m : heap) h bs key :
  table_inv m h bs ->
  exists (b : nat) es,
    bucket_for_hash (muse_hash key) (bucket_count h) = Some (Z.of_nat b) /\
    bs !! b = Some es /\
    fn_hashtable m h key None =
      Some (m, h, from_option e_val MUSE_NIL (first_match key es)).
Proof.
  intros Hinv.
  destruct (hashtable_get_spec m h bs key Hinv) as (b & es & Hb & Hes & Hget).
  exists b, es. split; [done |]. split; [done |].
  unfold fn_hashtable. rewrite Hget. simpl.
  destruct (table_bucket m h bs b Hinv) as (c & es' & Hc & Hes' & Hch).
  { destruct (bucket_for_hash_range (muse_hash key) _ (inv_bucket_count _ _ _ Hinv))
      as (b' & Hb' & Hlt). rewrite Hb in Hb'. injection Hb' as Hb'. lia. }
  rewrite Hes in Hes'. injection Hes' as <-.
  destruct (scan key (InBucket (Z.of_nat b)) es) as [r|] eqn:Hscan.
  - destruct (scan_Some m (buckets h) key es (InBucket (Z.of_nat b)) c r)
      as (e & Hfm & Hld); [| done | done |].
    { simpl. by rewrite arr_get_nat. }
    destruct (first_match_cell m c key es e Hch Hfm) as (Hp & next & Hce).
    rewrite Hld. simpl. unfold _head, _tail. rewrite Hce. simpl. rewrite Hp. simpl.
    by rewrite Hfm.
  - apply scan_None in Hscan. by rewrite Hscan.
Qed.

(** *** Replacing a value in place: [fn_hashtable] on a key that is present *)

Lemma cells_of_set_first key v es : cells_of (set_first key v es) = cells_of es.
Proof.
  induction es as [|e es IH]; simpl; [done |].
  destruct (muse_equal (e_key e) key); [done |].
  by rewrite !cells_of_cons, IH.
Qed.

Lemma length_set_first key v es : length (set_first key v es) = length es.
Proof.
  induction es as [|e es IH]; simpl; [done |].
  destruct (muse_equal (e_key e) key); simpl; [done | by rewrite IH].
Qed.

Lemma chain_set_first (m : heap) key v es e : forall c,
  chain m c es -> NoDup (cells_of es) -> first_match key es = Some e ->
  chain (<[e_pair e := Cons (e_key e) v]> m) c (set_first key v es).
Proof.
  induction es as [|e' es IH]; intros c; simpl; [done |].
  intros (-> & Hnil & next & Hc & Hp & Hrest) Hnd Hfm.
  rewrite cells_of_cons in Hnd.
  apply NoDup_cons in Hnd as [Hn1 Hnd]. apply NoDup_cons in Hnd as [Hn2 Hnd].
  destruct (muse_equal (e_key e') key) eqn:Heq.
  - injection Hfm as <-. simpl.
    split; [done |]. split; [done |]. exists next.
    rewrite lookup_insert_ne by set_solver. rewrite lookup_insert_eq.
    split; [done |]. split; [done |].
    by apply chain_insert_fresh.
  - apply first_match_elem in Hfm as Hin. destruct Hin as [Hin _].
    assert (e_pair e ∈ cells_of es) as Hpin by (apply elem_of_cells_of; eauto).
    simpl. split; [done |]. split; [done |]. exists next.
    rewrite !lookup_insert_ne by set_solver.
    split; [done |]. split; [done |].
    by apply IH.
Qed.

Lemma fn_hashtable_update (m : heap) h bs key v (b : nat) es e :
  table_inv m h bs -> v <> MUSE_NIL ->
  bucket_for_hash (muse_hash key) (bucket_count h) = Some (Z.of_nat b) ->
  bs !! b = Some es ->
  first_match key es = Some e ->
  let m' := <[e_pair e := Cons (e_key e) v]> m in
  fn_hashtable m h key (Some v) = Some (m', h, v) /\
  table_inv m' h (<[b := set_first key v es]> bs).
Proof.
  intros Hinv Hv Hb Hes Hfm m'.
  destruct (hashtable_get_spec m h bs key Hinv) as (b' & es' & Hb' & Hes' & Hget).
  same_bucket Hb Hb' Hes Hes'.
  destruct (bucket_for_hash_range (muse_hash key) _ (inv_bucket_count _ _ _ Hinv))
    as (b' & Hb' & Hlt). rewrite Hb in Hb'. injection Hb' as Hb'.
  apply Nat2Z.inj in Hb'. subst b'.
  destruct (table_bucket m h bs b Hinv Hlt) as (c & es' & Hc & Hes' & Hch).
  rewrite Hes in Hes'. injection Hes' as <-.
  pose proof (table_bucket_nodup m h bs b es Hinv Hes) as Hnd.
  split.
  - unfold fn_hashtable. rewrite Hget. simpl.
    destruct (scan key (InBucket (Z.of_nat b)) es) as [r|] eqn:Hscan.
    2: { apply scan_None in Hscan. congruence. }
    destruct (scan_Some m (buckets h) key es (InBucket (Z.of_nat b)) c r)
      as (e' & Hfm' & Hld); [| done | done |].
    { simpl. by rewrite arr_get_nat. }
    rewrite Hfm in Hfm'. injection Hfm' as <-.
    destruct (first_match_cell m c key es e Hch Hfm) as (Hp & next & Hce).
    rewrite decide_False by done. rewrite Hld. simpl.
    unfold _head, _sett. rewrite Hce. simpl. rewrite Hp. done.
  - apply (table_inv_replace m m' h h bs b es c); try done.
    + intros a _ Ha. subst m'. apply lookup_insert_ne.
      apply first_match_elem in Hfm as [Hin _].
      intros <-. apply Ha. apply elem_of_cells_of. eauto.
    + by apply chain_set_first.
    + by rewrite cells_of_set_first.
    + intros a. rewrite cells_of_set_first. auto.
    + symmetry. by apply list_insert_id.
    + rewrite length_set_first. lia.
Qed.

(** *** Unlinking a pair: [fn_hashtable] with a NIL value *)

Lemma cells_of_drop_first key es a :
  a ∈ cells_of (drop_first key es) -> a ∈ cells_of es.
Proof.
  induction es as [|e es IH]; simpl; [done |].
  destruct (muse_equal (e_key e) key); rewrite !cells_of_cons; set_solver.
Qed.

Lemma nodup_drop_first key es :
  NoDup (cells_of es) -> NoDup (cells_of (drop_first key es)).
Proof.
  induction es as [|e es IH]; simpl; [done |].
  rewrite cells_of_cons. intros Hnd.
  apply NoDup_cons in Hnd as [Hn1 Hnd]. apply NoDup_cons in Hnd as [Hn2 Hnd].
  destruct (muse_equal (e_key e) key); [done |].
  rewrite cells_of_cons. pose proof (cells_of_drop_first key es).
  repeat constructor; set_solver.
Qed.

Lemma length_drop_first key es e :
  first_match key es = Some e -> length es = S (length (drop_first key es)).
Proof.
  induction es as [|e' es IH]; simpl; [done |].
  destruct (muse_equal (e_key e') key); simpl; [done |].
  intros H. by rewrite (IH H).
Qed.

Lemma chain_drop_first (m : heap) bk key es : forall ref c r,
  load m bk ref = Some c -> chain m c es -> NoDup (cells_of es) ->
  scan key ref es = Some r ->
  exists e t,
    first_match key es = Some e /\
    load m bk r = Some (e_cell e) /\ _tail m (e_cell e) = Some t /\
    ((r = ref /\ chain m t (drop_first key es)) \/
     (exists c0 x, r = InTail c0 /\ c0 ∈ cells_of es /\ m !! c0 = Some x /\
                   chain (<[c0 := Cons (head x) t]> m) c (drop_first key es))).
Proof.
  induction es as [|e' es IH]; intros ref c r Hld Hch Hnd Hscan; simpl in *; [done |].
  destruct Hch as (-> & Hnil & next & Hc & Hp & Hrest).
  rewrite cells_of_cons in Hnd.
  apply NoDup_cons in Hnd as [Hn1 Hnd]. apply NoDup_cons in Hnd as [Hn2 Hnd].
  destruct (muse_equal (e_key e') key) eqn:Heq.
  - injection Hscan as <-. exists e', next.
    split; [done |]. split; [done |]. split; [unfold _tail; by rewrite Hc |].
    by left.
  - destruct (IH (InTail (e_cell e')) next r) as (e & t & Hfm & Hldr & Ht & Hcase);
      [simpl; unfold _tail; by rewrite Hc | done | done | done |].
    exists e, t. split; [done |]. split; [done |]. split; [done |]. right.
    destruct Hcase as [[-> Hch'] | (c0 & x & -> & Hc0 & Hx & Hch')].
    + exists (e_cell e'), (Cons (e_pair e') next).
      split; [done |]. split; [rewrite cells_of_cons; set_solver |]. split; [done |].
      simpl. split; [done |]. split; [done |]. exists t.
      rewrite lookup_insert_eq. rewrite lookup_insert_ne by set_solver.
      split; [done |]. split; [done |].
      apply chain_insert_fresh; [| done].
      intros Hin. apply Hn1. right. by apply (cells_of_drop_first key).
    + exists c0, x.
      split; [done |]. split; [rewrite cells_of_cons; set_solver |]. split; [done |].
      simpl. split; [done |]. split; [done |]. exists next.
      rewrite !lookup_insert_ne by set_solver. done.
Qed.

Lemma fn_hashtable_delete (m : heap) h bs key (b : nat) es e :
  table_inv m h bs -> count h <= int_half ->
  bucket_for_hash (muse_hash key) (bucket_count h) = Some (Z.of_nat b) ->
  bs !! b = Some es ->
  first_match key es = Some e ->
  exists m' h',
    fn_hashtable m h key (Some MUSE_NIL) = Some (m', h', MUSE_NIL) /\
    table_inv m' h' (<[b := drop_first key es]> bs) /\
    bucket_count h' = bucket_count h /\ count h' = count h - 1 /\
    dom m' = dom m.
Proof.
  intros Hinv Hcnt Hb Hes Hfm.
  destruct (hashtable_get_spec m h bs key Hinv) as (b' & es' & Hb' & Hes' & Hget).
  same_bucket Hb Hb' Hes Hes'.
  destruct (bucket_for_hash_range (muse_hash key) _ (inv_bucket_count _ _ _ Hinv))
    as (b' & Hb' & Hlt). rewrite Hb in Hb'. injection Hb' as Hb'.
  apply Nat2Z.inj in Hb'. subst b'.
  destruct (table_bucket m h bs b Hinv Hlt) as (c & es' & Hc & Hes' & Hch).
  rewrite Hes in Hes'. injection Hes' as <-.
  pose proof (table_bucket_nodup m h bs b es Hinv Hes) as Hnd.
  assert (1 <= count h) as Hpos.
  { rewrite (inv_count _ _ _ Hinv).
    apply list_elem_of_split_length in Hes as (bs1 & bs2 & -> & _).
    rewrite concat_app, concat_cons, !length_app.
    rewrite (length_drop_first key es e Hfm). lia. }
  assert (to_int (count h - 1) = count h - 1) as Hdec.
  { apply to_int_id. unfold is_int. unfold int_half in *. lia. }
  unfold fn_hashtable. rewrite Hget. simpl.
  destruct (scan key (InBucket (Z.of_nat b)) es) as [r|] eqn:Hscan.
  2: { apply scan_None in Hscan. congruence. }
  destruct (chain_drop_first m (buckets h) key es (InBucket (Z.of_nat b)) c r)
    as (e' & t & Hfm' & Hld & Ht & Hcase); [| done | done | done |].
  { simpl. by rewrite arr_get_nat. }
  rewrite Hfm in Hfm'. injection Hfm' as <-.
  rewrite Hld. simpl. rewrite Ht. simpl.
  pose proof (length_drop_first key es e Hfm) as Hlen.
  destruct Hcase as [[-> Hch'] | (c0 & x & -> & Hc0 & Hx & Hch')].
  - simpl. rewrite arr_set_nat.
    2: { pose proof (inv_length _ _ _ Hinv). lia. }
    simpl. eexists _, _. split; [done |]. rewrite Hdec. simpl.
    split; [| done].
    apply (table_inv_replace m m h _ bs b es t); try done.
    + by apply nodup_drop_first.
    + intros a Ha. left. by apply (cells_of_drop_first key).
    + simpl. lia.
  - simpl. unfold _sett. rewrite Hx. simpl.
    eexists _, _. split; [done |]. rewrite Hdec. simpl.
    split.
    + apply (table_inv_replace m _ h _ bs b es c); try done.
      * intros a _ Ha. apply lookup_insert_ne. intros <-. done.
      * by apply nodup_drop_first.
      * intros a Ha. left. by apply (cells_of_drop_first key).
      * simpl. symmetry. by apply list_insert_id.
      * simpl. lia.
    + split; [done |]. split; [done |].
      rewrite dom_insert_L. apply elem_of_dom_2 in Hx. set_solver.
Qed.

(** *** Rehashing *)

#[local] Instance cells_of_perm : Proper ((≡ₚ) ==> (≡ₚ)) cells_of.
Proof. intros es1 es2 H. unfold cells_of. by rewrite H. Qed.

Lemma concat_insert_perm (bs : list (list entry)) (b : nat) es es' :
  bs !! b = Some es -> concat (<[b := es']> bs) ++ es ≡ₚ concat bs ++ es'.
Proof.
  intros Hes. apply list_elem_of_split_length in Hes as (bs1 & bs2 & -> & ->).
  rewrite insert_app_r_alt by lia.
  replace (length bs1 - length bs1)%nat with 0%nat by lia. simpl.
  rewrite !concat_app, !concat_cons.
  rewrite <- !app_assoc. apply Permutation_app_head.
  rewrite (Permutation_app_comm es' (concat bs2 ++ es)).
  rewrite (Permutation_app_comm es (concat bs2 ++ es')).
  rewrite <- !app_assoc. apply Permutation_app_head, Permutation_app_comm.
Qed.

Lemma concat_insert_cons_perm (bs : list (list entry)) (b : nat) es e :
  bs !! b = Some es -> concat (<[b := e :: es]> bs) ≡ₚ e :: concat bs.
Proof.
  intros Hes. pose proof (concat_insert_perm bs b es (e :: es) Hes) as H.
  apply (Permutation_app_inv_r es).
  rewrite H. rewrite <- Permutation_middle. done.
Qed.

Lemma placed_insert nbc (nbs : list (list entry)) (b : nat) es e :
  placed nbc nbs -> nbs !! b = Some es ->
  bucket_for_hash (muse_hash (e_key e)) nbc = Some (Z.of_nat b) ->
  placed nbc (<[b := e :: es]> nbs).
Proof.
  intros Hpl Hes Hb i es' e' Hi He'.
  destruct (decide (i = b)) as [-> | Hne].
  - rewrite list_lookup_insert_eq in Hi by (by eapply lookup_lt_Some).
    injection Hi as <-. apply elem_of_cons in He' as [-> | He']; [done |].
    by eapply Hpl.
  - rewrite list_lookup_insert_ne in Hi by done. by eapply Hpl.
Qed.

(** The table that a bucket array and its chains form. *)
Definition table_of (nbc : Z) (nb : list muse_cell) (nbs : list (list entry)) : hashtable_t :=
  {| count := Z.of_nat (length (concat nbs)); bucket_count := nbc; buckets := nb |}.

Lemma cells_of_bucket_sub (bs : list (list entry)) (b : nat) es a :
  bs !! b = Some es -> a ∈ cells_of es -> a ∈ cells_of (concat bs).
Proof.
  intros Hes Ha. apply list_elem_of_split_length in Hes as (bs1 & bs2 & -> & _).
  rewrite concat_app, concat_cons, !cells_of_app. set_solver.
Qed.

Lemma rehash_chain_spec nbc es : forall fuel (m : heap) nb nbs c,
  chain m c es ->
  table_inv m (table_of nbc nb nbs) nbs -> placed nbc nbs ->
  NoDup (cells_of es ++ cells_of (concat nbs)) ->
  (length es < fuel)%nat ->
  exists (m' : heap) nb' nbs',
    rehash_chain fuel m nb nbc c = Some (m', nb') /\
    table_inv m' (table_of nbc nb' nbs') nbs' /\ placed nbc nbs' /\
    concat nbs' ≡ₚ es ++ concat nbs /\
    dom m' = dom m /\
    (forall a, a ∉ cells_of es -> m' !! a = m !! a).
Proof.
  induction es as [|e es IH]; intros [|fuel] m nb nbs c Hch Hinv Hpl Hnd Hfuel;
    simpl in Hfuel; try lia.
  - simpl in Hch. subst c. exists m, nb, nbs. done.
  - simpl in Hch. destruct Hch as (-> & Hnil & next & Hc & Hp & Hrest).
    rewrite cells_of_cons in Hnd. simpl in Hnd.
    apply NoDup_cons in Hnd as [Hn1 Hnd]. apply NoDup_cons in Hnd as [Hn2 Hnd].
    destruct (bucket_for_hash_range (muse_hash (e_key e)) nbc
                (inv_bucket_count _ _ _ Hinv)) as (b & Hb & Hlt).
    destruct (table_bucket m _ nbs b Hinv Hlt) as (cb & esb & Hcb & Hesb & Hchb).
    simpl in Hcb.
    pose proof (cells_of_bucket_sub nbs b esb) as Hsub.
    pose proof (concat_insert_cons_perm nbs b esb e Hesb) as Hperm1.
    set (m1 := <[e_cell e := Cons (e_pair e) cb]> m).
    assert (table_inv m1 (table_of nbc (<[b := e_cell e]> nb) (<[b := e :: esb]> nbs))
              (<[b := e :: esb]> nbs)) as Hinv1.
    { apply (table_inv_replace m m1 (table_of nbc nb nbs) _ nbs b esb (e_cell e)); try done.
      - intros a Ha _. apply lookup_insert_ne. intros <-. apply Hn1. set_solver.
      - simpl. split; [done |]. split; [done |]. exists cb. subst m1.
        rewrite lookup_insert_eq, lookup_insert_ne by set_solver.
        split; [done |]. split; [done |].
        apply chain_insert_fresh; [| done]. intros Hin. apply Hn1. set_solver.
      - rewrite cells_of_cons.
        pose proof (table_bucket_nodup m _ nbs b esb Hinv Hesb).
        repeat constructor; set_solver.
      - intros a Ha. rewrite cells_of_cons in Ha. set_solver.
      - simpl. apply Permutation_length in Hperm1. simpl in Hperm1. lia. }
    destruct (IH fuel m1 (<[b := e_cell e]> nb) (<[b := e :: esb]> nbs) next)
      as (m' & nb' & nbs' & Hrun & Hinv' & Hpl' & Hperm & Hdom & Hframe).
    + apply chain_insert_fresh; [set_solver | done].
    + done.
    + by apply placed_insert.
    + rewrite Hperm1, cells_of_cons, <- !Permutation_middle.
      repeat constructor; set_solver.
    + lia.
    + exists m', nb', nbs'. split.
      { simpl. rewrite decide_False by done. unfold _head, _tail, _sett.
        rewrite Hc. simpl. rewrite Hp. simpl. rewrite Hb. simpl.
        rewrite arr_get_nat, Hcb. simpl.
        rewrite arr_set_nat. 2: { by eapply lookup_lt_Some. }
        done. }
      split; [done |]. split; [done |]. split.
      { rewrite Hperm, Hperm1. by rewrite <- Permutation_middle. }
      split.
      { rewrite Hdom. subst m1. rewrite dom_insert_L.
        apply elem_of_dom_2 in Hc. set_solver. }
      intros a Ha. rewrite cells_of_cons in Ha.
      rewrite Hframe by set_solver. subst m1. apply lookup_insert_ne. set_solver.
Qed.

Lemma rehash_buckets_spec nbc old_bk obs : forall cs (i : nat) (m : heap) nb nbs,
  drop i old_bk = cs ->
  Forall2 (chain m) cs obs ->
  table_inv m (table_of nbc nb nbs) nbs -> placed nbc nbs ->
  NoDup (cells_of (concat obs) ++ cells_of (concat nbs)) ->
  exists (m' : heap) nb' nbs',
    rehash_buckets (length cs) (Z.of_nat i) m old_bk nb nbc = Some (m', nb') /\
    table_inv m' (table_of nbc nb' nbs') nbs' /\ placed nbc nbs' /\
    concat nbs' ≡ₚ concat obs ++ concat nbs /\
    dom m' = dom m /\
    (forall a, a ∉ cells_of (concat obs) -> m' !! a = m !! a).
Proof.
  induction obs as [|es obs IH]; intros cs i m nb nbs Hdrop Hch Hinv Hpl Hnd.
  - apply Forall2_nil_inv_r in Hch as ->. exists m, nb, nbs. done.
  - apply Forall2_cons_inv_r in Hch as (c & cs' & Hc & Hch & ->).
    assert (old_bk !! i = Some c) as Hi.
    { pose proof (lookup_drop old_bk i 0) as H. rewrite Hdrop in H.
      simpl in H. by rewrite Nat.add_0_r in H. }
    assert (drop (S i) old_bk = cs') as Hdrop'.
    { rewrite (drop_S _ _ _ Hi) in Hdrop. by injection Hdrop. }
    simpl in Hnd. rewrite cells_of_app in Hnd.
    pose proof Hnd as Hnd0.
    apply NoDup_app in Hnd0 as (Hnd1 & Hdisj & Hnd2).
    apply NoDup_app in Hnd1 as (Hndes & Hdisj1 & Hndobs).
    destruct (rehash_chain_spec nbc es (walk_fuel m) m nb nbs c)
      as (m1 & nb1 & nbs1 & Hrun1 & Hinv1 & Hpl1 & Hperm1 & Hdom1 & Hframe1);
      [done | done | done | | by apply (chain_length_fuel m c) |].
    { apply NoDup_app. split; [done |]. split; [| done].
      intros a Ha. apply Hdisj. set_solver. }
    destruct (IH cs' (S i) m1 nb1 nbs1)
      as (m' & nb' & nbs' & Hrun & Hinv' & Hpl' & Hperm & Hdom & Hframe);
      [done | | done | done | |].
    { eapply chains_frame; [done |]. intros a Ha. apply Hframe1.
      intros Hin. by apply (Hdisj1 a). }
    { rewrite Hperm1, cells_of_app.
      rewrite (Permutation_app_comm (cells_of es)) in Hnd.
      by rewrite <- app_assoc in Hnd. }
    exists m', nb', nbs'. split.
    { cbn [length rehash_buckets]. rewrite arr_get_nat, Hi. cbn [mbind option_bind].
      rewrite Hrun1. cbn [mbind option_bind].
      by replace (Z.of_nat i + 1) with (Z.of_nat (S i)) by lia. }
    split; [done |]. split; [done |]. split.
    { rewrite Hperm, Hperm1. simpl. rewrite !app_assoc.
      apply Permutation_app_tail, Permutation_app_comm. }
    split; [congruence |].
    intros a Ha. simpl in Ha. rewrite cells_of_app in Ha.
    rewrite Hframe by set_solver. apply Hframe1. set_solver.
Qed.

Lemma lor_1_bounds n : 0 <= n < int_half -> 0 < Z.lor n 1 < int_half.
Proof.
  unfold int_half. intros Hn.
  destruct n as [|[q|q|]|q]; cbv [Z.lor Pos.lor]; lia.
Qed.

Lemma lor_1_double k : 0 <= k -> Z.lor (2 * k) 1 = 2 * k + 1.
Proof. intros Hk. destruct k as [|q|q]; cbv [Z.mul Pos.mul Z.lor Pos.lor]; lia. Qed.

Lemma lor_1_odd n : Z.odd (Z.lor n 1) = true.
Proof. rewrite <- Z.bit0_odd, Z.lor_spec, !Z.bit0_odd. simpl. apply orb_true_r. Qed.

Lemma concat_replicate_nil (n : nat) : concat (replicate n (@nil entry)) = [].
Proof. induction n; simpl; done. Qed.

Lemma table_inv_empty (m : heap) nbc :
  0 < nbc < int_half ->
  table_inv m (table_of nbc (calloc nbc) (replicate (Z.to_nat nbc) []))
    (replicate (Z.to_nat nbc) []).
Proof.
  intros Hn. constructor; simpl.
  - done.
  - rewrite length_calloc. lia.
  - unfold calloc. generalize (Z.to_nat nbc). intros k.
    induction k; simpl; constructor; done.
  - rewrite concat_replicate_nil. constructor.
  - done.
Qed.

Lemma hashtable_rehash_spec (m : heap) h bs n :
  table_inv m h bs -> 0 <= n < int_half ->
  exists (m' : heap) h' bs',
    hashtable_rehash m h n = Some (m', h') /\
    table_inv m' h' bs' /\ placed (bucket_count h') bs' /\
    concat bs' ≡ₚ concat bs /\
    bucket_count h' = Z.lor n 1 /\ count h' = count h /\
    dom m' = dom m /\
    (forall a, a ∉ cells_of (concat bs) -> m' !! a = m !! a).
Proof.
  intros Hinv Hn. pose proof (lor_1_bounds n Hn) as Hnbc.
  set (nbc := Z.lor n 1) in *.
  destruct (rehash_buckets_spec nbc (buckets h) bs (buckets h) 0 m
              (calloc nbc) (replicate (Z.to_nat nbc) []))
    as (m' & nb' & nbs' & Hrun & Hinv' & Hpl' & Hperm & Hdom & Hframe).
  - done.
  - apply (inv_chains _ _ _ Hinv).
  - by apply table_inv_empty.
  - intros i es e Hi He. apply lookup_replicate in Hi as [-> _]. set_solver.
  - rewrite concat_replicate_nil, app_nil_r. apply (inv_nodup _ _ _ Hinv).
  - rewrite concat_replicate_nil, app_nil_r in Hperm.
    exists m', {| count := count h; bucket_count := nbc; buckets := nb' |}, nbs'.
    split.
    { unfold hashtable_rehash. cbv zeta. fold nbc.
      replace (Z.to_nat (bucket_count h)) with (length (buckets h))
        by (pose proof (inv_length _ _ _ Hinv); lia).
      change (Z.of_nat 0) with 0 in Hrun. rewrite Hrun. done. }
    split.
    { destruct Hinv' as [H1 H2 H3 H4 H5]. constructor; simpl in *; try done.
      rewrite (inv_count _ _ _ Hinv). by rewrite Hperm. }
    done.
Qed.

(** *** Adding a pair: [hashtable_add] *)

Lemma chains_cells_dom (m : heap) cs ess a :
  Forall2 (chain m) cs ess -> a ∈ cells_of (concat ess) -> is_Some (m !! a).
Proof.
  induction 1 as [|c es cs ess Hc _ IH]; simpl.
  - intros Ha. unfold cells_of in Ha. set_solver.
  - rewrite cells_of_app, elem_of_app. intros [Ha | Ha]; [| by apply IH].
    by eapply chain_cells_dom.
Qed.

Lemma table_cells_dom (m : heap) h bs a :
  table_inv m h bs -> a ∈ cells_of (concat bs) -> is_Some (m !! a).
Proof. intros Hinv. eapply chains_cells_dom, (inv_chains _ _ _ Hinv). Qed.

Lemma add_to_bucket (m : heap) h bs key value (b : nat) :
  table_inv m h bs -> count h + 1 < int_half ->
  Z.of_nat b < bucket_count h ->
  exists (m' : heap) bk' es e,
    (old ← arr_get (buckets h) (Z.of_nat b);
     let '(m2, kv) := _cons m key value in
     let '(m3, c) := _cons m2 kv old in
     bk ← arr_set (buckets h) (Z.of_nat b) c;
     Some (m3,
           {| count := to_int (count h + 1); bucket_count := bucket_count h; buckets := bk |},
           InBucket (Z.of_nat b)))
    = Some (m', {| count := count h + 1; bucket_count := bucket_count h; buckets := bk' |},
            InBucket (Z.of_nat b)) /\
    bs !! b = Some es /\ e_key e = key /\ e_val e = value /\
    e_cell e ∉ dom m /\ e_pair e ∉ dom m /\
    (forall a, a ∈ dom m -> m' !! a = m !! a) /\
    table_inv m' {| count := count h + 1; bucket_count := bucket_count h; buckets := bk' |}
      (<[b := e :: es]> bs).
Proof.
  intros Hinv Hcnt Hb.
  destruct (table_bucket m h bs b Hinv Hb) as (c & es & Hc & Hes & Hch).
  unfold _cons. cbv zeta.
  pose proof (fresh_cell_None m) as Hkv.
  pose proof (fresh_cell_None (<[fresh_cell m := Cons key value]> m)) as Hc'.
  pose proof (fresh_cell_not_NIL (<[fresh_cell m := Cons key value]> m)) as Hnil.
  remember (fresh_cell m) as kv eqn:Ekv. clear Ekv.
  remember (fresh_cell (<[kv := Cons key value]> m)) as c' eqn:Ec'. clear Ec'.
  set (m2 := <[kv := Cons key value]> m) in *.
  set (m3 := <[c' := Cons kv c]> m2).
  assert (kv <> c') as Hne.
  { intros Heq. rewrite <- Heq in Hc'. subst m2. by rewrite lookup_insert_eq in Hc'. }
  assert (m !! c' = None) as Hc'm.
  { subst m2. by rewrite lookup_insert_ne in Hc'. }
  assert (forall a, a ∈ dom m -> m3 !! a = m !! a) as Hframe.
  { intros a Ha. apply elem_of_dom in Ha as [x Hx]. subst m3 m2.
    rewrite !lookup_insert_ne; [done | |]; intros <-; congruence. }
  assert (to_int (count h + 1) = count h + 1) as Hinc.
  { apply to_int_id. unfold is_int. rewrite (inv_count _ _ _ Hinv).
    rewrite (inv_count _ _ _ Hinv) in Hcnt. lia. }
  exists m3, (<[b := c']> (buckets h)), es, (Entry c' kv key value).
  split.
  { rewrite arr_get_nat, Hc. simpl. rewrite arr_set_nat by (by eapply lookup_lt_Some).
    simpl. by rewrite Hinc. }
  split; [done |]. split; [done |]. split; [done |].
  split; [by apply not_elem_of_dom |]. split; [by apply not_elem_of_dom |].
  split; [done |].
  apply (table_inv_replace m m3 h _ bs b es c'); simpl; try done.
  - intros a Ha _. apply Hframe. apply elem_of_dom. by eapply table_cells_dom.
  - split; [done |]. split; [done |]. exists c.
    subst m3. rewrite lookup_insert_eq, lookup_insert_ne by done.
    subst m2. rewrite lookup_insert_eq. split; [done |]. split; [done |].
    eapply chain_agree; [| done]. intros a Ha. apply Hframe.
    apply elem_of_dom. by eapply chain_cells_dom.
  - assert (forall a, a ∈ cells_of es -> is_Some (m !! a)) as Hdom
      by (intros a; by eapply chain_cells_dom).
    pose proof (table_bucket_nodup m h bs b es Hinv Hes).
    rewrite cells_of_cons. simpl.
    repeat constructor; [| | done].
    + rewrite elem_of_cons. intros [? | Hin]; [done |].
      apply Hdom in Hin as [x Hx]. congruence.
    + intros Hin. apply Hdom in Hin as [x Hx]. congruence.
  - intros a. rewrite cells_of_cons. simpl. rewrite !elem_of_cons.
    intros [-> | [-> | Ha]]; [right | right | by left];
      intros Hin; eapply table_cells_dom in Hin as [x Hx]; try done; congruence.
  - lia.
Qed.

Lemma hashtable_add_spec (m : heap) h bs key value hash :
  table_inv m h bs -> value <> MUSE_NIL ->
  count h + 1 < int_half -> 2 * bucket_count h < int_half ->
  exists (m' : heap) h' bs' (b : nat) es e,
    hashtable_add m h key value (Some hash) = Some (m', h', InBucket (Z.of_nat b)) /\
    table_inv m' h' bs' /\
    bucket_for_hash hash (bucket_count h') = Some (Z.of_nat b) /\
    bs' !! b = Some (e :: es) /\ e_key e = key /\ e_val e = value /\
    concat bs' ≡ₚ e :: concat bs /\
    count h' = count h + 1 /\
    bucket_count h' =
      (if decide (count h + 1 >= 2 * bucket_count h)
       then 2 * bucket_count h + 1 else bucket_count h) /\
    e_cell e ∉ dom m /\ e_pair e ∉ dom m /\
    (forall a, a ∈ dom m -> a ∉ cells_of (concat bs) -> m' !! a = m !! a) /\
    (hash = muse_hash key -> placed (bucket_count h) bs -> placed (bucket_count h') bs').
Proof.
  intros Hinv Hv Hcnt Hdbl.
  pose proof (inv_bucket_count _ _ _ Hinv) as Hbc.
  pose proof (inv_count _ _ _ Hinv) as Hc0.
  destruct (bucket_for_hash_range hash _ Hbc) as (b0 & Hb0 & Hlt0).
  unfold hashtable_add. rewrite Hb0. cbn [mbind option_bind].
  rewrite (to_int_id (count h + 1)) by (unfold is_int; lia).
  rewrite (to_int_id (2 * bucket_count h)) by (unfold is_int; lia).
  destruct (decide (count h + 1 >= 2 * bucket_count h)) as [Hfull | Hroom].
  - rewrite (to_int_id (bucket_count h * 2)) by (unfold is_int; lia).
    destruct (hashtable_rehash_spec m h bs (bucket_count h * 2) Hinv ltac:(lia))
      as (m1 & h1 & bs1 & Hre & Hinv1 & Hpl1 & Hperm1 & Hbc1 & Hcnt1 & Hdom1 & Hframe1).
    rewrite Hre. cbn [mbind option_bind].
    replace (bucket_count h * 2) with (2 * bucket_count h) in Hbc1 by lia.
    rewrite lor_1_double in Hbc1 by lia.
    destruct (bucket_for_hash_range hash _ (inv_bucket_count _ _ _ Hinv1))
      as (b1 & Hb1 & Hlt1).
    rewrite Hb1. cbn [mbind option_bind]. rewrite decide_False by done.
    destruct (add_to_bucket m1 h1 bs1 key value b1 Hinv1 ltac:(lia) Hlt1)
      as (m' & bk' & es & e & Hrun & Hes & Hk & Hval & Hce & Hpe & Hframe & Hinv').
    rewrite Hrun.
    eexists m', _, _, b1, es, e. split; [done |]. split; [done |].
    split; [done |]. split.
    { rewrite list_lookup_insert_eq; [done |]. by eapply lookup_lt_Some. }
    split; [done |]. split; [done |]. split.
    { rewrite (concat_insert_cons_perm bs1 b1 es e Hes). by rewrite Hperm1. }
    split; [simpl; lia |]. split; [done |].
    rewrite <- Hdom1. split; [done |]. split; [done |]. split.
    { intros a Ha Hna. rewrite Hframe by done. by apply Hframe1. }
    intros -> _. apply placed_insert; [done | done |]. by rewrite Hk.
  - cbn [mbind option_bind]. rewrite decide_False by done.
    destruct (add_to_bucket m h bs key value b0 Hinv Hcnt Hlt0)
      as (m' & bk' & es & e & Hrun & Hes & Hk & Hval & Hce & Hpe & Hframe & Hinv').
    rewrite Hrun.
    eexists m', _, _, b0, es, e. split; [done |]. split; [done |].
    split; [done |]. split.
    { rewrite list_lookup_insert_eq; [done |]. by eapply lookup_lt_Some. }
    split; [done |]. split; [done |]. split.
    { by rewrite (concat_insert_cons_perm bs b0 es e Hes). }
    split; [done |]. split; [done |]. split; [done |]. split; [done |]. split.
    { intros a Ha _. by apply Hframe. }
    intros -> Hpl. apply placed_insert; [done | done |]. by rewrite Hk.
Qed.

Lemma fn_hashtable_insert (m : heap) h bs key value (b0 : nat) es0 :
  table_inv m h bs -> value <> MUSE_NIL ->
  count h + 1 < int_half -> 2 * bucket_count h < int_half ->
  bucket_for_hash (muse_hash key) (bucket_count h) = Some (Z.of_nat b0) ->
  bs !! b0 = Some es0 ->
  first_match key es0 = None ->
  exists (m' : heap) h' bs' (b : nat) es e,
    fn_hashtable m h key (Some value) = Some (m', h', value) /\
    table_inv m' h' bs' /\
    bucket_for_hash (muse_hash key) (bucket_count h') = Some (Z.of_nat b) /\
    bs' !! b = Some (e :: es) /\ e_key e = key /\ e_val e = value /\
    concat bs' ≡ₚ e :: concat bs /\
    count h' = count h + 1 /\
    bucket_count h' =
      (if decide (count h + 1 >= 2 * bucket_count h)
       then 2 * bucket_count h + 1 else bucket_count h) /\
    e_cell e ∉ dom m /\ e_pair e ∉ dom m /\
    (forall a, a ∈ dom m -> a ∉ cells_of (concat bs) -> m' !! a = m !! a) /\
    (placed (bucket_count h) bs -> placed (bucket_count h') bs').
Proof.
  intros Hinv Hv Hcnt Hdbl Hb0 Hes0 Hfm.
  destruct (hashtable_get_spec m h bs key Hinv) as (b' & es' & Hb' & Hes' & Hget).
  same_bucket Hb0 Hb' Hes0 Hes'.
  apply scan_None with (ref := InBucket (Z.of_nat b0)) in Hfm.
  rewrite Hfm in Hget.
  destruct (hashtable_add_spec m h bs key value (muse_hash key) Hinv Hv Hcnt Hdbl)
    as (m' & h' & bs' & b & es & e & Hadd & Hinv' & Hb & Hes & Hk & Hval & Hperm & Hcnt'
        & Hbc' & Hce & Hpe & Hframe & Hpl).
  exists m', h', bs', b, es, e. split.
  { unfold fn_hashtable. rewrite Hget. cbn [mbind option_bind].
    rewrite decide_False by done. rewrite Hadd. done. }
  repeat (split; [done |]). by apply Hpl.
Qed.

(** *** Claims about the call entry point *)

Hypothesis muse_equal_refl : forall k, muse_equal k k = true.

Lemma fn_hashtable_delete_absent (m : heap) h bs key (b : nat) es :
  table_inv m h bs ->
  bucket_for_hash (muse_hash key) (bucket_count h) = Some (Z.of_nat b) ->
  bs !! b = Some es ->
  first_match key es = None ->
  fn_hashtable m h key (Some MUSE_NIL) = Some (m, h, MUSE_NIL).
Proof.
  intros Hinv Hb Hes Hfm.
  destruct (hashtable_get_spec m h bs key Hinv) as (b' & es' & Hb' & Hes' & Hget).
  same_bucket Hb Hb' Hes Hes'.
  apply scan_None with (ref := InBucket (Z.of_nat b)) in Hfm.
  rewrite Hfm in Hget. unfold fn_hashtable. rewrite Hget. done.
Qed.

Lemma key_count_0 key es : key_count key es = 0%nat -> first_match key es = None.
Proof.
  induction es as [|e es IH]; simpl; [done |].
  destruct (muse_equal (e_key e) key); [lia | apply IH].
Qed.

Lemma first_match_drop_first key es :
  (key_count key es <= 1)%nat -> first_match key (drop_first key es) = None.
Proof.
  induction es as [|e es IH]; simpl; [done |].
  destruct (muse_equal (e_key e) key) eqn:Heq.
  - intros H. apply key_count_0. lia.
  - simpl. rewrite Heq. apply IH.
Qed.

Lemma first_match_set_first key v es e :
  first_match key es = Some e ->
  first_match key (set_first key v es) = Some (Entry (e_cell e) (e_pair e) (e_key e) v).
Proof.
  induction es as [|e' es IH]; simpl; [done |].
  destruct (muse_equal (e_key e') key) eqn:Heq; simpl; rewrite Heq.
  - by intros [= ->].
  - apply IH.
Qed.

Lemma lookup_after (m : heap) h bs key (b : nat) es :
  table_inv m h bs ->
  bucket_for_hash (muse_hash key) (bucket_count h) = Some (Z.of_nat b) ->
  bs !! b = Some es ->
  fn_hashtable m h key None =
    Some (m, h, from_option e_val MUSE_NIL (first_match key es)).
Proof.
  intros Hinv Hb Hes.
  destruct (fn_hashtable_lookup m h bs key Hinv) as (b' & es' & Hb' & Hes' & Hrun).
  same_bucket Hb Hb' Hes Hes'. done.
Qed.

Lemma put_then_get (m : heap) h bs K V :
  table_inv m h bs -> room_to_grow h -> V <> MUSE_NIL ->
  exists (m1 : heap) h1,
    fn_hashtable m h K (Some V) = Some (m1, h1, V) /\
    fn_hashtable m1 h1 K None = Some (m1, h1, V).
Proof.
  intros Hinv [Hcnt Hdbl] HV.
  destruct (fn_hashtable_lookup m h bs K Hinv) as (b & es & Hb & Hes & _).
  destruct (first_match K es) as [e|] eqn:Hfm.
  - destruct (fn_hashtable_update m h bs K V b es e Hinv HV Hb Hes Hfm) as [Hrun Hinv'].
    eexists _, h. split; [done |].
    rewrite (lookup_after _ h _ K b (set_first K V es) Hinv' Hb).
    + by rewrite (first_match_set_first K V es e Hfm).
    + apply list_lookup_insert_eq. by eapply lookup_lt_Some.
  - destruct (fn_hashtable_insert m h bs K V b es Hinv HV Hcnt Hdbl Hb Hes Hfm)
      as (m' & h' & bs' & b' & es' & e & Hrun & Hinv' & Hb' & Hes' & Hk & Hv & _).
    exists m', h'. split; [done |].
    rewrite (lookup_after m' h' bs' K b' (e :: es') Hinv' Hb' Hes').
    simpl. rewrite Hk, muse_equal_refl. simpl. by rewrite Hv.
Qed.

Lemma delete_then_get (m : heap) h bs K :
  table_inv m h bs -> room_to_grow h ->
  (forall (b : nat) es,
      bucket_for_hash (muse_hash K) (bucket_count h) = Some (Z.of_nat b) ->
      bs !! b = Some es -> (key_count K es <= 1)%nat) ->
  exists (m2 : heap) h2,
    fn_hashtable m h K (Some MUSE_NIL) = Some (m2, h2, MUSE_NIL) /\
    fn_hashtable m2 h2 K None = Some (m2, h2, MUSE_NIL).
Proof.
  intros Hinv [Hcnt _] Huniq.
  destruct (fn_hashtable_lookup m h bs K Hinv) as (b & es & Hb & Hes & _).
  specialize (Huniq b es Hb Hes).
  destruct (first_match K es) as [e|] eqn:Hfm.
  - destruct (fn_hashtable_delete m h bs K b es e Hinv ltac:(lia) Hb Hes Hfm)
      as (m' & h' & Hrun & Hinv' & Hbc' & _).
    exists m', h'. split; [done |].
    rewrite (lookup_after m' h' _ K b (drop_first K es) Hinv').
    + by rewrite first_match_drop_first.
    + by rewrite Hbc'.
    + apply list_lookup_insert_eq. by eapply lookup_lt_Some.
  - exists m, h. split; [by eapply fn_hashtable_delete_absent |].
    rewrite (lookup_after m h bs K b es Hinv Hb Hes). by rewrite Hfm.
Qed.

(** C1 (amended).  On a table that satisfies the representation invariant
    and whose [int] fields have room for one more pair: storing a non-NIL
    value [V] under [K] succeeds and a following lookup of [K] returns [V];
    and when at most one pair of [K]'s bucket has a key equal to [K],
    storing NIL under [K] succeeds and a following lookup of [K] returns
    NIL. *)
Theorem put_get_delete (m : heap) h bs K V :
  table_inv m h bs -> room_to_grow h -> V <> MUSE_NIL ->
  (exists (m1 : heap) h1,
      fn_hashtable m h K (Some V) = Some (m1, h1, V) /\
      fn_hashtable m1 h1 K None = Some (m1, h1, V)) /\
  ((forall (b : nat) es,
       bucket_for_hash (muse_hash K) (bucket_count h) = Some (Z.of_nat b) ->
       bs !! b = Some es -> (key_count K es <= 1)%nat) ->
   exists (m2 : heap) h2,
      fn_hashtable m h K (Some MUSE_NIL) = Some (m2, h2, MUSE_NIL) /\
      fn_hashtable m2 h2 K None = Some (m2, h2, MUSE_NIL)).
Proof.
  intros Hinv Hroom HV. split.
  - by eapply put_then_get.
  - by eapply delete_then_get.
Qed.

(** *** Rehash stability *)

Lemma chain_entry (m : heap) es e : forall c,
  chain m c es -> e ∈ es ->
  m !! e_pair e = Some (Cons (e_key e) (e_val e)).
Proof.
  induction es as [|e' es IH]; intros c; simpl; [set_solver |].
  intros (-> & _ & next & _ & Hp & Hrest) [-> | Hin]%elem_of_cons; [done |].
  by apply (IH next).
Qed.

Lemma chains_entry (m : heap) cs ess e :
  Forall2 (chain m) cs ess -> e ∈ concat ess ->
  m !! e_pair e = Some (Cons (e_key e) (e_val e)).
Proof.
  induction 1 as [|c es cs ess Hc _ IH]; simpl; [set_solver |].
  intros [Hin | Hin]%elem_of_app; [by eapply chain_entry | by apply IH].
Qed.

Lemma elem_of_concat_bucket (bs : list (list entry)) e :
  e ∈ concat bs -> exists (i : nat) es, bs !! i = Some es /\ e ∈ es.
Proof.
  induction bs as [|es bs IH]; simpl; [set_solver |].
  intros [Hin | Hin]%elem_of_app.
  - by exists 0%nat, es.
  - destruct (IH Hin) as (i & es' & Hi & He). by exists (S i), es'.
Qed.

Lemma elem_of_bucket_concat (bs : list (list entry)) (i : nat) es e :
  bs !! i = Some es -> e ∈ es -> e ∈ concat bs.
Proof.
  intros Hi He. apply list_elem_of_split_length in Hi as (bs1 & bs2 & -> & _).
  rewrite concat_app, concat_cons. set_solver.
Qed.

Lemma first_match_unique key es e :
  keys_unique es -> e ∈ es -> muse_equal (e_key e) key = true ->
  (forall e', e' ∈ es -> muse_equal (e_key e') key = true ->
              muse_equal (e_key e') (e_key e) = true) ->
  first_match key es = Some e.
Proof.
  intros Huniq Hin Heq Hrel.
  destruct (first_match key es) as [e'|] eqn:Hfm.
  - apply first_match_elem in Hfm as [Hin' Heq'].
    f_equal. apply Huniq; auto.
  - exfalso. clear Huniq Hrel. induction es as [|e0 es IH]; [set_solver |].
    simpl in Hfm. apply elem_of_cons in Hin as [<- | Hin].
    + by rewrite Heq in Hfm.
    + destruct (muse_equal (e_key e0) key); [done | auto].
Qed.

Lemma first_match_present key es e :
  e ∈ es -> muse_equal (e_key e) key = true -> is_Some (first_match key es).
Proof.
  induction es as [|e0 es IH]; simpl; [set_solver |].
  destruct (muse_equal (e_key e0) key) eqn:Heq; [by eexists |].
  intros [-> | Hin]%elem_of_cons Hk; [congruence | by apply IH].
Qed.

(** C9 (amended).  Rehashing a table that satisfies the representation
    invariant to any bucket count [n] (a non-negative [int]) succeeds; the
    stored pairs are the same multiset and the pair count is the same; the
    bucket count becomes [n | 1]; every pair lies in the bucket its key
    hashes to; a lookup of the key of any pair returns the value of a
    stored pair with an equal key, and, when no two pairs have equal keys,
    the value of that very pair; no cell is allocated and the pair cells and
    all cells outside the table keep their contents. *)
Theorem rehash_stable (m : heap) h bs n :
  table_inv m h bs -> 0 <= n < int_half ->
  exists (m' : heap) h' bs',
    hashtable_rehash m h n = Some (m', h') /\
    table_inv m' h' bs' /\
    concat bs' ≡ₚ concat bs /\
    count h' = count h /\
    bucket_count h' = Z.lor n 1 /\
    placed (bucket_count h') bs' /\
    (forall e, e ∈ concat bs ->
       exists e', e' ∈ concat bs /\ muse_equal (e_key e') (e_key e) = true /\
                  lookup_value m' h' (e_key e) = Some (e_val e')) /\
    (keys_unique (concat bs) ->
     forall e, e ∈ concat bs -> lookup_value m' h' (e_key e) = Some (e_val e)) /\
    dom m' = dom m /\
    (forall e, e ∈ concat bs -> m' !! e_pair e = m !! e_pair e) /\
    (forall a, a ∉ cells_of (concat bs) -> m' !! a = m !! a).
Proof.
  intros Hinv Hn.
  destruct (hashtable_rehash_spec m h bs n Hinv Hn)
    as (m' & h' & bs' & Hrun & Hinv' & Hpl & Hperm & Hbc & Hcnt & Hdom & Hframe).
  exists m', h', bs'. repeat (split; [done |]).
  split; [| split; [| split; [done | split; [| done]]]].
  - intros e He.
    assert (e ∈ concat bs') as He' by (by rewrite Hperm).
    destruct (elem_of_concat_bucket bs' e He') as (i & es & Hi & Hin).
    pose proof (Hpl i es e Hi Hin) as Hb.
    destruct (first_match_present (e_key e) es e Hin (muse_equal_refl _)) as [e' Hfm].
    pose proof (first_match_elem _ _ _ Hfm) as [Hin' Heq'].
    exists e'. split; [rewrite <- Hperm; by eapply elem_of_bucket_concat |].
    split; [done |]. unfold lookup_value.
    rewrite (lookup_after m' h' bs' (e_key e) i es Hinv' Hb Hi). simpl. by rewrite Hfm.
  - intros Huniq e He.
    assert (e ∈ concat bs') as He' by (by rewrite Hperm).
    destruct (elem_of_concat_bucket bs' e He') as (i & es & Hi & Hin).
    pose proof (Hpl i es e Hi Hin) as Hb.
    unfold lookup_value.
    rewrite (lookup_after m' h' bs' (e_key e) i es Hinv' Hb Hi). simpl.
    rewrite (first_match_unique (e_key e) es e); [done | | done | auto | auto].
    intros e1 e2 H1 H2. apply Huniq; rewrite <- Hperm; by eapply elem_of_bucket_concat.
  - intros e He.
    rewrite (chains_entry m _ bs e (inv_chains _ _ _ Hinv) He).
    apply (chains_entry m' _ bs' e (inv_chains _ _ _ Hinv')). by rewrite Hperm.
Qed.

(** *** Replacing a value in place *)

Hypothesis muse_equal_sym : forall a b, muse_equal a b = muse_equal b a.
Hypothesis muse_equal_trans :
  forall a b c, muse_equal a b = true -> muse_equal b c = true -> muse_equal a c = true.

Lemma first_match_set_first_other K K' V es :
  muse_equal K' K = false ->
  e_val <$> first_match K' (set_first K V es) = e_val <$> first_match K' es.
Proof.
  intros Hne. induction es as [|e es IH]; simpl; [done |].
  destruct (muse_equal (e_key e) K) eqn:HK; simpl.
  - destruct (muse_equal (e_key e) K') eqn:HK'; [| done].
    rewrite muse_equal_sym in HK'.
    by rewrite (muse_equal_trans _ _ _ HK' HK) in Hne.
  - destruct (muse_equal (e_key e) K'); [done | apply IH].
Qed.

(** C10.  When [K] is present in a table that satisfies the representation
    invariant, a call with [K] and a non-NIL value [V] returns [V] and
    leaves the table record as it is (pair count, bucket count and bucket
    array).  The pair cell [kv] that a lookup of [K] reads is overwritten
    with [V] and no other cell changes, so that no cell is allocated; the
    invariant still holds, a lookup of [K] now returns [V], and a lookup of
    any key that is not equal to [K] returns what it returned before. *)
Theorem update_in_place (m : heap) h bs K V p hash :
  table_inv m h bs -> V <> MUSE_NIL ->
  hashtable_get m h K = Some (Some p, hash) ->
  exists (m' : heap) kv k old,
    fn_hashtable m h K (Some V) = Some (m', h, V) /\
    m !! kv = Some (Cons k old) /\ muse_equal k K = true /\
    lookup_value m h K = Some old /\
    m' = <[kv := Cons k V]> m /\
    dom m' = dom m /\
    (exists bs', table_inv m' h bs') /\
    lookup_value m' h K = Some V /\
    (forall K', muse_equal K' K = false -> lookup_value m' h K' = lookup_value m h K').
Proof.
  clear muse_equal_refl. intros Hinv HV Hget.
  destruct (hashtable_get_spec m h bs K Hinv) as (b & es & Hb & Hes & Hget').
  rewrite Hget in Hget'. injection Hget' as Hscan _.
  destruct (first_match K es) as [e|] eqn:Hfm.
  2: { apply scan_None with (ref := InBucket (Z.of_nat b)) in Hfm. congruence. }
  destruct (fn_hashtable_update m h bs K V b es e Hinv HV Hb Hes Hfm) as [Hrun Hinv'].
  destruct (table_bucket m h bs b Hinv) as (c & es' & Hc & Hes' & Hch).
  { destruct (bucket_for_hash_range (muse_hash K) _ (inv_bucket_count _ _ _ Hinv))
      as (b' & Hb' & Hlt). rewrite Hb in Hb'. injection Hb' as Hb'. lia. }
  rewrite Hes in Hes'. injection Hes' as <-.
  destruct (first_match_cell m c K es e Hch Hfm) as [Hp _].
  pose proof (first_match_elem _ _ _ Hfm) as [_ Hk].
  assert (<[b := set_first K V es]> bs !! b = Some (set_first K V es)) as Hes'.
  { apply list_lookup_insert_eq. by eapply lookup_lt_Some. }
  exists (<[e_pair e := Cons (e_key e) V]> m), (e_pair e), (e_key e), (e_val e).
  split; [done |]. split; [done |]. split; [done |].
  split.
  { unfold lookup_value. rewrite (lookup_after m h bs K b es Hinv Hb Hes).
    simpl. by rewrite Hfm. }
  split; [done |]. split.
  { rewrite dom_insert_L. apply elem_of_dom_2 in Hp. set_solver. }
  split; [eauto |]. split.
  { unfold lookup_value.
    rewrite (lookup_after _ h _ K b (set_first K V es) Hinv' Hb Hes').
    simpl. by rewrite (first_match_set_first K V es e Hfm). }
  intros K' Hne. unfold lookup_value.
  destruct (fn_hashtable_lookup m h bs K' Hinv) as (b' & es' & Hb' & Hes2 & Hrun').
  rewrite Hrun'. simpl.
  destruct (decide (b' = b)) as [-> | Hbne].
  - rewrite Hes in Hes2. injection Hes2 as <-.
    rewrite (lookup_after _ h _ K' b (set_first K V es) Hinv' Hb' Hes').
    simpl. f_equal.
    pose proof (first_match_set_first_other K K' V es Hne) as Hfm'.
    destruct (first_match K' (set_first K V es)), (first_match K' es);
      simpl in *; congruence.
  - rewrite (lookup_after _ h _ K' b' es' Hinv' Hb'); [done |].
    by rewrite list_lookup_insert_ne.
Qed.

(** *** The load factor *)

(** The invariant of a table that is used through its call entry point. *)
Definition load_inv (m : heap) (h : hashtable_t) : Prop :=
  exists bs, table_inv m h bs /\
             count h < 2 * bucket_count h /\ count h + 1 < int_half.

Lemma to_int_high z : int_half <= z < int_modulus -> to_int z = z - int_modulus.
Proof.
  unfold to_int, int_half, int_modulus. intros Hz.
  replace (z + 2 ^ 31) with ((z - 2 ^ 31) + 1 * 2 ^ 32) by lia.
  rewrite Z.mod_add by lia. rewrite Z.mod_small by lia. lia.
Qed.

Lemma rehash_chain_length fuel : forall (m : heap) nb nbc c (m' : heap) nb',
  rehash_chain fuel m nb nbc c = Some (m', nb') -> length nb' = length nb.
Proof.
  induction fuel as [|fuel IH]; intros m nb nbc c m' nb'; simpl; [done |].
  destruct (decide (c = MUSE_NIL)); [by intros [= _ ->] |].
  destruct (_head m c) as [kv|]; [| done]. cbn [mbind option_bind].
  destruct (_head m kv) as [k|]; [| done]. cbn [mbind option_bind].
  destruct (bucket_for_hash (muse_hash k) nbc) as [new_b|]; [| done]. cbn [mbind option_bind].
  destruct (_tail m c) as [next|]; [| done]. cbn [mbind option_bind].
  destruct (arr_get nb new_b) as [old|]; [| done]. cbn [mbind option_bind].
  destruct (_sett m c old) as [m1|]; [| done]. cbn [mbind option_bind].
  destruct (arr_set nb new_b c) as [nb1|] eqn:Hset; [| done]. cbn [mbind option_bind].
  intros Hrec. apply IH in Hrec. apply arr_set_Some in Hset as [_ ->].
  by rewrite length_insert in Hrec.
Qed.

Lemma rehash_buckets_length n : forall i (m : heap) ob nb nbc (m' : heap) nb',
  rehash_buckets n i m ob nb nbc = Some (m', nb') -> length nb' = length nb.
Proof.
  induction n as [|n IH]; intros i m ob nb nbc m' nb'; cbn [rehash_buckets].
  - by intros [= _ ->].
  - intros H. destruct (arr_get ob i) as [alist|]; [| done]. cbn [mbind option_bind] in H.
    destruct (rehash_chain (walk_fuel m) m nb nbc alist) as [[m1 nb1]|] eqn:H1; [| done].
    cbn [mbind option_bind] in H. apply IH in H. apply rehash_chain_length in H1. lia.
Qed.

Lemma arr_get_nil i : arr_get [] i = None.
Proof. unfold arr_get. by case_decide. Qed.

(** An insertion that has to double a bucket count of 2^30 or more does not
    return: the doubled count wraps to a negative [int]. *)
Lemma hashtable_add_overflow (m : heap) h bs key value hash :
  table_inv m h bs -> count h + 1 < int_half ->
  int_half <= 2 * bucket_count h ->
  hashtable_add m h key value (Some hash) = None.
Proof.
  intros Hinv Hcnt Hbig.
  pose proof (inv_bucket_count _ _ _ Hinv) as Hbc.
  pose proof (inv_count _ _ _ Hinv) as Hc0.
  destruct (bucket_for_hash_range hash _ Hbc) as (b0 & Hb0 & Hlt0).
  unfold hashtable_add. rewrite Hb0. cbn [mbind option_bind].
  rewrite (to_int_id (count h + 1)) by (unfold is_int; lia).
  assert (int_modulus = 2 * int_half) as Hmod by done.
  rewrite (to_int_high (2 * bucket_count h)) by lia.
  rewrite decide_True by lia.
  replace (bucket_count h * 2) with (2 * bucket_count h) by lia.
  rewrite (to_int_high (2 * bucket_count h)) by lia.
  set (n := 2 * bucket_count h - int_modulus).
  destruct (hashtable_rehash m h n) as [[m1 h1]|] eqn:Hre; [| done].
  cbn [mbind option_bind].
  unfold hashtable_rehash in Hre. cbv zeta in Hre.
  destruct (rehash_buckets _ _ _ _ _ _) as [[m2 nb2]|] eqn:Hrb; [| done].
  apply rehash_buckets_length in Hrb. rewrite length_calloc in Hrb.
  assert (Z.lor n 1 < 0) as Hneg by (apply Z.lor_neg; lia).
  rewrite Z2Nat.nonpos in Hrb by lia.
  destruct nb2; [| done]. cbn [mbind option_bind] in Hre. injection Hre as <- <-.
  cbn [bucket_count buckets].
  destruct (bucket_for_hash hash (Z.lor n 1)); [| done]. cbn [mbind option_bind].
  case_decide; [done |]. by rewrite arr_get_nil.
Qed.

Lemma fn_hashtable_load_inv (m : heap) h key value_arg (m' : heap) h' r :
  load_inv m h -> fn_hashtable m h key value_arg = Some (m', h', r) -> load_inv m' h'.
Proof.
  intros (bs & Hinv & Hload & Hcnt) Hrun.
  pose proof (inv_count _ _ _ Hinv) as Hc0.
  destruct (fn_hashtable_lookup m h bs key Hinv) as (b & es & Hb & Hes & Hlook).
  destruct value_arg as [value|].
  2: { rewrite Hlook in Hrun. injection Hrun as <- <- _. by exists bs. }
  destruct (first_match key es) as [e|] eqn:Hfm.
  - destruct (decide (value = MUSE_NIL)) as [-> | Hv].
    + destruct (fn_hashtable_delete m h bs key b es e Hinv ltac:(lia) Hb Hes Hfm)
        as (m1 & h1 & Hrun1 & Hinv1 & Hbc1 & Hcnt1 & _).
      rewrite Hrun1 in Hrun. injection Hrun as <- <- _.
      eexists. split; [done |]. lia.
    + destruct (fn_hashtable_update m h bs key value b es e Hinv Hv Hb Hes Hfm)
        as [Hrun1 Hinv1].
      rewrite Hrun1 in Hrun. injection Hrun as <- <- _.
      eexists. split; [done |]. lia.
  - destruct (decide (value = MUSE_NIL)) as [-> | Hv].
    + rewrite (fn_hashtable_delete_absent m h bs key b es Hinv Hb Hes Hfm) in Hrun.
      injection Hrun as <- <- _. by exists bs.
    + destruct (decide (2 * bucket_count h < int_half)) as [Hdbl | Hbig].
      * destruct (fn_hashtable_insert m h bs key value b es Hinv Hv Hcnt Hdbl Hb Hes Hfm)
          as (m1 & h1 & bs1 & b1 & es1 & e1 & Hrun1 & Hinv1 & _ & _ & _ & _ & _
              & Hcnt1 & Hbc1 & _).
        rewrite Hrun1 in Hrun. injection Hrun as <- <- _.
        exists bs1. split; [done |]. rewrite Hcnt1, Hbc1.
        unfold int_half in *. case_decide; lia.
      * exfalso. revert Hrun. unfold fn_hashtable.
        destruct (hashtable_get_spec m h bs key Hinv) as (b' & es' & Hb' & Hes' & Hget).
        same_bucket Hb Hb' Hes Hes'.
        apply scan_None with (ref := InBucket (Z.of_nat b)) in Hfm.
        rewrite Hfm in Hget. rewrite Hget. cbn [mbind option_bind].
        rewrite decide_False by done.
        by rewrite (hashtable_add_overflow m h bs key value _ Hinv Hcnt ltac:(lia)).
Qed.

(** A call returns, as long as the bucket count can still be doubled. *)
Lemma fn_hashtable_returns (m : heap) h key value_arg :
  load_inv m h -> 2 * bucket_count h < int_half ->
  is_Some (fn_hashtable m h key value_arg).
Proof.
  intros (bs & Hinv & Hload & Hcnt) Hdbl.
  pose proof (inv_count _ _ _ Hinv) as Hc0.
  destruct (fn_hashtable_lookup m h bs key Hinv) as (b & es & Hb & Hes & Hlook).
  destruct value_arg as [value|]; [| by rewrite Hlook].
  destruct (first_match key es) as [e|] eqn:Hfm.
  - destruct (decide (value = MUSE_NIL)) as [-> | Hv].
    + destruct (fn_hashtable_delete m h bs key b es e Hinv ltac:(lia) Hb Hes Hfm)
        as (m1 & h1 & Hrun1 & _). by rewrite Hrun1.
    + destruct (fn_hashtable_update m h bs key value b es e Hinv Hv Hb Hes Hfm)
        as [Hrun1 _]. by rewrite Hrun1.
  - destruct (decide (value = MUSE_NIL)) as [-> | Hv].
    + by rewrite (fn_hashtable_delete_absent m h bs key b es Hinv Hb Hes Hfm).
    + destruct (fn_hashtable_insert m h bs key value b es Hinv Hv Hcnt Hdbl Hb Hes Hfm)
        as (m1 & h1 & bs1 & b1 & es1 & e1 & Hrun1 & _). by rewrite Hrun1.
Qed.

Lemma run_calls_load_inv calls : forall (m : heap) h (m' : heap) h',
  load_inv m h -> run_calls m h calls = Some (m', h') -> load_inv m' h'.
Proof.
  induction calls as [|[key value_arg] calls IH]; intros m h m' h' Hinv; simpl.
  - by intros [= <- <-].
  - destruct (fn_hashtable m h key value_arg) as [[[m1 h1] r]|] eqn:Hrun; [| done].
    cbn [mbind option_bind]. apply IH. by eapply fn_hashtable_load_inv.
Qed.

Lemma hashtable_init_load_inv (m : heap) args :
  0 < bucket_count (hashtable_init args) -> load_inv m (hashtable_init args).
Proof.
  intros Hpos. set (bc := bucket_count (hashtable_init args)) in *.
  assert (0 < bc < int_half) as Hbc.
  { split; [done |]. subst bc. destruct args as [n|]; simpl; [| done].
    apply to_int_is_int. }
  exists (replicate (Z.to_nat bc) []).
  destruct (table_inv_empty m bc Hbc) as [H1 H2 H3 H4 H5].
  split; [| change (count (hashtable_init args)) with 0; unfold int_half in *; lia].
  constructor; try done. simpl. by rewrite concat_replicate_nil.
Qed.

(** A table without buckets: every call divides by zero or reads outside
    the (empty) bucket array. *)
Lemma fn_hashtable_no_buckets (m : heap) h key value_arg :
  bucket_count h <= 0 -> buckets h = [] -> fn_hashtable m h key value_arg = None.
Proof.
  intros Hbc Hbk. unfold fn_hashtable, hashtable_get, bucket_for_hash.
  case_decide; [done |]. cbn [mbind option_bind].
  unfold muse_assoc_iter, walk_fuel. cbn [assoc_iter load].
  by rewrite Hbk, arr_get_nil.
Qed.

(** C2.  For a table made by [hashtable_init] with any requested size (or
    none) and any non-empty sequence of calls through [fn_hashtable]
    (lookups, insertions, replacements and deletions) that returns, the pair
    count after the last call is strictly less than twice the bucket count. *)
Theorem load_factor_after_calls (m : heap) args calls (m' : heap) h' :
  calls <> [] ->
  run_calls m (hashtable_init args) calls = Some (m', h') ->
  count h' < 2 * bucket_count h'.
Proof.
  intros Hne Hrun.
  destruct (decide (0 < bucket_count (hashtable_init args))) as [Hpos | Hnpos].
  - destruct (run_calls_load_inv calls m _ m' h' (hashtable_init_load_inv m args Hpos) Hrun)
      as (bs & _ & Hload & _). done.
  - exfalso. destruct calls as [|[key value_arg] calls]; [done |].
    simpl in Hrun. rewrite fn_hashtable_no_buckets in Hrun; [done | lia |].
    simpl. unfold calloc. rewrite Z2Nat.nonpos; [done |].
    destruct args; simpl in *; lia.
Qed.

(** *** Tables that grow through the call entry point only

    Such a table never holds two pairs with equal keys, so that for it the
    identity of C1 holds without a condition on the keys. *)

Hypothesis muse_hash_equal :
  forall a b, muse_equal a b = true -> muse_hash a = muse_hash b.

Definition grown_inv (m : heap) (h : hashtable_t) : Prop :=
  exists bs, table_inv m h bs /\ placed (bucket_count h) bs /\
             keys_unique (concat bs) /\
             count h < 2 * bucket_count h /\ count h + 1 < int_half.

Lemma entry_cell_inj (l : list entry) e1 e2 :
  NoDup (cells_of l) -> e1 ∈ l -> e2 ∈ l -> e_cell e1 = e_cell e2 -> e1 = e2.
Proof.
  induction l as [|e l IH]; [set_solver |].
  rewrite cells_of_cons. intros Hnd.
  apply NoDup_cons in Hnd as [Hn1 Hnd]. apply NoDup_cons in Hnd as [Hn2 Hnd].
  assert (forall e', e' ∈ l -> e_cell e' <> e_cell e) as Hother.
  { intros e' Hin Heq. apply Hn1. right. apply elem_of_cells_of. eauto. }
  intros [-> | H1]%elem_of_cons [-> | H2]%elem_of_cons Heq; [done | | | by apply IH].
  - by destruct (Hother e2 H2).
  - by destruct (Hother e1 H1).
Qed.

Lemma set_first_elem key v es e' :
  e' ∈ set_first key v es ->
  exists e, e ∈ es /\ e_cell e' = e_cell e /\ e_key e' = e_key e.
Proof.
  induction es as [|e0 es IH]; simpl; [set_solver |].
  destruct (muse_equal (e_key e0) key).
  - intros [-> | Hin]%elem_of_cons; [exists e0 | exists e']; set_solver.
  - intros [-> | Hin]%elem_of_cons; [exists e0; set_solver |].
    destruct (IH Hin) as (e & He & Hc & Hk). exists e. set_solver.
Qed.

Lemma drop_first_elem key es e' : e' ∈ drop_first key es -> e' ∈ es.
Proof.
  induction es as [|e0 es IH]; simpl; [done |].
  destruct (muse_equal (e_key e0) key); set_solver.
Qed.

Lemma elem_of_concat_insert (bs : list (list entry)) (b : nat) es es' e :
  bs !! b = Some es -> e ∈ concat (<[b := es']> bs) -> e ∈ es' \/ e ∈ concat bs.
Proof.
  intros Hes Hin. pose proof (concat_insert_perm bs b es es' Hes) as Hperm.
  assert (e ∈ concat (<[b := es']> bs) ++ es) as Hin' by set_solver.
  rewrite Hperm in Hin'. set_solver.
Qed.

Lemma first_match_None_elem key es e :
  first_match key es = None -> e ∈ es -> muse_equal (e_key e) key = false.
Proof.
  induction es as [|e0 es IH]; simpl; [set_solver |].
  destruct (muse_equal (e_key e0) key) eqn:Heq; [done |].
  intros Hfm [-> | Hin]%elem_of_cons; auto.
Qed.

Lemma key_count_pos key es :
  (0 < key_count key es)%nat -> exists e, e ∈ es /\ muse_equal (e_key e) key = true.
Proof.
  induction es as [|e0 es IH]; simpl; [lia |].
  destruct (muse_equal (e_key e0) key) eqn:Heq.
  - intros _. exists e0. set_solver.
  - intros H. destruct (IH H) as (e & He & Hk). exists e. set_solver.
Qed.

Lemma key_count_unique key es :
  keys_unique es -> NoDup (cells_of es) -> (key_count key es <= 1)%nat.
Proof.
  induction es as [|e es IH]; simpl; [lia |].
  intros Huniq Hnd. rewrite cells_of_cons in Hnd.
  apply NoDup_cons in Hnd as [Hn1 Hnd]. apply NoDup_cons in Hnd as [Hn2 Hnd].
  assert (keys_unique es) as Huniq'.
  { intros e1 e2 H1 H2. apply Huniq; by right. }
  specialize (IH Huniq' Hnd).
  destruct (muse_equal (e_key e) key) eqn:Heq; [| lia].
  destruct (key_count key es) as [|n] eqn:Hn; [lia |].
  destruct (key_count_pos key es) as (e' & He' & Hk'); [lia |].
  assert (e = e') as <-.
  { apply Huniq; [by left | by right |].
    rewrite (muse_equal_sym (e_key e') key) in Hk'.
    by apply (muse_equal_trans _ key). }
  exfalso. apply Hn1. right. apply elem_of_cells_of. eauto.
Qed.

(** The three changes of a table keep the pairs where their keys hash to
    and keep the keys unique. *)
Lemma update_keeps_keys (m' : heap) h bs (b : nat) es K V :
  table_inv m' h (<[b := set_first K V es]> bs) -> bs !! b = Some es ->
  placed (bucket_count h) bs -> keys_unique (concat bs) ->
  placed (bucket_count h) (<[b := set_first K V es]> bs) /\
  keys_unique (concat (<[b := set_first K V es]> bs)).
Proof.
  intros Hinv' Hes Hpl Huniq.
  assert (forall e', e' ∈ concat (<[b := set_first K V es]> bs) ->
            exists e, e ∈ concat bs /\ e_cell e' = e_cell e /\ e_key e' = e_key e) as Horig.
  { intros e' [Hin | Hin]%(elem_of_concat_insert bs b es _ e' Hes); [| by exists e'].
    destruct (set_first_elem K V es e' Hin) as (e & He & Hc & Hk).
    exists e. split; [by eapply elem_of_bucket_concat | done]. }
  split.
  - intros i es' e' Hi He'. destruct (decide (i = b)) as [-> | Hne].
    + rewrite list_lookup_insert_eq in Hi by (by eapply lookup_lt_Some).
      injection Hi as <-.
      destruct (set_first_elem K V es e' He') as (e & He & _ & Hk).
      rewrite Hk. by eapply Hpl.
    + rewrite list_lookup_insert_ne in Hi by done. by eapply Hpl.
  - intros e1 e2 H1 H2 Heq.
    destruct (Horig e1 H1) as (o1 & Ho1 & Hc1 & Hk1).
    destruct (Horig e2 H2) as (o2 & Ho2 & Hc2 & Hk2).
    rewrite Hk1, Hk2 in Heq. pose proof (Huniq o1 o2 Ho1 Ho2 Heq) as ->.
    eapply entry_cell_inj; [apply (inv_nodup _ _ _ Hinv') | done | done | congruence].
Qed.

Lemma delete_keeps_keys bc bs (b : nat) es K :
  bs !! b = Some es ->
  placed bc bs -> keys_unique (concat bs) ->
  placed bc (<[b := drop_first K es]> bs) /\
  keys_unique (concat (<[b := drop_first K es]> bs)).
Proof.
  intros Hes Hpl Huniq. split.
  - intros i es' e' Hi He'. destruct (decide (i = b)) as [-> | Hne].
    + rewrite list_lookup_insert_eq in Hi by (by eapply lookup_lt_Some).
      injection Hi as <-. eapply Hpl; [done |]. by eapply drop_first_elem.
    + rewrite list_lookup_insert_ne in Hi by done. by eapply Hpl.
  - assert (forall e, e ∈ concat (<[b := drop_first K es]> bs) -> e ∈ concat bs) as Hsub.
    { intros e [Hin | Hin]%(elem_of_concat_insert bs b es _ e Hes); [| done].
      eapply elem_of_bucket_concat; [done |]. by eapply drop_first_elem. }
    intros e1 e2 H1 H2. apply Huniq; auto.
Qed.

Lemma insert_keeps_keys bc bs (b0 : nat) es0 e (l : list entry) :
  bucket_for_hash (muse_hash (e_key e)) bc = Some (Z.of_nat b0) ->
  bs !! b0 = Some es0 -> first_match (e_key e) es0 = None ->
  placed bc bs -> keys_unique (concat bs) ->
  l ≡ₚ e :: concat bs ->
  keys_unique l.
Proof.
  intros Hb0 Hes0 Hfm Hpl Huniq Hperm.
  assert (forall e', e' ∈ concat bs -> muse_equal (e_key e') (e_key e) = false) as Hnew.
  { intros e' Hin. destruct (muse_equal (e_key e') (e_key e)) eqn:Heq; [| done].
    destruct (elem_of_concat_bucket bs e' Hin) as (i & es & Hi & He').
    pose proof (Hpl i es e' Hi He') as Hb.
    rewrite (muse_hash_equal _ _ Heq), Hb0 in Hb. injection Hb as Hb.
    apply Nat2Z.inj in Hb. subst i. rewrite Hes0 in Hi. injection Hi as <-.
    by rewrite (first_match_None_elem _ _ _ Hfm He') in Heq. }
  intros e1 e2 H1 H2 Heq. rewrite Hperm in H1, H2.
  apply elem_of_cons in H1 as [-> | H1]; apply elem_of_cons in H2 as [-> | H2].
  - done.
  - rewrite muse_equal_sym in Heq. by rewrite (Hnew e2 H2) in Heq.
  - by rewrite (Hnew e1 H1) in Heq.
  - by apply Huniq.
Qed.

Lemma fn_hashtable_grown_inv (m : heap) h key value_arg (m' : heap) h' r :
  grown_inv m h -> fn_hashtable m h key value_arg = Some (m', h', r) -> grown_inv m' h'.
Proof.
  intros (bs & Hinv & Hpl & Huniq & Hload & Hcnt) Hrun.
  pose proof (inv_count _ _ _ Hinv) as Hc0.
  destruct (fn_hashtable_lookup m h bs key Hinv) as (b & es & Hb & Hes & Hlook).
  destruct value_arg as [value|].
  2: { rewrite Hlook in Hrun. injection Hrun as <- <- _. by exists bs. }
  destruct (first_match key es) as [e|] eqn:Hfm.
  - destruct (decide (value = MUSE_NIL)) as [-> | Hv].
    + destruct (fn_hashtable_delete m h bs key b es e Hinv ltac:(lia) Hb Hes Hfm)
        as (m1 & h1 & Hrun1 & Hinv1 & Hbc1 & Hcnt1 & _).
      rewrite Hrun1 in Hrun. injection Hrun as <- <- _.
      destruct (delete_keeps_keys (bucket_count h) bs b es key Hes Hpl Huniq) as [Hpl1 Hu1].
      eexists. split; [done |]. rewrite Hbc1. split; [done |]. split; [done |]. lia.
    + destruct (fn_hashtable_update m h bs key value b es e Hinv Hv Hb Hes Hfm)
        as [Hrun1 Hinv1].
      rewrite Hrun1 in Hrun. injection Hrun as <- <- _.
      destruct (update_keeps_keys _ h bs b es key value Hinv1 Hes Hpl Huniq) as [Hpl1 Hu1].
      eexists. split; [done |]. split; [done |]. split; [done |]. lia.
  - destruct (decide (value = MUSE_NIL)) as [-> | Hv].
    + rewrite (fn_hashtable_delete_absent m h bs key b es Hinv Hb Hes Hfm) in Hrun.
      injection Hrun as <- <- _. by exists bs.
    + destruct (decide (2 * bucket_count h < int_half)) as [Hdbl | Hbig].
      * destruct (fn_hashtable_insert m h bs key value b es Hinv Hv Hcnt Hdbl Hb Hes Hfm)
          as (m1 & h1 & bs1 & b1 & es1 & e1 & Hrun1 & Hinv1 & _ & _ & Hk1 & _ & Hperm1
              & Hcnt1 & Hbc1 & _ & _ & _ & Hpl1).
        rewrite Hrun1 in Hrun. injection Hrun as <- <- _.
        exists bs1. split; [done |]. split; [by apply Hpl1 |]. split.
        { subst key. by eapply (insert_keeps_keys (bucket_count h) bs b es e1). }
        rewrite Hcnt1, Hbc1. unfold int_half in *. case_decide; lia.
      * exfalso.
        assert (load_inv m h) as Hli by (by exists bs).
        assert (int_half <= 2 * bucket_count h) as Hbig' by lia.
        revert Hrun. unfold fn_hashtable.
        destruct (hashtable_get_spec m h bs key Hinv) as (b' & es' & Hb' & Hes' & Hget).
        same_bucket Hb Hb' Hes Hes'.
        apply scan_None with (ref := InBucket (Z.of_nat b)) in Hfm.
        rewrite Hfm in Hget. rewrite Hget. cbn [mbind option_bind].
        rewrite decide_False by done.
        by rewrite (hashtable_add_overflow m h bs key value _ Hinv Hcnt Hbig').
Qed.

Lemma run_calls_grown_inv calls : forall (m : heap) h (m' : heap) h',
  grown_inv m h -> run_calls m h calls = Some (m', h') -> grown_inv m' h'.
Proof.
  induction calls as [|[key value_arg] calls IH]; intros m h m' h' Hinv; simpl.
  - by intros [= <- <-].
  - destruct (fn_hashtable m h key value_arg) as [[[m1 h1] r]|] eqn:Hrun; [| done].
    cbn [mbind option_bind]. apply IH. by eapply fn_hashtable_grown_inv.
Qed.

Lemma hashtable_init_grown_inv (m : heap) args :
  0 < bucket_count (hashtable_init args) -> grown_inv m (hashtable_init args).
Proof.
  intros Hpos. destruct (hashtable_init_load_inv m args Hpos) as (bs & Hinv & Hload).
  pose proof (inv_count _ _ _ Hinv) as Hc. change (count (hashtable_init args)) with 0 in Hc.
  assert (concat bs = []) as Hnil by (destruct (concat bs); [done | simpl in Hc; lia]).
  exists bs. split; [done |]. split.
  - intros i es e Hi He. exfalso.
    pose proof (elem_of_bucket_concat bs i es e Hi He) as Hin.
    rewrite Hnil in Hin. set_solver.
  - split; [| done]. rewrite Hnil. intros e1 e2 H1. set_solver.
Qed.

(** The identity of C1, as it is stated, for a table made by
    [hashtable_init] and changed by calls only. *)
Lemma grown_table_identity (m : heap) args calls (m' : heap) h' K V :
  0 < bucket_count (hashtable_init args) ->
  run_calls m (hashtable_init args) calls = Some (m', h') ->
  room_to_grow h' -> V <> MUSE_NIL ->
  (exists (m1 : heap) h1,
      fn_hashtable m' h' K (Some V) = Some (m1, h1, V) /\
      fn_hashtable m1 h1 K None = Some (m1, h1, V)) /\
  (exists (m2 : heap) h2,
      fn_hashtable m' h' K (Some MUSE_NIL) = Some (m2, h2, MUSE_NIL) /\
      fn_hashtable m2 h2 K None = Some (m2, h2, MUSE_NIL)).
Proof.
  intros Hpos Hrun Hroom HV.
  destruct (run_calls_grown_inv calls m _ m' h' (hashtable_init_grown_inv m args Hpos) Hrun)
    as (bs & Hinv & Hpl & Huniq & _).
  split; [by eapply put_then_get |].
  apply (delete_then_get m' h' bs K Hinv Hroom). intros b es _ Hes.
  apply key_count_unique.
  - intros e1 e2 H1 H2. apply Huniq; by eapply elem_of_bucket_concat.
  - by eapply table_bucket_nodup.
Qed.

(** *** The bucket of a hash *)

(** For a positive bucket count, [bucket_for_hash] is the residue of the
    hash in [0, modulus), for a negative hash as well. *)
Theorem bucket_for_hash_residue (hash modulus : Z) :
  0 < modulus < int_half ->
  bucket_for_hash hash modulus = Some (hash mod modulus) /\
  0 <= hash mod modulus < modulus.
Proof.
  intros Hm. pose proof (Z.mod_pos_bound hash modulus ltac:(lia)) as Hmod.
  split; [| done]. unfold bucket_for_hash. rewrite decide_False by lia. f_equal.
  pose proof (Z.rem_bound_abs hash modulus ltac:(lia)) as Hrem.
  assert (0 <= Z.rem hash modulus + modulus) as Hnn by lia.
  rewrite (Z.rem_mod_nonneg (Z.rem hash modulus + modulus) modulus) by lia.
  assert ((Z.rem hash modulus + modulus) mod modulus = hash mod modulus) as ->.
  { rewrite <- (Z.mul_1_l modulus) at 2. rewrite Z.mod_add by lia.
    pose proof (Z.quot_rem' hash modulus) as Hq.
    rewrite Hq at 2. rewrite Z.add_comm, Z.mul_comm, Z.mod_add by lia. done. }
  apply to_int_id. unfold is_int. lia.
Qed.

(** *** The size of a table *)

(** [hashtable_size], the size of the monad view; [fn_hashtable_size] and
    [muse_hashtable_length] return the same field. *)
Definition hashtable_size (self : hashtable_t) : Z := count self.

(** A call of a table that satisfies the representation invariant and has
    room to grow returns and keeps the invariant, so that the size is the
    number of stored pairs, and it changes the size by one at most: up when
    a key that was not found is stored with a value, down when a key that
    was found is stored with NIL. *)
Theorem hashtable_size_after_call (m : heap) h bs K value_arg :
  table_inv m h bs -> room_to_grow h ->
  exists (m' : heap) h' r kvpair hash,
    fn_hashtable m h K value_arg = Some (m', h', r) /\
    hashtable_get m h K = Some (kvpair, hash) /\
    (exists bs', table_inv m' h' bs' /\
                 hashtable_size h' = Z.of_nat (length (concat bs'))) /\
    hashtable_size h' = hashtable_size h +
      match value_arg, kvpair with
      | Some v, Some _ => if decide (v = MUSE_NIL) then -1 else 0
      | Some v, None => if decide (v = MUSE_NIL) then 0 else 1
      | None, _ => 0
      end.
Proof.
  intros Hinv [Hcnt Hdbl]. unfold hashtable_size.
  destruct (hashtable_get_spec m h bs K Hinv) as (b & es & Hb & Hes & Hget).
  pose proof (inv_count _ _ _ Hinv) as Hc0.
  assert (forall (m' : heap) h' bs1, table_inv m' h' bs1 ->
            exists bs', table_inv m' h' bs' /\ count h' = Z.of_nat (length (concat bs')))
    as Hsize.
  { intros m' h' bs1 H1. exists bs1. split; [done | apply (inv_count _ _ _ H1)]. }
  destruct value_arg as [v|].
  2: { destruct (fn_hashtable_lookup m h bs K Hinv) as (b' & es' & _ & _ & Hlook).
       eexists m, h, _, _, _. split; [exact Hlook |]. split; [exact Hget |].
       split; [by apply (Hsize m h bs) | lia]. }
  destruct (first_match K es) as [e|] eqn:Hfm.
  - assert (exists p, scan K (InBucket (Z.of_nat b)) es = Some p) as [p Hp].
    { destruct (scan K (InBucket (Z.of_nat b)) es) eqn:Hs; [by eexists |].
      apply scan_None in Hs. congruence. }
    rewrite Hp in Hget.
    destruct (decide (v = MUSE_NIL)) as [-> | Hv].
    + destruct (fn_hashtable_delete m h bs K b es e Hinv ltac:(lia) Hb Hes Hfm)
        as (m1 & h1 & Hrun1 & Hinv1 & _ & Hcnt1 & _).
      eexists m1, h1, _, _, _. split; [exact Hrun1 |]. split; [exact Hget |].
      split; [by eapply Hsize |].
      repeat case_decide; try done; cbn; lia.
    + destruct (fn_hashtable_update m h bs K v b es e Hinv Hv Hb Hes Hfm) as [Hrun1 Hinv1].
      eexists _, h, _, _, _. split; [exact Hrun1 |]. split; [exact Hget |].
      split; [by eapply Hsize |].
      repeat case_decide; try done; cbn; lia.
  - pose proof Hfm as Hs. apply (scan_None K es (InBucket (Z.of_nat b))) in Hs.
    rewrite Hs in Hget.
    destruct (decide (v = MUSE_NIL)) as [-> | Hv].
    + eexists m, h, _, _, _.
      split; [exact (fn_hashtable_delete_absent m h bs K b es Hinv Hb Hes Hfm) |].
      split; [exact Hget |]. split; [by apply (Hsize m h bs) |].
      repeat case_decide; try done; cbn; lia.
    + destruct (fn_hashtable_insert m h bs K v b es Hinv Hv Hcnt Hdbl Hb Hes Hfm)
        as (m1 & h1 & bs1 & b1 & es1 & e1 & Hrun1 & Hinv1 & _ & _ & _ & _ & _ & Hcnt1 & _).
      eexists m1, h1, _, _, _. split; [exact Hrun1 |]. split; [exact Hget |].
      split; [by eapply Hsize |].
      repeat case_decide; try done; cbn; lia.
Qed.

(** *** A table that grew through calls is a finite map *)

Lemma first_match_equiv K K' es :
  muse_equal K' K = true -> first_match K' es = first_match K es.
Proof.
  intros Heq. induction es as [|e es IH]; simpl; [done |].
  destruct (muse_equal (e_key e) K) eqn:H1.
  - by rewrite (muse_equal_trans _ K K') by (done || by rewrite muse_equal_sym).
  - destruct (muse_equal (e_key e) K') eqn:H2; [| done].
    by rewrite (muse_equal_trans _ K' K) in H1.
Qed.

Lemma first_match_drop_first_other K K' es :
  muse_equal K' K = false ->
  first_match K' (drop_first K es) = first_match K' es.
Proof.
  intros Hne. induction es as [|e es IH]; simpl; [done |].
  destruct (muse_equal (e_key e) K) eqn:H1; simpl.
  - destruct (muse_equal (e_key e) K') eqn:H2; [| done].
    rewrite muse_equal_sym in H2.
    by rewrite (muse_equal_trans K' (e_key e) K) in Hne.
  - by rewrite IH.
Qed.

Lemma keys_unique_perm (l l' : list entry) : l ≡ₚ l' -> keys_unique l -> keys_unique l'.
Proof.
  intros Hperm Huniq e1 e2 H1 H2. rewrite <- Hperm in H1, H2. by apply Huniq.
Qed.

Lemma first_match_perm K (l l' : list entry) :
  l ≡ₚ l' -> keys_unique l -> first_match K l = first_match K l'.
Proof.
  intros Hperm Huniq.
  destruct (first_match K l) as [e|] eqn:Hfm.
  - apply first_match_elem in Hfm as [Hin Hk]. symmetry.
    apply first_match_unique; [by eapply keys_unique_perm | by rewrite <- Hperm | done |].
    intros e' _ Hk'. apply (muse_equal_trans _ K); [done | by rewrite muse_equal_sym].
  - destruct (first_match K l') as [e|] eqn:Hfm'; [| done].
    apply first_match_elem in Hfm' as [Hin Hk]. rewrite <- Hperm in Hin.
    by rewrite (first_match_None_elem K l e Hfm Hin) in Hk.
Qed.

(** A lookup in a table whose pairs are in the buckets of their keys, and
    whose keys are unique, finds the pair wherever it is. *)
Lemma lookup_value_concat (m : heap) h bs K :
  table_inv m h bs -> placed (bucket_count h) bs -> keys_unique (concat bs) ->
  lookup_value m h K = Some (from_option e_val MUSE_NIL (first_match K (concat bs))).
Proof.
  intros Hinv Hpl Huniq. unfold lookup_value.
  destruct (fn_hashtable_lookup m h bs K Hinv) as (b & es & Hb & Hes & ->).
  cbn [mbind option_bind]. do 2 f_equal.
  destruct (first_match K es) as [e|] eqn:Hfm.
  - apply first_match_elem in Hfm as [Hin Hk]. symmetry.
    apply first_match_unique; [done | by eapply elem_of_bucket_concat | done |].
    intros e' _ Hk'. apply (muse_equal_trans _ K); [done | by rewrite muse_equal_sym].
  - destruct (first_match K (concat bs)) as [e|] eqn:Hfm'; [| done].
    apply first_match_elem in Hfm' as [Hin Hk].
    destruct (elem_of_concat_bucket bs e Hin) as (i & es' & Hi & He).
    pose proof (Hpl i es' e Hi He) as Hbi.
    rewrite (muse_hash_equal _ _ Hk), Hb in Hbi. injection Hbi as Hbi.
    apply Nat2Z.inj in Hbi. subst i. rewrite Hes in Hi. injection Hi as <-.
    by rewrite (first_match_None_elem K es e Hfm He) in Hk.
Qed.

(** Storing a value in a table whose pairs are in the buckets of their
    keys and whose keys are unique: what the table and the heap are
    afterwards. *)
Lemma put_spec (m : heap) h bs K V :
  table_inv m h bs -> placed (bucket_count h) bs -> keys_unique (concat bs) ->
  count h < 2 * bucket_count h -> room_to_grow h -> V <> MUSE_NIL ->
  exists (m' : heap) h' bs',
    fn_hashtable m h K (Some V) = Some (m', h', V) /\
    table_inv m' h' bs' /\ placed (bucket_count h') bs' /\ keys_unique (concat bs') /\
    (count h' < 2 * bucket_count h' /\ count h' + 1 < int_half) /\
    count h <= count h' <= count h + 1 /\
    bucket_count h <= bucket_count h' <= Z.max (bucket_count h) (count h + 2) /\
    (forall a, is_Some (m !! a) -> a ∉ cells_of (concat bs) -> m' !! a = m !! a) /\
    (forall a, a ∈ cells_of (concat bs') -> a ∈ cells_of (concat bs) \/ m !! a = None) /\
    (forall K', lookup_value m' h' K' =
                if muse_equal K' K then Some V else lookup_value m h K').
Proof.
  intros Hinv Hpl Huniq Hload [Hcnt Hdbl] HV.
  destruct (fn_hashtable_lookup m h bs K Hinv) as (b & es & Hb & Hes & _).
  destruct (first_match K es) as [e|] eqn:Hfm.
  - destruct (fn_hashtable_update m h bs K V b es e Hinv HV Hb Hes Hfm) as [Hrun Hinv'].
    destruct (update_keeps_keys _ h bs b es K V Hinv' Hes Hpl Huniq) as [Hpl' Huniq'].
    eexists _, h, _. split; [done |]. split; [done |]. split; [done |]. split; [done |].
    split; [unfold int_half in *; lia |]. split; [lia |]. split; [lia |].
    split; [| split].
    + intros a _ Ha. apply lookup_insert_ne. intros <-. apply Ha.
      apply (cells_of_bucket_sub bs b es _ Hes). apply elem_of_cells_of.
      exists e. split; [by apply (first_match_elem K) | by right].
    + intros a Ha. left. apply elem_of_cells_of in Ha as (e0 & He0 & Ha).
      apply (elem_of_concat_insert bs b es _ e0 Hes) in He0 as [He0 | He0].
      * apply (cells_of_bucket_sub bs b es _ Hes).
        rewrite <- (cells_of_set_first K V es). apply elem_of_cells_of. eauto.
      * apply elem_of_cells_of. eauto.
    + intros K'. unfold lookup_value at 1.
      destruct (fn_hashtable_lookup _ h _ K' Hinv') as (b' & es' & Hb' & Hes' & ->).
      cbn [mbind option_bind].
      destruct (muse_equal K' K) eqn:Heq.
      * rewrite (muse_hash_equal _ _ Heq), Hb in Hb'. injection Hb' as Hb'.
        apply Nat2Z.inj in Hb'. subst b'.
        rewrite list_lookup_insert_eq in Hes' by (by eapply lookup_lt_Some).
        injection Hes' as <-.
        rewrite (first_match_equiv K K') by done.
        by rewrite (first_match_set_first K V es e Hfm).
      * unfold lookup_value.
        destruct (fn_hashtable_lookup m h bs K' Hinv) as (b2 & es2 & Hb2 & Hes2 & ->).
        cbn [mbind option_bind]. rewrite Hb2 in Hb'. injection Hb' as Hb'.
        apply Nat2Z.inj in Hb'. subst b2. f_equal.
        destruct (decide (b' = b)) as [-> | Hne].
        -- rewrite list_lookup_insert_eq in Hes' by (by eapply lookup_lt_Some).
           injection Hes' as <-. rewrite Hes in Hes2. injection Hes2 as <-.
           pose proof (first_match_set_first_other K K' V es Heq) as Hother.
           destruct (first_match K' (set_first K V es)), (first_match K' es);
             simpl in *; congruence.
        -- rewrite list_lookup_insert_ne in Hes' by done. congruence.
  - destruct (fn_hashtable_insert m h bs K V b es Hinv HV Hcnt Hdbl Hb Hes Hfm)
      as (m' & h' & bs' & b' & es' & e & Hrun & Hinv' & _ & _ & Hk & Hv & Hperm & Hcnt'
          & Hbc' & Hce & Hpe & Hframe & Hpl').
    assert (keys_unique (concat bs')) as Huniq'.
    { subst K. by eapply (insert_keeps_keys (bucket_count h) bs b es e). }
    exists m', h', bs'. split; [done |]. split; [done |]. split; [by apply Hpl' |].
    split; [done |].
    pose proof (inv_bucket_count _ _ _ Hinv) as Hpos.
    split.
    { rewrite Hcnt', Hbc'. unfold int_half in *. case_decide; lia. }
    split; [lia |]. split; [rewrite Hbc'; case_decide; lia |].
    split; [| split].
    + intros a [x Hx] Ha. apply Hframe; [by apply elem_of_dom_2 in Hx | done].
    + intros a Ha. apply elem_of_cells_of in Ha as (e0 & He0 & Ha).
      rewrite Hperm in He0. apply elem_of_cons in He0 as [-> | He0].
      * right. apply not_elem_of_dom. by destruct Ha as [-> | ->].
      * left. apply elem_of_cells_of. eauto.
    + intros K'.
      rewrite (lookup_value_concat m' h' bs' K' Hinv' (Hpl' Hpl) Huniq').
      rewrite (lookup_value_concat m h bs K' Hinv Hpl Huniq).
      rewrite (first_match_perm K' _ _ Hperm Huniq'). cbn [first_match].
      rewrite Hk, (muse_equal_sym K K'). destruct (muse_equal K' K); [| done].
      simpl. by rewrite Hv.
Qed.

(** On a table that was made empty and changed by calls only, storing a
    value under [K] makes every key equal to [K] read as that value and
    leaves the value of every other key as it was, also when the table is
    rehashed on the way. *)
Theorem grown_table_put (m : heap) h K V :
  grown_inv m h -> room_to_grow h -> V <> MUSE_NIL ->
  exists (m' : heap) h',
    fn_hashtable m h K (Some V) = Some (m', h', V) /\
    grown_inv m' h' /\
    forall K', lookup_value m' h' K' =
               if muse_equal K' K then Some V else lookup_value m h K'.
Proof.
  intros (bs & Hinv & Hpl & Huniq & Hload & _) Hroom HV.
  destruct (put_spec m h bs K V Hinv Hpl Huniq Hload Hroom HV)
    as (m' & h' & bs' & Hrun & Hinv' & Hpl' & Huniq' & [Hload' Hcnt'] & _ & _ & _ & _ & Hlook).
  exists m', h'. split; [done |]. split; [by exists bs' |]. done.
Qed.

(** On such a table, storing NIL under [K] makes every key equal to [K]
    read as NIL and leaves the value of every other key as it was. *)
Theorem grown_table_delete (m : heap) h K :
  grown_inv m h ->
  exists (m' : heap) h',
    fn_hashtable m h K (Some MUSE_NIL) = Some (m', h', MUSE_NIL) /\
    grown_inv m' h' /\
    forall K', lookup_value m' h' K' =
               if muse_equal K' K then Some MUSE_NIL else lookup_value m h K'.
Proof.
  intros Hgrown.
  pose proof Hgrown as (bs & Hinv & Hpl & Huniq & Hload & Hcnt).
  destruct (fn_hashtable_lookup m h bs K Hinv) as (b & es & Hb & Hes & _).
  assert (forall (m' : heap) h', fn_hashtable m h K (Some MUSE_NIL) = Some (m', h', MUSE_NIL) ->
            grown_inv m' h') as Hkeep.
  { intros m' h' Hrun. by eapply fn_hashtable_grown_inv. }
  assert (forall K', muse_equal K' K = true ->
            bucket_for_hash (muse_hash K') (bucket_count h) = Some (Z.of_nat b)) as Hsame.
  { intros K' Heq. by rewrite (muse_hash_equal _ _ Heq). }
  destruct (first_match K es) as [e|] eqn:Hfm.
  - destruct (fn_hashtable_delete m h bs K b es e Hinv ltac:(lia) Hb Hes Hfm)
      as (m' & h' & Hrun & Hinv' & Hbc' & _).
    exists m', h'. split; [done |]. split; [by eapply Hkeep |].
    intros K'.
    assert (<[b := drop_first K es]> bs !! b = Some (drop_first K es)) as Hes'.
    { apply list_lookup_insert_eq. by eapply lookup_lt_Some. }
    destruct (muse_equal K' K) eqn:Heq.
    + unfold lookup_value.
      rewrite (lookup_after m' h' _ K' b (drop_first K es) Hinv')
        by (rewrite ?Hbc'; auto).
      cbn [mbind option_bind]. rewrite (first_match_equiv K K') by done.
      rewrite first_match_drop_first; [done |].
      apply key_count_unique; [| apply (table_bucket_nodup m h bs b es Hinv Hes)].
      intros e1 e2 H1 H2. apply Huniq; by apply (elem_of_bucket_concat bs b es).
    + unfold lookup_value.
      destruct (fn_hashtable_lookup m h bs K' Hinv) as (b2 & es2 & Hb2 & Hes2 & ->).
      cbn [mbind option_bind].
      destruct (decide (b2 = b)) as [-> | Hne].
      * rewrite Hes in Hes2. injection Hes2 as <-.
        rewrite (lookup_after m' h' _ K' b (drop_first K es) Hinv')
          by (rewrite ?Hbc'; auto).
        cbn [mbind option_bind]. by rewrite first_match_drop_first_other.
      * rewrite (lookup_after m' h' _ K' b2 es2 Hinv'); [done | by rewrite Hbc' |].
        by rewrite list_lookup_insert_ne.
  - exists m, h. split; [by eapply fn_hashtable_delete_absent |].
    split; [done |]. intros K'.
    destruct (muse_equal K' K) eqn:Heq; [| done].
    unfold lookup_value.
    rewrite (lookup_after m h bs K' b es Hinv (Hsame K' Heq) Hes).
    cbn [mbind option_bind]. by rewrite (first_match_equiv K K'), Hfm.
Qed.

(** *** The iterator

    [hashtable_iterator]: the callback gets the context and a value and
    says whether to go on; the result is the key of the pair where it
    stopped, or NIL. *)

Section WithCallback.

Context {C : Type}.
Variable callback : C -> muse_cell -> bool * C.

(** The inner [while ( alist )] loop; [None] inside is "not stopped". *)
Fixpoint iterator_chain (fuel : nat) (m : heap) (alist : muse_cell) (context : C)
  : option (option muse_cell * C) :=
  match fuel with
  | O => None
  | S fuel' =>
    if decide (alist = MUSE_NIL) then Some (None, context)
    else
      kv ← _head m alist;
      v ← _tail m kv;
      let '(cont, context') := callback context v in
      if cont then next ← _tail m alist; iterator_chain fuel' m next context'
      else k ← _head m kv; Some (Some k, context')
  end.

(** The outer [for] loop over the buckets [b, b+1, ...]. *)
Fixpoint iterator_buckets (n : nat) (b : Z) (m : heap) (bk : list muse_cell) (context : C)
  : option (option muse_cell * C) :=
  match n with
  | O => Some (None, context)
  | S n' =>
    alist ← arr_get bk b;
    '(stopped, context') ← iterator_chain (walk_fuel m) m alist context;
    match stopped with
    | Some k => Some (Some k, context')
    | None => iterator_buckets n' (b + 1) m bk context'
    end
  end.

Definition hashtable_iterator (m : heap) (self : hashtable_t) (context : C)
  : option (muse_cell * C) :=
  '(stopped, context') ←
    iterator_buckets (Z.to_nat (bucket_count self)) 0 m (buckets self) context;
  Some (default MUSE_NIL stopped, context').

End WithCallback.

Section IteratorFacts.

Context {C : Type}.
(** A callback that decides to go on from the value alone ([go_on]) and
    updates its context with [visit]. *)
Variable go_on : muse_cell -> bool.
Variable visit : C -> muse_cell -> C.

(** What the iterator has done when it went through the pairs [es]. *)
Definition iterated (es : list entry) (context : C) : option muse_cell * C :=
  match list_find (fun e => go_on (e_val e) = false) es with
  | Some (i, e) => (Some (e_key e), foldl (fun c e => visit c (e_val e)) context (take (S i) es))
  | None => (None, foldl (fun c e => visit c (e_val e)) context es)
  end.

Lemma iterated_app es1 es2 context :
  iterated (es1 ++ es2) context =
    match iterated es1 context with
    | (Some k, context') => (Some k, context')
    | (None, context') => iterated es2 context'
    end.
Proof.
  unfold iterated.
  destruct (list_find (fun e => go_on (e_val e) = false) es1) as [[i e]|] eqn:Hfind.
  - rewrite (list_find_app_l _ _ _ _ _ Hfind).
    apply list_find_Some in Hfind as (Hi & _). apply lookup_lt_Some in Hi.
    by rewrite take_app_le by lia.
  - rewrite (list_find_app_r _ _ _ Hfind).
    destruct (list_find (fun e => go_on (e_val e) = false) es2) as [[i e]|]; simpl.
    + replace (S (i + length es1)) with (length es1 + S i)%nat by lia.
      by rewrite take_app_add', foldl_app.
    + by rewrite foldl_app.
Qed.

Lemma iterator_chain_spec (m : heap) es : forall fuel c context,
  chain m c es -> (length es < fuel)%nat ->
  iterator_chain (fun c x => (go_on x, visit c x)) fuel m c context
    = Some (iterated es context).
Proof.
  induction es as [|e es IH]; intros [|fuel] c context Hch Hfuel; simpl in Hfuel; try lia.
  - simpl in Hch. subst c. cbn [iterator_chain]. by rewrite decide_True.
  - destruct Hch as (-> & Hnil & next & Hc & Hp & Hrest).
    cbn [iterator_chain]. rewrite decide_False by done.
    unfold _head, _tail. rewrite Hc. cbn [fmap option_fmap option_map mbind option_bind head].
    rewrite Hp. cbn [fmap option_fmap option_map mbind option_bind tail head].
    change (e :: es) with ([e] ++ es). rewrite iterated_app.
    unfold iterated at 1. cbn [list_find].
    destruct (go_on (e_val e)) eqn:Hgo.
    + rewrite decide_False by done. by rewrite (IH fuel next _ Hrest) by lia.
    + rewrite decide_True by done. done.
Qed.

Lemma iterator_buckets_spec (m : heap) bk : forall cs ess (i : nat) context,
  drop i bk = cs -> Forall2 (chain m) cs ess ->
  NoDup (cells_of (concat ess)) ->
  iterator_buckets (fun c x => (go_on x, visit c x)) (length cs) (Z.of_nat i) m bk context
    = Some (iterated (concat ess) context).
Proof.
  intros cs ess i context Hdrop Hch. revert i context Hdrop.
  induction Hch as [|c es cs ess Hc Hch IH]; intros i context Hdrop Hnd; [done |].
  assert (bk !! i = Some c) as Hi.
  { rewrite <- (Nat.add_0_r i), <- lookup_drop, Hdrop. done. }
  assert (drop (S i) bk = cs) as Hdrop'.
  { rewrite (drop_S _ _ _ Hi) in Hdrop. by injection Hdrop. }
  cbn [concat] in Hnd. rewrite cells_of_app in Hnd.
  apply NoDup_app in Hnd as (Hnd1 & _ & Hnd2).
  cbn [length iterator_buckets concat]. rewrite arr_get_nat, Hi. cbn [mbind option_bind].
  rewrite (iterator_chain_spec m es (walk_fuel m) c context Hc)
    by (by eapply chain_length_fuel).
  cbn [mbind option_bind]. rewrite iterated_app.
  destruct (iterated es context) as [[k|] context']; [done |].
  replace (Z.of_nat i + 1) with (Z.of_nat (S i)) by lia.
  by apply IH.
Qed.

(** [hashtable_iterator] visits the values bucket after bucket, each
    bucket from its front, and stops at the first pair on whose value the
    callback says stop: it returns the key of that pair, or NIL when the
    callback never says stop, in which case every value has been visited. *)
Theorem hashtable_iterator_first_stop (m : heap) h bs (context : C) :
  table_inv m h bs ->
  hashtable_iterator (fun c x => (go_on x, visit c x)) m h context
    = Some (match list_find (fun e => go_on (e_val e) = false) (concat bs) with
            | Some (i, e) =>
              (e_key e, foldl (fun c e => visit c (e_val e)) context (take (S i) (concat bs)))
            | None => (MUSE_NIL, foldl (fun c e => visit c (e_val e)) context (concat bs))
            end).
Proof.
  intros Hinv. unfold hashtable_iterator.
  rewrite <- (inv_length _ _ _ Hinv), Nat2Z.id.
  pose proof (iterator_buckets_spec m (buckets h) (buckets h) bs 0 context eq_refl
                (inv_chains _ _ _ Hinv) (inv_nodup _ _ _ Hinv)) as Hloop.
  change (Z.of_nat 0) with 0 in Hloop. rewrite Hloop.
  cbn [mbind option_bind]. unfold iterated.
  by destruct (list_find _ (concat bs)) as [[i e]|].
Qed.

End IteratorFacts.

(** *** The monad view: mapping

    [hashtable_map] calls back into the evaluator ([_apply]), which is not
    part of this file: the applied function is taken to compute its result
    from its argument. *)

(** Modelled from the spec: [_seth], which overwrites the head of a pair of
    the cell heap in place, as [_sett] does for the tail. *)
Definition _seth (m : heap) (c v : muse_cell) : option heap :=
  x ← m !! c; Some (<[c := Cons v (tail x)]> m).

(** [muse_mk_hashtable]: [fn_mk_hashtable] with the length as its
    argument. *)
Definition muse_mk_hashtable (len : Z) : hashtable_t := hashtable_init (Some len).

Lemma bucket_in_concat (bs : list (list entry)) (i : nat) es e :
  bs !! i = Some es -> e ∈ es -> e ∈ concat bs.
Proof using.
  intros Hi He. apply list_elem_of_split_length in Hi as (bs1 & bs2 & -> & _).
  rewrite concat_app, concat_cons. apply elem_of_app. right. apply elem_of_app. by left.
Qed.

Lemma mk_hashtable_empty (m : heap) (n : Z) :
  0 < n < int_half ->
  exists rbs, table_inv m (muse_mk_hashtable n) rbs /\ concat rbs = [] /\
              bucket_count (muse_mk_hashtable n) = n.
Proof using.
  intros Hn. exists (replicate (Z.to_nat n) []).
  destruct (table_inv_empty m n Hn) as [H1 H2 H3 H4 H5].
  assert (to_int n = n) as Hid by (apply to_int_id; unfold is_int; lia).
  unfold muse_mk_hashtable, hashtable_init. rewrite Hid.
  split; [| split; [apply concat_replicate_nil | done]].
  constructor; try done. simpl. by rewrite concat_replicate_nil.
Qed.

Section WithApply.

(** [_apply( fn, (x), MUSE_TRUE )] for a function cell [fn]. *)
Variable apply1 : muse_cell -> muse_cell -> muse_cell.

(** The inner [while ( alist )] loop of [hashtable_map]; [args] is the
    one-element argument list that is reused for every call. *)
Fixpoint map_chain (fuel : nat) (m : heap) (alist fn args : muse_cell) (result : hashtable_t)
  : option (heap * hashtable_t) :=
  match fuel with
  | O => None
  | S fuel' =>
    if decide (alist = MUSE_NIL) then Some (m, result)
    else
      kv ← _head m alist;
      v ← _tail m kv;
      m1 ← _seth m args v;
      k ← _head m1 kv;
      '(m2, result', _) ← hashtable_add m1 result k (apply1 fn v) None;
      next ← _tail m2 alist;
      map_chain fuel' m2 next fn args result'
  end.

Fixpoint map_buckets (n : nat) (b : Z) (m : heap) (bk : list muse_cell) (fn args : muse_cell)
    (result : hashtable_t) : option (heap * hashtable_t) :=
  match n with
  | O => Some (m, result)
  | S n' =>
    alist ← arr_get bk b;
    '(m', result') ← map_chain (walk_fuel m) m alist fn args result;
    map_buckets n' (b + 1) m' bk fn args result'
  end.

Definition hashtable_map (m : heap) (h : hashtable_t) (fn : muse_cell)
  : option (heap * hashtable_t) :=
  let result := muse_mk_hashtable (count h) in
  let '(m1, args) := _cons m MUSE_NIL MUSE_NIL in
  map_buckets (Z.to_nat (bucket_count h)) 0 m1 (buckets h) fn args result.

(** The key and the value of a stored pair, and the pair that the map
    makes of it. *)
Definition kv_of (e : entry) : muse_cell * muse_cell := (e_key e, e_val e).
Definition mapped (fn : muse_cell) (e : entry) : muse_cell * muse_cell :=
  (e_key e, apply1 fn (e_val e)).

(** What holds of the heap [m] and the result table [r] after the pairs
    [seen] of the source, whose cells are in [m0], have been mapped. *)
Definition map_inv (m0 : heap) (args fn : muse_cell) (N : Z)
    (m : heap) (r : hashtable_t) (rbs : list (list entry)) (seen : list entry) : Prop :=
  m0 ⊆ m /\ m0 !! args = None /\ is_Some (m !! args) /\
  table_inv m r rbs /\ placed N rbs /\ bucket_count r = N /\
  count r = Z.of_nat (length seen) /\
  (forall a, a ∈ cells_of (concat rbs) -> m0 !! a = None /\ a <> args) /\
  kv_of <$> concat rbs ≡ₚ mapped fn <$> seen.

Lemma map_chain_spec (m0 : heap) (args fn : muse_cell) (N : Z) es :
  forall fuel (m : heap) c r rbs seen,
  0 < N -> 2 * N < int_half ->
  chain m0 c es -> (length es < fuel)%nat ->
  map_inv m0 args fn N m r rbs seen ->
  Z.of_nat (length seen) + Z.of_nat (length es) <= N ->
  (forall e, e ∈ es -> apply1 fn (e_val e) <> MUSE_NIL) ->
  exists (m' : heap) r' rbs',
    map_chain fuel m c fn args r = Some (m', r') /\
    map_inv m0 args fn N m' r' rbs' (seen ++ es).
Proof.
  induction es as [|e es IH]; intros [|fuel] m c r rbs seen HN HN2 Hch Hfuel Hinv Hroom Hfn;
    simpl in Hfuel; try lia.
  - simpl in Hch. subst c. exists m, r, rbs. cbn [map_chain].
    rewrite decide_True by done. by rewrite app_nil_r.
  - destruct Hch as (-> & Hnil & next & Hc & Hp & Hrest).
    destruct Hinv as (Hsub & Hargs0 & [x Hx] & Htab & Hpl & Hbc & Hcnt & Hcells & Hperm).
    simpl in Hroom.
    pose proof (lookup_weaken _ _ _ _ Hc Hsub) as Hc1.
    pose proof (lookup_weaken _ _ _ _ Hp Hsub) as Hp1.
    cbn [map_chain]. rewrite decide_False by done.
    assert (_head m (e_cell e) = Some (e_pair e)) as -> by (unfold _head; by rewrite Hc1).
    cbn [mbind option_bind].
    assert (_tail m (e_pair e) = Some (e_val e)) as -> by (unfold _tail; by rewrite Hp1).
    cbn [mbind option_bind].
    set (m1 := <[args := Cons (e_val e) (tail x)]> m).
    assert (_seth m args (e_val e) = Some m1) as -> by (unfold _seth; by rewrite Hx).
    cbn [mbind option_bind].
    assert (m0 ⊆ m1) as Hsub1 by (by apply insert_subseteq_r).
    pose proof (lookup_weaken _ _ _ _ Hp Hsub1) as Hp2.
    assert (_head m1 (e_pair e) = Some (e_key e)) as -> by (unfold _head; by rewrite Hp2).
    cbn [mbind option_bind].
    assert (table_inv m1 r rbs) as Htab1.
    { destruct Htab as [H1 H2 H3 H4 H5]. split; try done.
      apply (chains_frame m m1 _ _ H3). intros a Ha.
      apply lookup_insert_ne. intros <-. by destruct (Hcells _ Ha). }
    assert (apply1 fn (e_val e) <> MUSE_NIL) as Hfv by (apply Hfn; by left).
    destruct (hashtable_add_spec m1 r rbs (e_key e) (apply1 fn (e_val e)) (muse_hash (e_key e))
                Htab1 Hfv ltac:(lia) ltac:(lia))
      as (m2 & r' & rbs' & b & es0 & e' & Hadd & Htab2 & _ & _ & Hk' & Hv' & Hperm' & Hcnt'
          & Hbc' & Hce & Hpe & Hframe & Hpl').
    change (hashtable_add m1 r (e_key e) (apply1 fn (e_val e)) None)
      with (hashtable_add m1 r (e_key e) (apply1 fn (e_val e)) (Some (muse_hash (e_key e)))).
    rewrite Hadd. cbn [mbind option_bind].
    rewrite decide_False in Hbc' by lia.
    assert (forall a y, m1 !! a = Some y -> a ∉ cells_of (concat rbs) -> m2 !! a = Some y)
      as Hkeep.
    { intros a y Hay Ha. rewrite Hframe; [done | by apply elem_of_dom_2 in Hay | done]. }
    assert (forall a, m0 !! a <> None -> a ∉ cells_of (concat rbs)) as Hold.
    { intros a Ha Hin. by destruct (Hcells _ Hin). }
    assert (m0 ⊆ m2) as Hsub2.
    { apply map_subseteq_spec. intros a y Hay. apply Hkeep.
      - by apply (lookup_weaken m0 m1).
      - apply Hold. by rewrite Hay. }
    pose proof (lookup_weaken _ _ _ _ Hc Hsub2) as Hc2.
    assert (_tail m2 (e_cell e) = Some next) as -> by (unfold _tail; by rewrite Hc2).
    cbn [mbind option_bind].
    assert (map_inv m0 args fn N m2 r' rbs' (seen ++ [e])) as Hinv2.
    { split; [done |]. split; [done |]. split.
      { exists (Cons (e_val e) (tail x)). apply Hkeep; [apply lookup_insert_eq |].
        intros Hin. by destruct (Hcells _ Hin). }
      split; [done |].
      split; [replace N with (bucket_count r') by lia; apply Hpl'; [done | by rewrite Hbc] |].
      split; [lia |]. split; [rewrite length_app; simpl; lia |]. split.
      - intros a Ha. apply elem_of_cells_of in Ha as (e0 & He0 & Ha).
        rewrite Hperm' in He0. apply elem_of_cons in He0 as [-> | He0].
        + assert (a ∉ dom m1) as Hout by (destruct Ha as [-> | ->]; done).
          split.
          * apply not_elem_of_dom in Hout. by eapply lookup_weaken_None.
          * intros ->. apply Hout. apply elem_of_dom. exists (Cons (e_val e) (tail x)).
            apply lookup_insert_eq.
        + apply Hcells. apply elem_of_cells_of. eauto.
      - rewrite Hperm', fmap_cons, fmap_app, Hperm. simpl.
        rewrite <- Permutation_cons_append. unfold kv_of, mapped. by rewrite Hk', Hv'. }
    destruct (IH fuel m2 next r' rbs' (seen ++ [e]) HN HN2 Hrest ltac:(lia) Hinv2)
      as (m' & r'' & rbs'' & Hrun & Hinv').
    { rewrite length_app. simpl. lia. }
    { intros e0 He0. apply Hfn. by right. }
    exists m', r'', rbs''. split; [done |]. by rewrite <- app_assoc in Hinv'.
Qed.

Lemma map_buckets_spec (m0 : heap) (args fn : muse_cell) (N : Z) bk :
  forall cs ess (i : nat) (m : heap) r rbs seen,
  0 < N -> 2 * N < int_half ->
  drop i bk = cs -> Forall2 (chain m0) cs ess -> NoDup (cells_of (concat ess)) ->
  map_inv m0 args fn N m r rbs seen ->
  Z.of_nat (length seen) + Z.of_nat (length (concat ess)) <= N ->
  (forall e, e ∈ concat ess -> apply1 fn (e_val e) <> MUSE_NIL) ->
  exists (m' : heap) r' rbs',
    map_buckets (length cs) (Z.of_nat i) m bk fn args r = Some (m', r') /\
    map_inv m0 args fn N m' r' rbs' (seen ++ concat ess).
Proof.
  intros cs ess i m r rbs seen HN HN2 Hdrop Hch. revert i m r rbs seen Hdrop.
  induction Hch as [|c es cs ess Hc Hch IH]; intros i m r rbs seen Hdrop Hnd Hinv Hroom Hfn.
  - exists m, r, rbs. split; [done |]. by rewrite app_nil_r.
  - assert (bk !! i = Some c) as Hi.
    { rewrite <- (Nat.add_0_r i), <- lookup_drop, Hdrop. done. }
    assert (drop (S i) bk = cs) as Hdrop'.
    { rewrite (drop_S _ _ _ Hi) in Hdrop. by injection Hdrop. }
    cbn [concat] in *. rewrite cells_of_app in Hnd.
    apply NoDup_app in Hnd as (Hnd1 & _ & Hnd2). rewrite length_app in Hroom.
    cbn [length map_buckets]. rewrite arr_get_nat, Hi. cbn [mbind option_bind].
    assert (length es < walk_fuel m)%nat as Hfuel.
    { pose proof (chain_length_fuel m0 c es Hc Hnd1) as Hlt.
      destruct Hinv as (Hsub & _). apply map_subseteq_size in Hsub.
      unfold walk_fuel in *. lia. }
    destruct (map_chain_spec m0 args fn N es (walk_fuel m) m c r rbs seen HN HN2 Hc Hfuel Hinv)
      as (m1 & r1 & rbs1 & Hrun1 & Hinv1); [lia | |].
    { intros e He. apply Hfn. apply elem_of_app. by left. }
    rewrite Hrun1. cbn [mbind option_bind].
    replace (Z.of_nat i + 1) with (Z.of_nat (S i)) by lia.
    destruct (IH (S i) m1 r1 rbs1 (seen ++ es) Hdrop' Hnd2 Hinv1)
      as (m' & r' & rbs' & Hrun & Hinv').
    { rewrite length_app. lia. }
    { intros e He. apply Hfn. apply elem_of_app. by right. }
    exists m', r', rbs'. split; [done |]. by rewrite <- app_assoc in Hinv'.
Qed.

(** [hashtable_map] of a table that is not empty, with a function that
    never returns NIL, returns a new table with as many buckets as the
    source has pairs and with the same size: it holds, for every pair of
    the source, a new pair with the same key and the function's value, in
    the bucket of its key.  The source is not changed. *)
Theorem hashtable_map_pairs (m : heap) h bs (fn : muse_cell) :
  table_inv m h bs -> 0 < count h -> 2 * count h < int_half ->
  (forall e, e ∈ concat bs -> apply1 fn (e_val e) <> MUSE_NIL) ->
  exists (m' : heap) h' bs',
    hashtable_map m h fn = Some (m', h') /\
    table_inv m' h' bs' /\ placed (bucket_count h') bs' /\
    bucket_count h' = count h /\ count h' = count h /\
    kv_of <$> concat bs' ≡ₚ mapped fn <$> concat bs /\
    m ⊆ m' /\ table_inv m' h bs.
Proof.
  intros Hinv Hpos Hdbl Hfn. unfold hashtable_map, muse_mk_hashtable, _cons.
  set (args := fresh_cell m). set (m1 := <[args := Cons MUSE_NIL MUSE_NIL]> m).
  pose proof (fresh_cell_None m) as Hargs. fold args in Hargs.
  pose proof (inv_count _ _ _ Hinv) as Hc.
  destruct (mk_hashtable_empty m1 (count h)) as (rbs & Hrinv & Hnil & Hbc);
    [unfold int_half in *; lia |].
  fold (muse_mk_hashtable (count h)).
  assert (map_inv m args fn (count h) m1 (muse_mk_hashtable (count h)) rbs []) as Hinv0.
  { split; [by apply insert_subseteq |]. split; [done |].
    split; [exists (Cons MUSE_NIL MUSE_NIL); apply lookup_insert_eq |].
    split; [done |]. split.
    { intros i es e Hi He. pose proof (bucket_in_concat rbs i es e Hi He) as Hin.
      rewrite Hnil in Hin. by apply elem_of_nil in Hin. }
    split; [done |]. split; [done |].
    rewrite Hnil. split; [| done]. intros a Ha. by apply elem_of_nil in Ha. }
  destruct (map_buckets_spec m args fn (count h) (buckets h) (buckets h) bs 0 m1 _ rbs []
              Hpos Hdbl eq_refl (inv_chains _ _ _ Hinv) (inv_nodup _ _ _ Hinv) Hinv0)
    as (m' & h' & bs' & Hrun & Hsub & _ & _ & Htab & Hpl & Hbc' & Hcnt' & _ & Hperm).
  { simpl. lia. }
  { done. }
  exists m', h', bs'. rewrite <- (inv_length _ _ _ Hinv), Nat2Z.id.
  change (Z.of_nat 0) with 0 in Hrun. split; [done |]. split; [done |].
  split; [by rewrite Hbc' |]. split; [done |]. split; [simpl in Hcnt'; lia |].
  split; [done |]. split; [done |].
  destruct Hinv as [H1 H2 H3 H4 H5]. split; try done.
  apply (chains_frame m m' _ _ H3). intros a Ha.
  destruct (chains_cells_dom m _ _ a H3 Ha) as [y Hy].
  rewrite Hy. by apply (lookup_weaken m m').
Qed.

Lemma map_buckets_empty (fn args : muse_cell) (m : heap) r bk : forall (n : nat) (i : nat),
  (forall c, c ∈ bk -> c = MUSE_NIL) -> (i + n <= length bk)%nat ->
  map_buckets n (Z.of_nat i) m bk fn args r = Some (m, r).
Proof.
  induction n as [|n IH]; intros i Hnil Hlen; [done |].
  cbn [map_buckets]. rewrite arr_get_nat.
  destruct (lookup_lt_is_Some_2 bk i) as [c Hc]; [lia |].
  rewrite Hc. cbn [mbind option_bind].
  rewrite (Hnil c) by (by eapply list_elem_of_lookup_2).
  unfold walk_fuel. cbn [map_chain]. rewrite decide_True by done.
  cbn [mbind option_bind]. replace (Z.of_nat i + 1) with (Z.of_nat (S i)) by lia.
  apply IH; [done | lia].
Qed.

(** [hashtable_map] of an empty table returns a table without buckets
    ([muse_mk_hashtable] is asked for a table of size 0), and every call of
    that table is undefined. *)
Theorem hashtable_map_empty (m : heap) h bs (fn : muse_cell) :
  table_inv m h bs -> count h = 0 ->
  exists (m' : heap) h',
    hashtable_map m h fn = Some (m', h') /\
    bucket_count h' = 0 /\ buckets h' = [] /\
    forall (m'' : heap) K value_arg, fn_hashtable m'' h' K value_arg = None.
Proof.
  intros Hinv Hzero. unfold hashtable_map, muse_mk_hashtable, _cons. rewrite Hzero.
  pose proof (inv_count _ _ _ Hinv) as Hc. rewrite Hzero in Hc.
  assert (concat bs = []) as Hnil by (destruct (concat bs); [done | simpl in Hc; lia]).
  assert (forall c, c ∈ buckets h -> c = MUSE_NIL) as Hall.
  { intros c Hin. apply list_elem_of_lookup in Hin as [i Hi].
    destruct (Forall2_lookup_l _ _ _ _ _ (inv_chains _ _ _ Hinv) Hi) as (es & Hes & Hch).
    destruct es as [|e es]; [done |].
    assert (e ∈ concat bs) as He.
    { eapply bucket_in_concat; [done | by left]. }
    rewrite Hnil in He. by apply elem_of_nil in He. }
  eexists _, _. split.
  { apply (map_buckets_empty fn _ _ _ (buckets h) (Z.to_nat (bucket_count h)) 0 Hall).
    rewrite <- (inv_length _ _ _ Hinv). lia. }
  split; [done |]. split; [done |].
  intros m'' K value_arg. unfold fn_hashtable, hashtable_get, bucket_for_hash.
  change (bucket_count (hashtable_init (Some 0))) with 0. by rewrite decide_True.
Qed.

End WithApply.

(** *** The monad view: reducing *)

Section WithReduce.

(** [_apply( fn, (x y), MUSE_TRUE )] for a function cell [fn]. *)
Variable apply2 : muse_cell -> muse_cell -> muse_cell -> muse_cell.

(** The inner [while ( alist )] loop of [hashtable_reduce]; [arg1] and
    [arg2] are the two cells of the argument list, whose heads are
    overwritten before every call. *)
Fixpoint reduce_chain (fuel : nat) (m : heap) (alist reduction_fn arg1 arg2 result : muse_cell)
  : option (heap * muse_cell) :=
  match fuel with
  | O => None
  | S fuel' =>
    if decide (alist = MUSE_NIL) then Some (m, result)
    else
      m1 ← _seth m arg1 result;
      kv ← _head m1 alist;
      v ← _tail m1 kv;
      m2 ← _seth m1 arg2 v;
      next ← _tail m2 alist;
      reduce_chain fuel' m2 next reduction_fn arg1 arg2 (apply2 reduction_fn result v)
  end.

Fixpoint reduce_buckets (n : nat) (b : Z) (m : heap) (bk : list muse_cell)
    (reduction_fn arg1 arg2 result : muse_cell) : option (heap * muse_cell) :=
  match n with
  | O => Some (m, result)
  | S n' =>
    alist ← arr_get bk b;
    '(m', result') ← reduce_chain (walk_fuel m) m alist reduction_fn arg1 arg2 result;
    reduce_buckets n' (b + 1) m' bk reduction_fn arg1 arg2 result'
  end.

Definition hashtable_reduce (m : heap) (h : hashtable_t) (reduction_fn initial : muse_cell)
  : option (heap * muse_cell) :=
  let '(m1, arg2) := _cons m MUSE_NIL MUSE_NIL in
  let '(m2, args) := _cons m1 initial arg2 in
  reduce_buckets (Z.to_nat (bucket_count h)) 0 m2 (buckets h) reduction_fn args arg2 initial.

(** The heap [m] in the loop: the cells of [m0] as they were, and the two
    argument cells. *)
Definition reduce_inv (m0 : heap) (arg1 arg2 : muse_cell) (m : heap) : Prop :=
  m0 ⊆ m /\ m0 !! arg1 = None /\ m0 !! arg2 = None /\
  is_Some (m !! arg1) /\ is_Some (m !! arg2).

Lemma reduce_chain_spec (m0 : heap) (fn arg1 arg2 : muse_cell) es :
  forall fuel (m : heap) c result,
  chain m0 c es -> (length es < fuel)%nat -> reduce_inv m0 arg1 arg2 m ->
  exists m' : heap,
    reduce_chain fuel m c fn arg1 arg2 result
      = Some (m', foldl (apply2 fn) result (e_val <$> es)) /\
    reduce_inv m0 arg1 arg2 m'.
Proof.
  induction es as [|e es IH]; intros [|fuel] m c result Hch Hfuel Hinv;
    simpl in Hfuel; try lia.
  - simpl in Hch. subst c. exists m. cbn [reduce_chain]. by rewrite decide_True.
  - destruct Hch as (-> & Hnil & next & Hc & Hp & Hrest).
    destruct Hinv as (Hsub & H1 & H2 & [x1 Hx1] & [x2 Hx2]).
    cbn [reduce_chain]. rewrite decide_False by done.
    set (m1 := <[arg1 := Cons result (tail x1)]> m).
    assert (_seth m arg1 result = Some m1) as -> by (unfold _seth; by rewrite Hx1).
    cbn [mbind option_bind].
    assert (m0 ⊆ m1) as Hsub1 by (by apply insert_subseteq_r).
    assert (_head m1 (e_cell e) = Some (e_pair e)) as ->.
    { unfold _head. by rewrite (lookup_weaken _ _ _ _ Hc Hsub1). }
    cbn [mbind option_bind].
    assert (_tail m1 (e_pair e) = Some (e_val e)) as ->.
    { unfold _tail. by rewrite (lookup_weaken _ _ _ _ Hp Hsub1). }
    cbn [mbind option_bind].
    assert (exists y2, m1 !! arg2 = Some y2) as [y2 Hy2].
    { destruct (decide (arg2 = arg1)) as [-> | Hne].
      - eexists. apply lookup_insert_eq.
      - exists x2. unfold m1. by rewrite lookup_insert_ne. }
    set (m2 := <[arg2 := Cons (e_val e) (tail y2)]> m1).
    assert (_seth m1 arg2 (e_val e) = Some m2) as -> by (unfold _seth; by rewrite Hy2).
    cbn [mbind option_bind].
    assert (m0 ⊆ m2) as Hsub2 by (by apply insert_subseteq_r).
    assert (_tail m2 (e_cell e) = Some next) as ->.
    { unfold _tail. by rewrite (lookup_weaken _ _ _ _ Hc Hsub2). }
    cbn [mbind option_bind].
    destruct (IH fuel m2 next (apply2 fn result (e_val e)) Hrest ltac:(lia)) as (m' & Hrun & Hinv').
    { split; [done |]. split; [done |]. split; [done |]. split.
      - destruct (decide (arg1 = arg2)) as [-> | Hne].
        + eexists. apply lookup_insert_eq.
        + eexists. unfold m2. rewrite lookup_insert_ne by done. apply lookup_insert_eq.
      - eexists. apply lookup_insert_eq. }
    exists m'. split; [| done]. by rewrite Hrun.
Qed.

Lemma reduce_buckets_spec (m0 : heap) (fn arg1 arg2 : muse_cell) bk :
  forall cs ess (i : nat) (m : heap) result,
  drop i bk = cs -> Forall2 (chain m0) cs ess -> NoDup (cells_of (concat ess)) ->
  reduce_inv m0 arg1 arg2 m ->
  exists m' : heap,
    reduce_buckets (length cs) (Z.of_nat i) m bk fn arg1 arg2 result
      = Some (m', foldl (apply2 fn) result (e_val <$> concat ess)) /\
    reduce_inv m0 arg1 arg2 m'.
Proof.
  intros cs ess i m result Hdrop Hch. revert i m result Hdrop.
  induction Hch as [|c es cs ess Hc Hch IH]; intros i m result Hdrop Hnd Hinv.
  - by exists m.
  - assert (bk !! i = Some c) as Hi.
    { rewrite <- (Nat.add_0_r i), <- lookup_drop, Hdrop. done. }
    assert (drop (S i) bk = cs) as Hdrop'.
    { rewrite (drop_S _ _ _ Hi) in Hdrop. by injection Hdrop. }
    cbn [concat] in *. rewrite cells_of_app in Hnd.
    apply NoDup_app in Hnd as (Hnd1 & _ & Hnd2).
    cbn [length reduce_buckets]. rewrite arr_get_nat, Hi. cbn [mbind option_bind].
    assert (length es < walk_fuel m)%nat as Hfuel.
    { pose proof (chain_length_fuel m0 c es Hc Hnd1) as Hlt.
      destruct Hinv as (Hsub & _). apply map_subseteq_size in Hsub.
      unfold walk_fuel in *. lia. }
    destruct (reduce_chain_spec m0 fn arg1 arg2 es (walk_fuel m) m c result Hc Hfuel Hinv)
      as (m1 & Hrun1 & Hinv1).
    rewrite Hrun1. cbn [mbind option_bind].
    replace (Z.of_nat i + 1) with (Z.of_nat (S i)) by lia.
    destruct (IH (S i) m1 (foldl (apply2 fn) result (e_val <$> es)) Hdrop' Hnd2 Hinv1)
      as (m' & Hrun & Hinv').
    exists m'. split; [| done]. by rewrite Hrun, fmap_app, foldl_app.
Qed.

(** [hashtable_reduce] folds the values from the left, bucket after bucket
    and each bucket from its front, starting from the initial value: for an
    empty table the result is the initial value.  The table is not
    changed. *)
Theorem hashtable_reduce_foldl (m : heap) h bs (reduction_fn initial : muse_cell) :
  table_inv m h bs ->
  exists m' : heap,
    hashtable_reduce m h reduction_fn initial
      = Some (m', foldl (apply2 reduction_fn) initial (e_val <$> concat bs)) /\
    m ⊆ m' /\ table_inv m' h bs.
Proof.
  intros Hinv. unfold hashtable_reduce, _cons.
  set (arg2 := fresh_cell m). set (m1 := <[arg2 := Cons MUSE_NIL MUSE_NIL]> m).
  set (args := fresh_cell m1). set (m2 := <[args := Cons initial arg2]> m1).
  pose proof (fresh_cell_None m) as H2. fold arg2 in H2.
  pose proof (fresh_cell_None m1) as H1. fold args in H1.
  assert (m ⊆ m1) as Hsub1 by (by apply insert_subseteq).
  assert (reduce_inv m args arg2 m2) as Hinv0.
  { split; [transitivity m1; [done | by apply insert_subseteq] |].
    split; [by eapply lookup_weaken_None |]. split; [done |]. split.
    - eexists. apply lookup_insert_eq.
    - exists (Cons MUSE_NIL MUSE_NIL).
      unfold m2. rewrite lookup_insert_ne; [apply lookup_insert_eq |].
      intros Heq. rewrite Heq in H1. unfold m1 in H1. by rewrite lookup_insert_eq in H1. }
  destruct (reduce_buckets_spec m reduction_fn args arg2 (buckets h) (buckets h) bs 0 m2 initial
              eq_refl (inv_chains _ _ _ Hinv) (inv_nodup _ _ _ Hinv) Hinv0)
    as (m' & Hrun & Hsub & _).
  exists m'. rewrite <- (inv_length _ _ _ Hinv), Nat2Z.id.
  change (Z.of_nat 0) with 0 in Hrun. split; [done |]. split; [done |].
  destruct Hinv as [I1 I2 I3 I4 I5]. split; try done.
  apply (chains_frame m m' _ _ I3). intros a Ha.
  destruct (chains_cells_dom m _ _ a I3 Ha) as [y Hy].
  rewrite Hy. by apply (lookup_weaken m m').
Qed.

End WithReduce.

(** *** The monad view: joining *)

Section WithMerge.

(** [_apply( fn, (x y), MUSE_TRUE )] for a function cell [fn]. *)
Variable apply2 : muse_cell -> muse_cell -> muse_cell -> muse_cell.

(** [hashtable_merge_one]; with a reduction function the two-element
    argument list is allocated before the call. *)
Definition hashtable_merge_one (m : heap) (h1 : hashtable_t)
    (key new_value reduction_fn : muse_cell) : option (heap * hashtable_t) :=
  '(new_kv, hash) ← hashtable_get m h1 key;
  match new_kv with
  | Some p =>
    c ← load m (buckets h1) p;
    kv ← _head m c;
    if decide (reduction_fn <> MUSE_NIL) then
      old ← _tail m kv;
      let '(m1, rest) := _cons m new_value MUSE_NIL in
      let '(m2, args) := _cons m1 old rest in
      m3 ← _sett m2 kv (apply2 reduction_fn old new_value);
      Some (m3, h1)
    else
      m' ← _sett m kv new_value;
      Some (m', h1)
  | None =>
    '(m', h', _) ← hashtable_add m h1 key new_value (Some hash);
    Some (m', h')
  end.

(** [hashtable_merge]: the inner loop over a chain of [h2], and the outer
    loop over its buckets. *)
Fixpoint merge_chain (fuel : nat) (m : heap) (alist : muse_cell) (h1 : hashtable_t)
    (reduction_fn : muse_cell) : option (heap * hashtable_t) :=
  match fuel with
  | O => None
  | S fuel' =>
    if decide (alist = MUSE_NIL) then Some (m, h1)
    else
      kv ← _head m alist;
      key ← _head m kv;
      value ← _tail m kv;
      '(m', h1') ← hashtable_merge_one m h1 key value reduction_fn;
      next ← _tail m' alist;
      merge_chain fuel' m' next h1' reduction_fn
  end.

Fixpoint merge_buckets (n : nat) (b : Z) (m : heap) (bk : list muse_cell) (h1 : hashtable_t)
    (reduction_fn : muse_cell) : option (heap * hashtable_t) :=
  match n with
  | O => Some (m, h1)
  | S n' =>
    alist ← arr_get bk b;
    '(m', h1') ← merge_chain (walk_fuel m) m alist h1 reduction_fn;
    merge_buckets n' (b + 1) m' bk h1' reduction_fn
  end.

Definition hashtable_merge (m : heap) (h1 h2 : hashtable_t) (reduction_fn : muse_cell)
  : option (heap * hashtable_t) :=
  merge_buckets (Z.to_nat (bucket_count h2)) 0 m (buckets h2) h1 reduction_fn.

(** [hashtable_join]: the loop over the other objects; an object that is
    not a hashtable ([None]) is dereferenced as one. *)
Fixpoint join_objects (m : heap) (result : hashtable_t) (objlist : list (option hashtable_t))
    (reduction_fn : muse_cell) : option (heap * hashtable_t) :=
  match objlist with
  | [] => Some (m, result)
  | obj :: rest =>
    h2 ← obj;
    '(m', result') ← hashtable_merge m result h2 reduction_fn;
    join_objects m' result' rest reduction_fn
  end.

Definition hashtable_join (m : heap) (h1 : hashtable_t) (objlist : list (option hashtable_t))
    (reduction_fn : muse_cell) : option (heap * hashtable_t) :=
  let result := muse_mk_hashtable (count h1) in
  '(m1, result1) ← hashtable_merge m result h1 MUSE_NIL;
  join_objects m1 result1 objlist reduction_fn.

(** The value of the last of the pairs [es] whose key equals [K], and NIL
    when there is none. *)
Definition last_value (K : muse_cell) (es : list entry) : muse_cell :=
  from_option e_val MUSE_NIL (first_match K (reverse es)).

(** Without a reduction function, [hashtable_merge_one] of a value does
    what a call of the table with the key and the value does. *)
Lemma merge_one_put (m : heap) h K V :
  V <> MUSE_NIL ->
  hashtable_merge_one m h K V MUSE_NIL =
    '(m', h', _) ← fn_hashtable m h K (Some V); Some (m', h').
Proof.
  intros HV. unfold hashtable_merge_one, fn_hashtable.
  destruct (hashtable_get m h K) as [[[p|] hash]|]; cbn [mbind option_bind]; [| | done].
  - rewrite (decide_False (P := V = MUSE_NIL)) by done.
    destruct (load m (buckets h) p) as [c|]; cbn [mbind option_bind]; [| done].
    destruct (_head m c) as [kv|]; cbn [mbind option_bind]; [| done].
    rewrite (decide_False (P := MUSE_NIL <> MUSE_NIL)) by (intros Hc; by apply Hc).
    by destruct (_sett m kv V).
  - rewrite (decide_False (P := V = MUSE_NIL)) by done.
    by destruct (hashtable_add m h K V (Some hash)) as [[[m' h'] ref]|].
Qed.

(** What holds of the heap [m] and the result table [r] after the pairs
    [seen] of the sources, whose cells are in [m0], have been merged. *)
Definition join_inv (m0 : heap) (T : Z)
    (m : heap) (r : hashtable_t) (rbs : list (list entry)) (seen : list entry) : Prop :=
  m0 ⊆ m /\ table_inv m r rbs /\ placed (bucket_count r) rbs /\
  keys_unique (concat rbs) /\
  count r < 2 * bucket_count r /\ count r <= Z.of_nat (length seen) /\
  bucket_count r <= T + 2 /\
  (forall a, a ∈ cells_of (concat rbs) -> m0 !! a = None) /\
  (forall K, lookup_value m r K = Some (last_value K seen)).

Lemma merge_one_step (m0 : heap) (T : Z) (m : heap) r rbs seen e :
  2 * (T + 2) < int_half ->
  join_inv m0 T m r rbs seen ->
  Z.of_nat (length seen) + 1 <= T ->
  e_val e <> MUSE_NIL ->
  exists (m' : heap) r' rbs',
    hashtable_merge_one m r (e_key e) (e_val e) MUSE_NIL = Some (m', r') /\
    join_inv m0 T m' r' rbs' (seen ++ [e]).
Proof.
  intros HT Hinv Hroom HV.
  destruct Hinv as (Hsub & Htab & Hpl & Huniq & Hload & Hcnt & Hbc & Hcells & Hlook).
  rewrite (merge_one_put m r (e_key e) (e_val e) HV).
  destruct (put_spec m r rbs (e_key e) (e_val e) Htab Hpl Huniq Hload) as
    (m' & r' & rbs' & Hrun & Htab' & Hpl' & Huniq' & [Hload' _] & Hcnt' & Hbc' & Hframe
     & Hcells' & Hlook'); [split; unfold int_half in *; lia | done |].
  rewrite Hrun. cbn [mbind option_bind].
  exists m', r', rbs'. split; [done |].
  split.
  { apply map_subseteq_spec. intros a x Hax.
    pose proof (lookup_weaken _ _ _ _ Hax Hsub) as Hax'.
    rewrite Hframe; [done | by eexists |].
    intros Hin. rewrite (Hcells a Hin) in Hax. done. }
  split; [done |]. split; [done |]. split; [done |].
  split; [done |]. split; [rewrite length_app; simpl; lia |]. split; [lia |].
  split.
  - intros a Ha. destruct (Hcells' a Ha) as [Hin | Hnone]; [by apply Hcells |].
    by eapply lookup_weaken_None.
  - intros K. rewrite Hlook', Hlook. unfold last_value.
    rewrite reverse_snoc. cbn [first_match]. rewrite (muse_equal_sym (e_key e) K).
    by destruct (muse_equal K (e_key e)).
Qed.

Lemma merge_chain_spec (m0 : heap) (T : Z) es :
  forall fuel (m : heap) c r rbs seen,
  2 * (T + 2) < int_half ->
  chain m0 c es -> (length es < fuel)%nat ->
  join_inv m0 T m r rbs seen ->
  Z.of_nat (length seen) + Z.of_nat (length es) <= T ->
  (forall e, e ∈ es -> e_val e <> MUSE_NIL) ->
  exists (m' : heap) r' rbs',
    merge_chain fuel m c r MUSE_NIL = Some (m', r') /\
    join_inv m0 T m' r' rbs' (seen ++ es).
Proof.
  induction es as [|e es IH]; intros [|fuel] m c r rbs seen HT Hch Hfuel Hinv Hroom Hval;
    simpl in Hfuel; try lia.
  - simpl in Hch. subst c. exists m, r, rbs. cbn [merge_chain].
    rewrite decide_True by done. by rewrite app_nil_r.
  - destruct Hch as (-> & Hnil & next & Hc & Hp & Hrest).
    pose proof Hinv as (Hsub & _).
    simpl in Hroom.
    cbn [merge_chain]. rewrite decide_False by done.
    assert (_head m (e_cell e) = Some (e_pair e)) as ->.
    { unfold _head. by rewrite (lookup_weaken _ _ _ _ Hc Hsub). }
    cbn [mbind option_bind].
    assert (_head m (e_pair e) = Some (e_key e)) as ->.
    { unfold _head. by rewrite (lookup_weaken _ _ _ _ Hp Hsub). }
    cbn [mbind option_bind].
    assert (_tail m (e_pair e) = Some (e_val e)) as ->.
    { unfold _tail. by rewrite (lookup_weaken _ _ _ _ Hp Hsub). }
    cbn [mbind option_bind].
    assert (e_val e <> MUSE_NIL) as HV by (apply Hval; by left).
    destruct (merge_one_step m0 T m r rbs seen e HT Hinv ltac:(lia) HV)
      as (m' & r' & rbs' & Hrun & Hinv').
    rewrite Hrun. cbn [mbind option_bind].
    pose proof Hinv' as (Hsub' & _).
    assert (_tail m' (e_cell e) = Some next) as ->.
    { unfold _tail. by rewrite (lookup_weaken _ _ _ _ Hc Hsub'). }
    cbn [mbind option_bind].
    destruct (IH fuel m' next r' rbs' (seen ++ [e]) HT Hrest ltac:(lia) Hinv')
      as (m'' & r'' & rbs'' & Hrun' & Hinv'').
    { rewrite length_app. simpl. lia. }
    { intros e0 He0. apply Hval. by right. }
    exists m'', r'', rbs''. split; [done |]. by rewrite <- app_assoc in Hinv''.
Qed.

Lemma merge_buckets_spec (m0 : heap) (T : Z) bk :
  forall cs ess (i : nat) (m : heap) r rbs seen,
  2 * (T + 2) < int_half ->
  drop i bk = cs -> Forall2 (chain m0) cs ess -> NoDup (cells_of (concat ess)) ->
  join_inv m0 T m r rbs seen ->
  Z.of_nat (length seen) + Z.of_nat (length (concat ess)) <= T ->
  (forall e, e ∈ concat ess -> e_val e <> MUSE_NIL) ->
  exists (m' : heap) r' rbs',
    merge_buckets (length cs) (Z.of_nat i) m bk r MUSE_NIL = Some (m', r') /\
    join_inv m0 T m' r' rbs' (seen ++ concat ess).
Proof.
  intros cs ess i m r rbs seen HT Hdrop Hch. revert i m r rbs seen Hdrop.
  induction Hch as [|c es cs ess Hc Hch IH]; intros i m r rbs seen Hdrop Hnd Hinv Hroom Hval.
  - exists m, r, rbs. split; [done |]. by rewrite app_nil_r.
  - assert (bk !! i = Some c) as Hi.
    { rewrite <- (Nat.add_0_r i), <- lookup_drop, Hdrop. done. }
    assert (drop (S i) bk = cs) as Hdrop'.
    { rewrite (drop_S _ _ _ Hi) in Hdrop. by injection Hdrop. }
    cbn [concat] in *. rewrite cells_of_app in Hnd.
    apply NoDup_app in Hnd as (Hnd1 & _ & Hnd2). rewrite length_app in Hroom.
    cbn [length merge_buckets]. rewrite arr_get_nat, Hi. cbn [mbind option_bind].
    assert (length es < walk_fuel m)%nat as Hfuel.
    { pose proof (chain_length_fuel m0 c es Hc Hnd1) as Hlt.
      destruct Hinv as (Hsub & _). apply map_subseteq_size in Hsub.
      unfold walk_fuel in *. lia. }
    destruct (merge_chain_spec m0 T es (walk_fuel m) m c r rbs seen HT Hc Hfuel Hinv)
      as (m1 & r1 & rbs1 & Hrun1 & Hinv1); [lia | |].
    { intros e He. apply Hval. apply elem_of_app. by left. }
    rewrite Hrun1. cbn [mbind option_bind].
    replace (Z.of_nat i + 1) with (Z.of_nat (S i)) by lia.
    destruct (IH (S i) m1 r1 rbs1 (seen ++ es) Hdrop' Hnd2 Hinv1)
      as (m' & r' & rbs' & Hrun & Hinv').
    { rewrite length_app. lia. }
    { intros e He. apply Hval. apply elem_of_app. by right. }
    exists m', r', rbs'. split; [done |]. by rewrite <- app_assoc in Hinv'.
Qed.

Lemma hashtable_merge_spec (m0 : heap) (T : Z) h2 bs2 (m : heap) r rbs seen :
  2 * (T + 2) < int_half ->
  table_inv m0 h2 bs2 -> join_inv m0 T m r rbs seen ->
  Z.of_nat (length seen) + Z.of_nat (length (concat bs2)) <= T ->
  (forall e, e ∈ concat bs2 -> e_val e <> MUSE_NIL) ->
  exists (m' : heap) r' rbs',
    hashtable_merge m r h2 MUSE_NIL = Some (m', r') /\
    join_inv m0 T m' r' rbs' (seen ++ concat bs2).
Proof.
  intros HT Hinv2 Hinv Hroom Hval. unfold hashtable_merge.
  rewrite <- (inv_length _ _ _ Hinv2), Nat2Z.id.
  apply (merge_buckets_spec m0 T (buckets h2) (buckets h2) bs2 0 m r rbs seen HT eq_refl
           (inv_chains _ _ _ Hinv2) (inv_nodup _ _ _ Hinv2) Hinv Hroom Hval).
Qed.

Lemma join_objects_spec (m0 : heap) (T : Z) hs : forall bss (m : heap) r rbs seen,
  2 * (T + 2) < int_half ->
  Forall2 (table_inv m0) hs bss -> join_inv m0 T m r rbs seen ->
  Z.of_nat (length seen) + Z.of_nat (length (concat (@concat entry <$> bss))) <= T ->
  (forall e, e ∈ concat (@concat entry <$> bss) -> e_val e <> MUSE_NIL) ->
  exists (m' : heap) r' rbs',
    join_objects m r (Some <$> hs) MUSE_NIL = Some (m', r') /\
    join_inv m0 T m' r' rbs' (seen ++ concat (@concat entry <$> bss)).
Proof.
  induction hs as [|h2 hs IH]; intros bss m r rbs seen HT Hall Hinv Hroom Hval.
  - apply Forall2_nil_inv_l in Hall as ->. exists m, r, rbs.
    split; [done |]. by rewrite app_nil_r.
  - apply Forall2_cons_inv_l in Hall as (bs2 & bss' & Hinv2 & Hall & ->).
    rewrite (fmap_cons (@concat entry)) in Hroom, Hval |- *. rewrite fmap_cons.
    cbn [concat] in *. rewrite length_app in Hroom.
    cbn [join_objects mbind option_bind].
    destruct (hashtable_merge_spec m0 T h2 bs2 m r rbs seen HT Hinv2 Hinv)
      as (m1 & r1 & rbs1 & Hrun1 & Hinv1); [lia | |].
    { intros e He. apply Hval. apply elem_of_app. by left. }
    rewrite Hrun1. cbn [mbind option_bind].
    destruct (IH bss' m1 r1 rbs1 (seen ++ concat bs2) HT Hall Hinv1)
      as (m' & r' & rbs' & Hrun & Hinv').
    { rewrite length_app. lia. }
    { intros e He. apply Hval. apply elem_of_app. by right. }
    exists m', r', rbs'. split; [done |]. by rewrite <- app_assoc in Hinv'.
Qed.

Lemma table_inv_subseteq (m m' : heap) h bs :
  table_inv m h bs -> m ⊆ m' -> table_inv m' h bs.
Proof.
  intros [I1 I2 I3 I4 I5] Hsub. split; try done.
  apply (chains_frame m m' _ _ I3). intros a Ha.
  destruct (chains_cells_dom m _ _ a I3 Ha) as [y Hy].
  rewrite Hy. by apply (lookup_weaken m m').
Qed.

Lemma join_inv_init (m : heap) (T N : Z) :
  0 < N -> N <= T -> 2 * (T + 2) < int_half ->
  exists rbs0, join_inv m T m (muse_mk_hashtable N) rbs0 [].
Proof.
  intros Hpos HN HT.
  destruct (mk_hashtable_empty m N) as (rbs0 & Hrinv & Hnil & Hbc);
    [unfold int_half in *; lia |].
  assert (placed (bucket_count (muse_mk_hashtable N)) rbs0) as Hpl0.
  { intros i es e Hi He. pose proof (bucket_in_concat rbs0 i es e Hi He) as Hin.
    rewrite Hnil in Hin. by apply elem_of_nil in Hin. }
  assert (keys_unique (concat rbs0)) as Huniq0.
  { rewrite Hnil. intros e1 e2 He1. by apply elem_of_nil in He1. }
  exists rbs0.
  split; [done |]. split; [done |]. split; [done |]. split; [done |].
  split; [rewrite Hbc; simpl; lia |]. split; [simpl; lia |]. split; [lia |].
  split.
  - rewrite Hnil. intros a Ha. by apply elem_of_nil in Ha.
  - intros K. rewrite (lookup_value_concat _ _ rbs0 K Hrinv Hpl0 Huniq0).
    by rewrite Hnil.
Qed.

(** [hashtable_join] of a table that is not empty with other tables,
    without a reduction function and with no NIL value stored anywhere,
    returns a new table in which a key reads as the value of the last pair
    with an equal key, in the order of the tables and of their buckets: a
    later table overwrites an earlier one.  The source tables are not
    changed. *)
Theorem hashtable_join_overwrites (m : heap) h1 bs1 hs bss :
  table_inv m h1 bs1 -> Forall2 (table_inv m) hs bss -> 0 < count h1 ->
  2 * (Z.of_nat (length (concat bs1 ++ concat (@concat entry <$> bss))) + 2) < int_half ->
  (forall e, e ∈ concat bs1 ++ concat (@concat entry <$> bss) -> e_val e <> MUSE_NIL) ->
  exists (m' : heap) r rbs,
    hashtable_join m h1 (Some <$> hs) MUSE_NIL = Some (m', r) /\
    m ⊆ m' /\ table_inv m' r rbs /\
    hashtable_size r <= Z.of_nat (length (concat bs1 ++ concat (@concat entry <$> bss))) /\
    forall K, lookup_value m' r K =
              Some (last_value K (concat bs1 ++ concat (@concat entry <$> bss))).
Proof.
  intros Hinv1 Hall Hpos HT Hval. unfold hashtable_join.
  set (T := Z.of_nat (length (concat bs1 ++ concat (@concat entry <$> bss)))) in *.
  pose proof (inv_count _ _ _ Hinv1) as Hc1.
  assert (Z.of_nat (length (concat bs1))
          + Z.of_nat (length (concat (@concat entry <$> bss))) = T)
    as HTsum by (unfold T; rewrite length_app; lia).
  destruct (join_inv_init m T (count h1)) as (rbs0 & Hinv0); [lia | lia | done |].
  destruct (hashtable_merge_spec m T h1 bs1 m _ rbs0 [] HT Hinv1 Hinv0)
    as (m1 & r1 & rbs1 & Hrun1 & Hjinv1); [simpl; lia | |].
  { intros e He. apply Hval. apply elem_of_app. by left. }
  rewrite Hrun1. cbn [mbind option_bind].
  destruct (join_objects_spec m T hs bss m1 r1 rbs1 ([] ++ concat bs1) HT Hall Hjinv1)
    as (m' & r & rbs & Hrun & Hsub & Htab & _ & _ & _ & Hcnt & _ & _ & Hlook).
  { simpl. lia. }
  { intros e He. apply Hval. apply elem_of_app. by right. }
  exists m', r, rbs. split; [done |]. split; [done |]. split; [done |].
  split; [unfold hashtable_size, T; simpl in Hcnt; lia |]. done.
Qed.

(** With a result table that has no bucket, merging stops at the first
    pair: the bucket index of its key is a remainder by zero. *)
Lemma merge_buckets_no_buckets (m : heap) bk r reduction_fn :
  bucket_count r = 0 ->
  forall cs ess (i : nat),
  drop i bk = cs -> Forall2 (chain m) cs ess ->
  merge_buckets (length cs) (Z.of_nat i) m bk r reduction_fn =
    if decide (concat ess = []) then Some (m, r) else None.
Proof.
  intros Hr cs ess i Hdrop Hch. revert i Hdrop.
  induction Hch as [|c es cs ess Hc Hch IH]; intros i Hdrop.
  - done.
  - assert (bk !! i = Some c) as Hi.
    { rewrite <- (Nat.add_0_r i), <- lookup_drop, Hdrop. done. }
    assert (drop (S i) bk = cs) as Hdrop'.
    { rewrite (drop_S _ _ _ Hi) in Hdrop. by injection Hdrop. }
    cbn [length merge_buckets concat]. rewrite arr_get_nat, Hi. cbn [mbind option_bind].
    unfold walk_fuel. cbn [merge_chain].
    destruct es as [|e es].
    + simpl in Hc. subst c. rewrite decide_True by done. cbn [mbind option_bind].
      replace (Z.of_nat i + 1) with (Z.of_nat (S i)) by lia.
      by rewrite (IH (S i) Hdrop').
    + destruct Hc as (-> & Hnil & next & Hc & Hp & Hrest).
      rewrite decide_False by done.
      assert (_head m (e_cell e) = Some (e_pair e)) as ->
        by (unfold _head; by rewrite Hc).
      cbn [mbind option_bind].
      assert (_head m (e_pair e) = Some (e_key e)) as ->
        by (unfold _head; by rewrite Hp).
      cbn [mbind option_bind].
      assert (_tail m (e_pair e) = Some (e_val e)) as ->
        by (unfold _tail; by rewrite Hp).
      cbn [mbind option_bind].
      unfold hashtable_merge_one, hashtable_get, bucket_for_hash.
      rewrite Hr. rewrite decide_True by done. cbn [mbind option_bind].
      by rewrite decide_False.
Qed.

(** [hashtable_join] of an empty table with a table that holds a pair is
    undefined, whatever follows: the result is made with as many buckets as
    the first table has pairs, that is none, and the bucket index of the
    first pair to add is a remainder by zero. *)
Theorem hashtable_join_from_empty (m : heap) h1 bs1 h2 bs2 rest reduction_fn :
  table_inv m h1 bs1 -> table_inv m h2 bs2 -> count h1 = 0 -> 0 < count h2 ->
  hashtable_join m h1 (Some h2 :: rest) reduction_fn = None.
Proof.
  intros Hinv1 Hinv2 Hc1 Hc2. unfold hashtable_join, hashtable_merge.
  assert (bucket_count (muse_mk_hashtable (count h1)) = 0) as Hr
    by (rewrite Hc1; reflexivity).
  rewrite <- (inv_length _ _ _ Hinv1), Nat2Z.id.
  pose proof (merge_buckets_no_buckets m (buckets h1) _ MUSE_NIL Hr (buckets h1) bs1 0 eq_refl
                (inv_chains _ _ _ Hinv1)) as Hrun1.
  change (Z.of_nat 0) with 0 in Hrun1. rewrite Hrun1.
  rewrite decide_True.
  2: { apply length_zero_iff_nil. pose proof (inv_count _ _ _ Hinv1). lia. }
  cbn [mbind option_bind join_objects]. unfold hashtable_merge.
  rewrite <- (inv_length _ _ _ Hinv2), Nat2Z.id.
  pose proof (merge_buckets_no_buckets m (buckets h2) _ reduction_fn Hr (buckets h2) bs2 0
                eq_refl (inv_chains _ _ _ Hinv2)) as Hrun2.
  change (Z.of_nat 0) with 0 in Hrun2. rewrite Hrun2.
  rewrite decide_False; [done |].
  intros Hnil. pose proof (inv_count _ _ _ Hinv2) as Hc. rewrite Hnil in Hc. simpl in Hc. lia.
Qed.

(** *** The monad view: collecting *)

Section WithCollect.

(** [_apply( fn, kv, MUSE_TRUE )] for a pair [kv = (key . value)] used as
    the argument list: [fn] gets the key as its first argument and the
    value as the rest, which the evaluator reads from the pair. *)
Variable apply_kv : muse_cell -> muse_cell -> muse_cell -> muse_cell.

(** The cell that a mapper returns is a pair made by the evaluator;
    [pair_result] reads its head and its tail. *)
Variable pair_result : muse_cell -> option (muse_cell * muse_cell).

(** [hashtable_collect]: the inner loop over a chain and the outer loop
    over the buckets. *)
Fixpoint collect_chain (fuel : nat) (m : heap) (alist : muse_cell) (result : hashtable_t)
    (predicate mapper reduction_fn : muse_cell) : option (heap * hashtable_t) :=
  match fuel with
  | O => None
  | S fuel' =>
    if decide (alist = MUSE_NIL) then Some (m, result)
    else
      kv ← _head m alist;
      key ← _head m kv;
      value ← _tail m kv;
      '(m', result') ←
        (if decide (predicate = MUSE_NIL \/ apply_kv predicate key value <> MUSE_NIL) then
           '(key', value') ← (if decide (mapper <> MUSE_NIL)
                               then pair_result (apply_kv mapper key value)
                               else Some (key, value));
           hashtable_merge_one m result key' value' reduction_fn
         else Some (m, result));
      next ← _tail m' alist;
      collect_chain fuel' m' next result' predicate mapper reduction_fn
  end.

Fixpoint collect_buckets (n : nat) (b : Z) (m : heap) (bk : list muse_cell)
    (result : hashtable_t) (predicate mapper reduction_fn : muse_cell)
  : option (heap * hashtable_t) :=
  match n with
  | O => Some (m, result)
  | S n' =>
    alist ← arr_get bk b;
    '(m', result') ← collect_chain (walk_fuel m) m alist result predicate mapper reduction_fn;
    collect_buckets n' (b + 1) m' bk result' predicate mapper reduction_fn
  end.

Definition hashtable_collect (m : heap) (h : hashtable_t)
    (predicate mapper reduction_fn : muse_cell) : option (heap * hashtable_t) :=
  collect_buckets (Z.to_nat (bucket_count h)) 0 m (buckets h)
    (muse_mk_hashtable (count h)) predicate mapper reduction_fn.

(** The pairs that pass the predicate, in their order. *)
Fixpoint collected (predicate : muse_cell) (es : list entry) : list entry :=
  match es with
  | [] => []
  | e :: es' =>
    if decide (predicate = MUSE_NIL \/ apply_kv predicate (e_key e) (e_val e) <> MUSE_NIL)
    then e :: collected predicate es'
    else collected predicate es'
  end.

Lemma collected_app predicate es1 es2 :
  collected predicate (es1 ++ es2) = collected predicate es1 ++ collected predicate es2.
Proof.
  induction es1 as [|e es1 IH]; [done |]. simpl. case_decide; [| done].
  by rewrite IH.
Qed.

Lemma collected_length predicate es :
  (length (collected predicate es) <= length es)%nat.
Proof.
  induction es as [|e es IH]; [done |]. simpl. case_decide; simpl; lia.
Qed.

Lemma collect_chain_spec (m0 : heap) (T : Z) predicate es :
  forall fuel (m : heap) c r rbs seen,
  2 * (T + 2) < int_half ->
  chain m0 c es -> (length es < fuel)%nat ->
  join_inv m0 T m r rbs seen ->
  Z.of_nat (length seen) + Z.of_nat (length es) <= T ->
  (forall e, e ∈ es -> e_val e <> MUSE_NIL) ->
  exists (m' : heap) r' rbs',
    collect_chain fuel m c r predicate MUSE_NIL MUSE_NIL = Some (m', r') /\
    join_inv m0 T m' r' rbs' (seen ++ collected predicate es).
Proof.
  induction es as [|e es IH]; intros [|fuel] m c r rbs seen HT Hch Hfuel Hinv Hroom Hval;
    simpl in Hfuel; try lia.
  - simpl in Hch. subst c. exists m, r, rbs. cbn [collect_chain].
    rewrite decide_True by done. by rewrite app_nil_r.
  - destruct Hch as (-> & Hnil & next & Hc & Hp & Hrest).
    pose proof Hinv as (Hsub & _).
    simpl in Hroom.
    cbn [collect_chain collected]. rewrite decide_False by done.
    assert (_head m (e_cell e) = Some (e_pair e)) as ->.
    { unfold _head. by rewrite (lookup_weaken _ _ _ _ Hc Hsub). }
    cbn [mbind option_bind].
    assert (_head m (e_pair e) = Some (e_key e)) as ->.
    { unfold _head. by rewrite (lookup_weaken _ _ _ _ Hp Hsub). }
    cbn [mbind option_bind].
    assert (_tail m (e_pair e) = Some (e_val e)) as ->.
    { unfold _tail. by rewrite (lookup_weaken _ _ _ _ Hp Hsub). }
    cbn [mbind option_bind].
    assert (forall e0, e0 ∈ es -> e_val e0 <> MUSE_NIL) as Hval'
      by (intros e0 He0; apply Hval; by right).
    destruct (decide (predicate = MUSE_NIL
                      \/ apply_kv predicate (e_key e) (e_val e) <> MUSE_NIL)) as [Hpass | Hrej].
    + rewrite (decide_False (P := MUSE_NIL <> MUSE_NIL)) by (intros Hc'; by apply Hc').
      cbn [mbind option_bind].
      assert (e_val e <> MUSE_NIL) as HV by (apply Hval; by left).
      destruct (merge_one_step m0 T m r rbs seen e HT Hinv ltac:(lia) HV)
        as (m' & r' & rbs' & Hrun & Hinv').
      rewrite Hrun. cbn [mbind option_bind].
      pose proof Hinv' as (Hsub' & _).
      assert (_tail m' (e_cell e) = Some next) as ->.
      { unfold _tail. by rewrite (lookup_weaken _ _ _ _ Hc Hsub'). }
      cbn [mbind option_bind].
      destruct (IH fuel m' next r' rbs' (seen ++ [e]) HT Hrest ltac:(lia) Hinv')
        as (m'' & r'' & rbs'' & Hrun' & Hinv''); [rewrite length_app; simpl; lia | done |].
      exists m'', r'', rbs''. split; [done |]. by rewrite <- app_assoc in Hinv''.
    + cbn [mbind option_bind].
      assert (_tail m (e_cell e) = Some next) as ->.
      { unfold _tail. by rewrite (lookup_weaken _ _ _ _ Hc Hsub). }
      cbn [mbind option_bind].
      apply (IH fuel m next r rbs seen HT Hrest ltac:(lia) Hinv); [lia | done].
Qed.

Lemma collect_buckets_spec (m0 : heap) (T : Z) predicate bk :
  forall cs ess (i : nat) (m : heap) r rbs seen,
  2 * (T + 2) < int_half ->
  drop i bk = cs -> Forall2 (chain m0) cs ess -> NoDup (cells_of (concat ess)) ->
  join_inv m0 T m r rbs seen ->
  Z.of_nat (length seen) + Z.of_nat (length (concat ess)) <= T ->
  (forall e, e ∈ concat ess -> e_val e <> MUSE_NIL) ->
  exists (m' : heap) r' rbs',
    collect_buckets (length cs) (Z.of_nat i) m bk r predicate MUSE_NIL MUSE_NIL
      = Some (m', r') /\
    join_inv m0 T m' r' rbs' (seen ++ collected predicate (concat ess)).
Proof.
  intros cs ess i m r rbs seen HT Hdrop Hch. revert i m r rbs seen Hdrop.
  induction Hch as [|c es cs ess Hc Hch IH]; intros i m r rbs seen Hdrop Hnd Hinv Hroom Hval.
  - exists m, r, rbs. split; [done |]. by rewrite app_nil_r.
  - assert (bk !! i = Some c) as Hi.
    { rewrite <- (Nat.add_0_r i), <- lookup_drop, Hdrop. done. }
    assert (drop (S i) bk = cs) as Hdrop'.
    { rewrite (drop_S _ _ _ Hi) in Hdrop. by injection Hdrop. }
    cbn [concat] in *. rewrite cells_of_app in Hnd.
    apply NoDup_app in Hnd as (Hnd1 & _ & Hnd2). rewrite length_app in Hroom.
    cbn [length collect_buckets]. rewrite arr_get_nat, Hi. cbn [mbind option_bind].
    assert (length es < walk_fuel m)%nat as Hfuel.
    { pose proof (chain_length_fuel m0 c es Hc Hnd1) as Hlt.
      destruct Hinv as (Hsub & _). apply map_subseteq_size in Hsub.
      unfold walk_fuel in *. lia. }
    destruct (collect_chain_spec m0 T predicate es (walk_fuel m) m c r rbs seen HT Hc Hfuel Hinv)
      as (m1 & r1 & rbs1 & Hrun1 & Hinv1); [lia | |].
    { intros e He. apply Hval. apply elem_of_app. by left. }
    rewrite Hrun1. cbn [mbind option_bind].
    replace (Z.of_nat i + 1) with (Z.of_nat (S i)) by lia.
    pose proof Hinv1 as (_ & _ & _ & _ & _ & Hcnt1 & _).
    pose proof (collected_length predicate es) as Hle.
    destruct (IH (S i) m1 r1 rbs1 (seen ++ collected predicate es) Hdrop' Hnd2 Hinv1)
      as (m' & r' & rbs' & Hrun & Hinv').
    { rewrite length_app. lia. }
    { intros e He. apply Hval. apply elem_of_app. by right. }
    exists m', r', rbs'. split; [done |].
    by rewrite collected_app, app_assoc.
Qed.

(** [hashtable_collect] with a predicate only (no mapper, no reduction
    function), on a table that is not empty and stores no NIL value,
    returns a new table in which a key reads as the value of the last pair,
    in bucket order, that has an equal key and passes the predicate, and as
    NIL when no such pair passes.  The source table is not changed. *)
Theorem hashtable_collect_filter (m : heap) h bs predicate :
  table_inv m h bs -> 0 < count h -> 2 * (count h + 2) < int_half ->
  (forall e, e ∈ concat bs -> e_val e <> MUSE_NIL) ->
  exists (m' : heap) r rbs,
    hashtable_collect m h predicate MUSE_NIL MUSE_NIL = Some (m', r) /\
    m ⊆ m' /\ table_inv m' r rbs /\ table_inv m' h bs /\
    hashtable_size r <= Z.of_nat (length (collected predicate (concat bs))) /\
    forall K, lookup_value m' r K = Some (last_value K (collected predicate (concat bs))).
Proof.
  intros Hinv Hpos HT Hval. unfold hashtable_collect.
  pose proof (inv_count _ _ _ Hinv) as Hc.
  destruct (join_inv_init m (count h) (count h)) as (rbs0 & Hinv0); [lia | lia | done |].
  rewrite <- (inv_length _ _ _ Hinv), Nat2Z.id.
  destruct (collect_buckets_spec m (count h) predicate (buckets h) (buckets h) bs 0 m _ rbs0 []
              HT eq_refl (inv_chains _ _ _ Hinv) (inv_nodup _ _ _ Hinv) Hinv0)
    as (m' & r & rbs & Hrun & Hsub & Htab & _ & _ & _ & Hcnt & _ & Hcells & Hlook);
    [simpl; lia | done |].
  exists m', r, rbs. split; [done |]. split; [done |]. split; [done |].
  split; [by eapply table_inv_subseteq |].
  split; [unfold hashtable_size; simpl in Hcnt; lia |]. done.
Qed.

End WithCollect.

End WithMerge.

End WithHash.

(** *** Concrete tables

    Keys are small integers that hash to themselves. *)
Definition id_hash (k : muse_cell) : Z := k.

(** The table [{5 -> 10}] with three buckets. *)
Definition demo_heap : heap := <[2 := Cons 1 0]> (<[1 := Cons 5 10]> ∅).
Definition demo_table : hashtable_t :=
  {| count := 1; bucket_count := 3; buckets := [0; 0; 2] |}.
Definition demo_entries : list (list entry) := [[]; []; [Entry 2 1 5 10]].

(** The association list [((5 . 10) (5 . 20))], at cell 2. *)
Definition dup_alist_heap : heap :=
  <[4 := Cons 3 0]> (<[3 := Cons 5 20]> (<[2 := Cons 1 4]> (<[1 := Cons 5 10]> ∅))).

Lemma demo_table_inv : table_inv demo_heap demo_table demo_entries.
Proof.
  constructor.
  - by vm_compute.
  - reflexivity.
  - constructor; [done |]. constructor; [done |]. constructor; [| constructor].
    simpl. split; [done |]. split; [done |]. exists 0. by vm_compute.
  - apply (bool_decide_unpack _). by vm_compute.
  - reflexivity.
Defined.

(** The table that [fn_alist_to_hashtable] builds from that list: both
    pairs are in bucket 2, the second pair of the list first. *)
Definition dup_table_heap : heap := <[5 := Cons 3 6]> (<[6 := Cons 1 0]> dup_alist_heap).
Definition dup_table : hashtable_t :=
  {| count := 2; bucket_count := 3; buckets := [0; 0; 5] |}.
Definition dup_entries : list (list entry) :=
  [[]; []; [Entry 5 3 5 20; Entry 6 1 5 10]].

Lemma dup_table_inv : table_inv dup_table_heap dup_table dup_entries.
Proof.
  constructor.
  - by vm_compute.
  - reflexivity.
  - constructor; [done |]. constructor; [done |]. constructor; [| constructor].
    simpl. split; [done |]. split; [done |]. exists 6. split; [by vm_compute |].
    split; [by vm_compute |]. split; [done |]. split; [done |]. exists 0.
    by vm_compute.
  - apply (bool_decide_unpack _). by vm_compute.
  - reflexivity.
Qed.

(** C1, as stated, fails on a table with two pairs under one key, which
    [fn_alist_to_hashtable] builds from [((5 . 10) (5 . 20))]: the table
    satisfies the representation invariant, and after NIL is stored under 5
    a lookup of 5 returns 10. *)
Lemma delete_leaves_duplicate_key :
  fn_alist_to_hashtable id_hash dup_alist_heap 2 = Some (dup_table_heap, dup_table) /\
  fn_hashtable id_hash Z.eqb dup_table_heap dup_table 5 (Some MUSE_NIL)
    = Some (dup_table_heap, {| count := 1; bucket_count := 3; buckets := [0; 0; 6] |},
            MUSE_NIL) /\
  fn_hashtable id_hash Z.eqb dup_table_heap
    {| count := 1; bucket_count := 3; buckets := [0; 0; 6] |} 5 None
    = Some (dup_table_heap, {| count := 1; bucket_count := 3; buckets := [0; 0; 6] |}, 10) /\
  10 <> MUSE_NIL.
Proof.
  split; [by vm_compute |]. split; [by vm_compute |]. split; [by vm_compute | done].
Qed.

(** C9, as stated, fails on the table with two pairs under one key that
    [fn_alist_to_hashtable] builds from [((5 . 10) (5 . 20))]: a lookup of 5
    returns 20;
    [hashtable_rehash] to six buckets relinks the two list cells of bucket 2
    in reverse order, so that the pair [(5 . 20)], which is still stored
    (cell 3), is no longer reachable under its key: the lookup returns 10. *)
Lemma rehash_hides_duplicate_key :
  fn_alist_to_hashtable id_hash dup_alist_heap 2 = Some (dup_table_heap, dup_table) /\
  lookup_value id_hash Z.eqb dup_table_heap dup_table 5 = Some 20 /\
  hashtable_rehash id_hash dup_table_heap dup_table 6
    = Some (<[6 := Cons 1 5]> (<[5 := Cons 3 0]> dup_table_heap),
            {| count := 2; bucket_count := 7; buckets := [0; 0; 0; 0; 0; 6; 0] |}) /\
  (<[6 := Cons 1 5]> (<[5 := Cons 3 0]> dup_table_heap) : heap) !! 3 = Some (Cons 5 20) /\
  lookup_value id_hash Z.eqb (<[6 := Cons 1 5]> (<[5 := Cons 3 0]> dup_table_heap))
    {| count := 2; bucket_count := 7; buckets := [0; 0; 0; 0; 0; 6; 0] |} 5 = Some 10 /\
  10 <> 20.
Proof.
  split; [by vm_compute |]. split; [by vm_compute |]. split; [by vm_compute |].
  split; [by vm_compute |]. split; [by vm_compute | done].
Qed.

Lemma put_get_delete_witness :
  table_inv demo_heap demo_table demo_entries /\
  room_to_grow demo_table /\ 20 <> MUSE_NIL /\
  (exists (m1 : heap) h1,
      fn_hashtable id_hash Z.eqb demo_heap demo_table 5 (Some 20) = Some (m1, h1, 20) /\
      fn_hashtable id_hash Z.eqb m1 h1 5 None = Some (m1, h1, 20)) /\
  (exists (m2 : heap) h2,
      fn_hashtable id_hash Z.eqb demo_heap demo_table 5 (Some MUSE_NIL)
        = Some (m2, h2, MUSE_NIL) /\
      fn_hashtable id_hash Z.eqb m2 h2 5 None = Some (m2, h2, MUSE_NIL)).
Proof.
  assert (room_to_grow demo_table) as Hroom by (split; by vm_compute).
  assert (20 <> MUSE_NIL) as HV by done.
  split; [apply demo_table_inv |]. split; [done |]. split; [done |].
  destruct (put_get_delete id_hash Z.eqb Z.eqb_refl demo_heap demo_table demo_entries 5 20
              demo_table_inv Hroom HV) as [Hput Hdel].
  split; [done |]. apply Hdel.
  intros [|[|[|b]]] es Hb Hes; try done.
  injection Hes as <-. by vm_compute.
Defined.

Lemma rehash_stable_witness :
  table_inv demo_heap demo_table demo_entries /\ 0 <= 6 < int_half /\
  keys_unique Z.eqb (concat demo_entries) /\
  exists (m' : heap) h' bs',
    hashtable_rehash id_hash demo_heap demo_table 6 = Some (m', h') /\
    table_inv m' h' bs' /\
    concat bs' ≡ₚ concat demo_entries /\
    count h' = count demo_table /\
    bucket_count h' = 7 /\
    placed id_hash (bucket_count h') bs' /\
    lookup_value id_hash Z.eqb m' h' 5 = Some 10 /\
    dom m' = dom demo_heap.
Proof.
  assert (0 <= 6 < int_half) as Hn by (by vm_compute).
  assert (keys_unique Z.eqb (concat demo_entries)) as Huniq.
  { intros e1 e2 H1 H2 _. simpl in H1, H2. set_solver. }
  split; [apply demo_table_inv |]. split; [done |]. split; [done |].
  destruct (rehash_stable id_hash Z.eqb Z.eqb_refl demo_heap demo_table demo_entries 6
              demo_table_inv Hn)
    as (m' & h' & bs' & Hrun & Hinv & Hperm & Hcnt & Hbc & Hpl & _ & Hlook & Hdom & _).
  exists m', h', bs'. repeat (split; [done |]). split; [| done].
  apply (Hlook Huniq (Entry 2 1 5 10)). simpl. set_solver.
Defined.

Lemma update_in_place_witness :
  table_inv demo_heap demo_table demo_entries /\ 20 <> MUSE_NIL /\
  hashtable_get id_hash Z.eqb demo_heap demo_table 5 = Some (Some (InBucket 2), 5) /\
  exists (m' : heap) kv k old,
    fn_hashtable id_hash Z.eqb demo_heap demo_table 5 (Some 20) = Some (m', demo_table, 20) /\
    demo_heap !! kv = Some (Cons k old) /\ Z.eqb k 5 = true /\
    lookup_value id_hash Z.eqb demo_heap demo_table 5 = Some old /\
    m' = <[kv := Cons k 20]> demo_heap /\
    dom m' = dom demo_heap /\
    (exists bs', table_inv m' demo_table bs') /\
    lookup_value id_hash Z.eqb m' demo_table 5 = Some 20 /\
    (forall K', Z.eqb K' 5 = false ->
                lookup_value id_hash Z.eqb m' demo_table K'
                = lookup_value id_hash Z.eqb demo_heap demo_table K').
Proof.
  assert (hashtable_get id_hash Z.eqb demo_heap demo_table 5 = Some (Some (InBucket 2), 5))
    as Hget by (by vm_compute).
  assert (forall a b c, Z.eqb a b = true -> Z.eqb b c = true -> Z.eqb a c = true) as Htrans.
  { intros a b c. rewrite !Z.eqb_eq. congruence. }
  split; [apply demo_table_inv |]. split; [done |]. split; [done |].
  apply (update_in_place id_hash Z.eqb Z.eqb_sym Htrans demo_heap demo_table demo_entries
           5 20 (InBucket 2) 5 demo_table_inv ltac:(done) Hget).
Defined.

Lemma load_factor_after_calls_witness :
  [(5, Some 10); (5, None); (8, Some 30); (5, Some 0)] <> [] /\
  run_calls id_hash Z.eqb ∅ (hashtable_init (Some 1))
    [(5, Some 10); (5, None); (8, Some 30); (5, Some 0)]
  = Some (<[4 := Cons 3 0]> (<[3 := Cons 8 30]> demo_heap),
          {| count := 1; bucket_count := 3; buckets := [0; 0; 4] |}) /\
  1 < 2 * 3.
Proof.
  assert (run_calls id_hash Z.eqb ∅ (hashtable_init (Some 1))
            [(5, Some 10); (5, None); (8, Some 30); (5, Some 0)]
          = Some (<[4 := Cons 3 0]> (<[3 := Cons 8 30]> demo_heap),
                  {| count := 1; bucket_count := 3; buckets := [0; 0; 4] |})) as Hrun
    by (by vm_compute).
  assert ([(5, Some 10); (5, None); (8, Some 30); (5, Some 0)]
          <> ([] : list (muse_cell * option muse_cell))) as Hne by done.
  split; [done |]. split; [done |].
  apply (load_factor_after_calls id_hash Z.eqb ∅ (Some 1) _ _ _ Hne Hrun).
Defined.

(** C3 fails on the code: [hashtable_init] takes the requested size as it
    is.  A table requested with four buckets has four, and a table requested
    with none has none, so that its first call divides by zero. *)
Lemma hashtable_init_even_bucket_count :
  bucket_count (hashtable_init (Some 4)) = 4 /\
  Z.odd (bucket_count (hashtable_init (Some 4))) = false /\
  bucket_count (hashtable_init (Some 0)) = 0 /\
  fn_hashtable id_hash Z.eqb ∅ (hashtable_init (Some 0)) 5 (Some 10) = None.
Proof. by vm_compute. Qed.

(** The paths that do keep the bucket count odd: the default size, and every
    rehash. *)
Lemma hashtable_init_default_odd : Z.odd (bucket_count (hashtable_init None)) = true.
Proof. reflexivity. Qed.

Lemma hashtable_rehash_odd muse_hash (m : heap) h n (m' : heap) h' :
  hashtable_rehash muse_hash m h n = Some (m', h') -> Z.odd (bucket_count h') = true.
Proof.
  unfold hashtable_rehash. cbv zeta.
  destruct (rehash_buckets _ _ _ _ _ _ _) as [[m1 nb]|]; [| done].
  intros [= _ <-]. apply lor_1_odd.
Qed.

(** *** Concrete calls

    Integer keys that hash to themselves and are compared with [Z.eqb]. *)

Lemma eqb_key_trans (a b c : Z) : (a =? b) = true -> (b =? c) = true -> (a =? c) = true.
Proof. rewrite !Z.eqb_eq. congruence. Qed.

Lemma id_hash_respects_eqb (a b : Z) : (a =? b) = true -> id_hash a = id_hash b.
Proof. rewrite Z.eqb_eq. by intros ->. Qed.

Lemma empty_table_grown_inv : grown_inv id_hash Z.eqb ∅ (hashtable_init None).
Proof.
  apply (hashtable_init_grown_inv id_hash Z.eqb Z.eqb_refl Z.eqb_sym eqb_key_trans
           id_hash_respects_eqb ∅ None).
  by vm_compute.
Qed.

Lemma demo_table_room : room_to_grow demo_table.
Proof. split; by vm_compute. Qed.

Lemma bucket_for_hash_residue_witness :
  bucket_for_hash (-5) 7 = Some 2 /\ 0 <= 2 < 7.
Proof.
  apply (bucket_for_hash_residue (-5) 7). by vm_compute.
Defined.

Lemma hashtable_size_after_call_witness :
  exists (m' : heap) h' r kvpair hash,
    fn_hashtable id_hash Z.eqb demo_heap demo_table 5 (Some MUSE_NIL) = Some (m', h', r) /\
    hashtable_get id_hash Z.eqb demo_heap demo_table 5 = Some (kvpair, hash) /\
    (exists bs', table_inv m' h' bs' /\
                 hashtable_size h' = Z.of_nat (length (concat bs'))) /\
    hashtable_size h' = hashtable_size demo_table +
      match Some MUSE_NIL, kvpair with
      | Some v, Some _ => if decide (v = MUSE_NIL) then -1 else 0
      | Some v, None => if decide (v = MUSE_NIL) then 0 else 1
      | None, _ => 0
      end.
Proof.
  apply (hashtable_size_after_call id_hash Z.eqb demo_heap demo_table demo_entries 5
           (Some MUSE_NIL) demo_table_inv demo_table_room).
Defined.

Lemma grown_table_put_witness :
  exists (m' : heap) h',
    fn_hashtable id_hash Z.eqb ∅ (hashtable_init None) 5 (Some 10) = Some (m', h', 10) /\
    grown_inv id_hash Z.eqb m' h' /\
    forall K', lookup_value id_hash Z.eqb m' h' K' =
               if K' =? 5 then Some 10
               else lookup_value id_hash Z.eqb ∅ (hashtable_init None) K'.
Proof.
  apply (grown_table_put id_hash Z.eqb Z.eqb_refl Z.eqb_sym eqb_key_trans
           id_hash_respects_eqb ∅ (hashtable_init None) 5 10 empty_table_grown_inv).
  - split; by vm_compute.
  - done.
Defined.

(** The table [{5 -> 10}] is what the call [(ht 5 10)] makes of a new table
    with three buckets. *)
Lemma demo_table_grown_inv : grown_inv id_hash Z.eqb demo_heap demo_table.
Proof.
  apply (run_calls_grown_inv id_hash Z.eqb Z.eqb_refl Z.eqb_sym eqb_key_trans
           id_hash_respects_eqb [(5, Some 10)] ∅ (hashtable_init (Some 3))
           demo_heap demo_table).
  - apply (hashtable_init_grown_inv id_hash Z.eqb Z.eqb_refl Z.eqb_sym eqb_key_trans
             id_hash_respects_eqb ∅ (Some 3)).
    by vm_compute.
  - by vm_compute.
Qed.

Lemma grown_table_delete_witness :
  run_calls id_hash Z.eqb ∅ (hashtable_init (Some 3)) [(5, Some 10)]
    = Some (demo_heap, demo_table) /\
  lookup_value id_hash Z.eqb demo_heap demo_table 5 = Some 10 /\
  exists (m' : heap) h',
    fn_hashtable id_hash Z.eqb demo_heap demo_table 5 (Some MUSE_NIL)
      = Some (m', h', MUSE_NIL) /\
    grown_inv id_hash Z.eqb m' h' /\
    forall K', lookup_value id_hash Z.eqb m' h' K' =
               if K' =? 5 then Some MUSE_NIL
               else lookup_value id_hash Z.eqb demo_heap demo_table K'.
Proof.
  split; [by vm_compute |]. split; [by vm_compute |].
  apply (grown_table_delete id_hash Z.eqb Z.eqb_refl Z.eqb_sym eqb_key_trans
           id_hash_respects_eqb demo_heap demo_table 5 demo_table_grown_inv).
Defined.

Lemma grown_table_identity_witness :
  (exists (m1 : heap) h1,
      fn_hashtable id_hash Z.eqb ∅ (hashtable_init None) 5 (Some 10) = Some (m1, h1, 10) /\
      fn_hashtable id_hash Z.eqb m1 h1 5 None = Some (m1, h1, 10)) /\
  (exists (m2 : heap) h2,
      fn_hashtable id_hash Z.eqb ∅ (hashtable_init None) 5 (Some MUSE_NIL)
        = Some (m2, h2, MUSE_NIL) /\
      fn_hashtable id_hash Z.eqb m2 h2 5 None = Some (m2, h2, MUSE_NIL)).
Proof.
  apply (grown_table_identity id_hash Z.eqb Z.eqb_refl Z.eqb_sym eqb_key_trans
           id_hash_respects_eqb ∅ None [] ∅ (hashtable_init None) 5 10).
  - by vm_compute.
  - done.
  - split; by vm_compute.
  - done.
Defined.

Lemma hashtable_iterator_first_stop_witness :
  hashtable_iterator (fun c x => (negb (x =? 10), c + x)) demo_heap demo_table 0
    = Some (5, 10).
Proof.
  apply (hashtable_iterator_first_stop id_hash Z.eqb (fun x => negb (x =? 10))
           (fun c x => c + x) demo_heap demo_table demo_entries 0 demo_table_inv).
Defined.

Lemma hashtable_map_pairs_witness :
  exists (m' : heap) h' bs',
    hashtable_map id_hash (fun fn x => fn + x) demo_heap demo_table 1 = Some (m', h') /\
    table_inv m' h' bs' /\ placed id_hash (bucket_count h') bs' /\
    bucket_count h' = 1 /\ count h' = 1 /\
    kv_of <$> concat bs' ≡ₚ [(5, 11)] /\
    demo_heap ⊆ m' /\ table_inv m' demo_table demo_entries.
Proof.
  apply (hashtable_map_pairs id_hash Z.eqb (fun fn x => fn + x) demo_heap demo_table
           demo_entries 1 demo_table_inv).
  - by vm_compute.
  - by vm_compute.
  - intros e He. apply elem_of_cons in He as [-> | He]; [done | by apply elem_of_nil in He].
Defined.

Lemma hashtable_map_empty_witness :
  exists (m' : heap) h',
    hashtable_map id_hash (fun fn x => fn + x) ∅ (muse_mk_hashtable 7) 1 = Some (m', h') /\
    bucket_count h' = 0 /\ buckets h' = [] /\
    forall (m'' : heap) K value_arg, fn_hashtable id_hash Z.eqb m'' h' K value_arg = None.
Proof.
  destruct (mk_hashtable_empty ∅ 7) as (rbs & Hinv & _); [by vm_compute |].
  apply (hashtable_map_empty id_hash Z.eqb (fun fn x => fn + x) ∅ (muse_mk_hashtable 7) rbs 1
           Hinv).
  done.
Defined.

Lemma hashtable_reduce_foldl_witness :
  exists m' : heap,
    hashtable_reduce (fun fn a b => fn + a + b) demo_heap demo_table 1 100
      = Some (m', foldl (fun a b => 1 + a + b) 100 (e_val <$> concat demo_entries)) /\
    demo_heap ⊆ m' /\ table_inv m' demo_table demo_entries.
Proof.
  apply (hashtable_reduce_foldl id_hash Z.eqb (fun fn a b => fn + a + b) demo_heap demo_table
           demo_entries 1 100 demo_table_inv).
Defined.

Lemma hashtable_join_overwrites_witness :
  exists (m' : heap) r rbs,
    hashtable_join id_hash Z.eqb (fun fn a b => b) demo_heap demo_table
      (Some <$> [demo_table]) MUSE_NIL = Some (m', r) /\
    demo_heap ⊆ m' /\ table_inv m' r rbs /\
    hashtable_size r
      <= Z.of_nat (length (concat demo_entries ++ concat (@concat entry <$> [demo_entries]))) /\
    forall K, lookup_value id_hash Z.eqb m' r K =
              Some (last_value Z.eqb K
                      (concat demo_entries ++ concat (@concat entry <$> [demo_entries]))).
Proof.
  apply (hashtable_join_overwrites id_hash Z.eqb Z.eqb_refl Z.eqb_sym eqb_key_trans
           id_hash_respects_eqb (fun fn a b => b) demo_heap demo_table demo_entries
           [demo_table] [demo_entries] demo_table_inv).
  - constructor; [exact demo_table_inv | constructor].
  - by vm_compute.
  - by vm_compute.
  - intros e He. unfold demo_entries in He. simpl in He.
    apply elem_of_cons in He as [-> | He]; [done |].
    apply elem_of_cons in He as [-> | He]; [done | by apply elem_of_nil in He].
Defined.

Lemma hashtable_join_from_empty_witness :
  hashtable_join id_hash Z.eqb (fun fn a b => b) demo_heap (muse_mk_hashtable 7)
    [Some demo_table] MUSE_NIL = None.
Proof.
  destruct (mk_hashtable_empty demo_heap 7) as (rbs & Hinv & _); [by vm_compute |].
  apply (hashtable_join_from_empty id_hash Z.eqb (fun fn a b => b) demo_heap
           (muse_mk_hashtable 7) rbs demo_table demo_entries [] MUSE_NIL Hinv demo_table_inv);
    by vm_compute.
Defined.

Lemma hashtable_collect_filter_witness :
  exists (m' : heap) r rbs,
    hashtable_collect id_hash Z.eqb (fun fn a b => b)
      (fun fn k v => if v <? fn then 1 else 0) (fun _ => None)
      demo_heap demo_table 20 MUSE_NIL MUSE_NIL = Some (m', r) /\
    demo_heap ⊆ m' /\ table_inv m' r rbs /\ table_inv m' demo_table demo_entries /\
    hashtable_size r
      <= Z.of_nat (length (collected (fun fn k v => if v <? fn then 1 else 0) 20
                             (concat demo_entries))) /\
    forall K, lookup_value id_hash Z.eqb m' r K =
              Some (last_value Z.eqb K
                      (collected (fun fn k v => if v <? fn then 1 else 0) 20
                         (concat demo_entries))).
Proof.
  apply (hashtable_collect_filter id_hash Z.eqb Z.eqb_refl Z.eqb_sym eqb_key_trans
           id_hash_respects_eqb (fun fn a b => b) (fun fn k v => if v <? fn then 1 else 0)
           (fun _ => None) demo_heap demo_table demo_entries 20 demo_table_inv).
  - by vm_compute.
  - by vm_compute.
  - intros e He. unfold demo_entries in He. simpl in He.
    apply elem_of_cons in He as [-> | He]; [done | by apply elem_of_nil in He].
Defined.

End Hashtable.

(** ** Vectors ([muse_builtin_vector.c]) *)

Module Vector.
Import Cells.

Record vector_t := Vector {
  length : Z;                (* int length *)
  slots : list muse_cell     (* muse_cell *slots; NULL is the empty array *)
}.

(** What a call does: it returns, or a [muse_assert] fails (fatal, in a
    diagnostic build), or its behaviour is undefined (an access outside the
    slot array). *)
Inductive outcome (A : Type) :=
  | Returns (a : A)
  | AssertionFailed
  | Undefined.
Arguments Returns {A} a.
Arguments AssertionFailed {A}.
Arguments Undefined {A}.

Definition defined {A} (o : option A) : outcome A :=
  match o with
  | Some a => Returns a
  | None => Undefined
  end.

(** [muse_assert( cond )]: checked when [debug] is set (a diagnostic build),
    absent otherwise. *)
Definition assert_fails (debug : bool) (cond : bool) : bool := debug && negb cond.

(** A fresh object is zero-initialised by the protocol. *)
Definition zero_vector : vector_t := {| length := 0; slots := [] |}.

Definition vector_init_with_length (v : vector_t) (len : Z) : vector_t :=
  if decide (len > 0) then {| length := len; slots := calloc len |} else v.

Definition vector_init (args : option Z) : vector_t :=
  vector_init_with_length zero_vector
    (match args with Some n => to_int n | None => 0 end).

(** [fn_vector]: [args] are the evaluated arguments of the call.  The
    message of the [MUSE_DIAGNOSTICS] block does not change the result and
    is left out. *)
Definition fn_vector (debug : bool) (v : vector_t) (args : list Z)
  : outcome (vector_t * muse_cell) :=
  match args with
  | [] => Returns (v, MUSE_NIL)
  | a :: rest =>
    let index := to_int a in
    if assert_fails debug ((0 <=? index) && (index <? length v)) then AssertionFailed
    else
      match rest with
      | result :: _ =>
        defined (s ← arr_set (slots v) index result;
                 Some ({| length := length v; slots := s |}, result))
      | [] =>
        defined (x ← arr_get (slots v) index; Some (v, x))
      end
  end.

(** [muse_vector_get] and [muse_vector_put]; [v] is [None] when the cell is
    not a vector. *)
Definition muse_vector_get (debug : bool) (v : option vector_t) (index : Z)
  : outcome muse_cell :=
  if assert_fails debug (bool_decide (is_Some v)) then AssertionFailed
  else
    match v with
    | Some v =>
      if assert_fails debug ((0 <=? index) && (index <? length v)) then AssertionFailed
      else defined (arr_get (slots v) index)
    | None => Returns MUSE_NIL
    end.

Definition muse_vector_put (debug : bool) (v : option vector_t) (index : Z) (value : muse_cell)
  : outcome (option vector_t * muse_cell) :=
  if assert_fails debug (bool_decide (is_Some v)) then AssertionFailed
  else
    match v with
    | Some v =>
      if assert_fails debug ((0 <=? index) && (index <? length v)) then AssertionFailed
      else defined (s ← arr_set (slots v) index value;
                    Some (Some {| length := length v; slots := s |}, value))
    | None => Returns (None, MUSE_NIL)
    end.

(** The cell that a conversion returns: a new vector object, or NIL. *)
Inductive vector_cell :=
  | IsVector (v : vector_t)
  | IsNIL.

(** [fn_list_to_vector]: [lst] is the evaluated argument. *)
Definition fn_list_to_vector (m : heap) (lst : muse_cell) : outcome vector_cell :=
  match muse_list_length m lst with
  | None => Undefined
  | Some len =>
    if decide (len > 0) then
      let v := vector_init None in
      let v := vector_init_with_length v len in
      defined (s ← muse_list_extract m len lst (slots v);
               Some (IsVector {| length := length v; slots := s |}))
    else Returns IsNIL
  end.

(** [fn_vector_to_list]: [args] are the evaluated arguments after the
    vector, [from count step], each of them optional. *)
Definition fn_vector_to_list (debug : bool) (m : heap) (v : vector_t) (args : list Z)
  : outcome (heap * muse_cell) :=
  let from := match args with a :: _ => to_int a | [] => 0 end in
  let count :=
    match args with _ :: c :: _ => to_int c | _ => to_int (length v - from) end in
  let step := match args with _ :: _ :: s :: _ => to_int s | _ => 1 end in
  if assert_fails debug
       ((count >=? 0) && (from >=? 0)
        && (to_int (from + to_int (step * count)) <=? length v))
  then AssertionFailed
  else defined (muse_array_to_list m count (slots v) from step).

(** The representation invariant of a vector: the slot array has [length]
    cells, and [length] is a non-negative [int]. *)
Definition vector_inv (v : vector_t) : Prop :=
  0 <= length v < int_half /\ Z.of_nat (List.length (slots v)) = length v.

(** A vector as the code can leave it: [vector_trim] lowers [length] and
    keeps the slot array, so that the array can have more cells than
    [length]. *)
Definition vector_wf (v : vector_t) : Prop :=
  0 <= length v <= Z.of_nat (List.length (slots v)).

(** A list of cells in the heap. *)
Fixpoint is_list (m : heap) (c : muse_cell) (xs : list muse_cell) : Prop :=
  match xs with
  | [] => c = MUSE_NIL
  | x :: xs' =>
    c <> MUSE_NIL /\ exists next, m !! c = Some (Cons x next) /\ is_list m next xs'
  end.

(** *** Slot access *)

Lemma vector_init_inv args : vector_inv (vector_init args).
Proof.
  unfold vector_init, vector_init_with_length.
  set (len := match args with Some n => to_int n | None => 0 end).
  assert (is_int len) as [_ Hlen].
  { subst len. destruct args; [apply to_int_is_int | by vm_compute]. }
  case_decide.
  - split; simpl; [lia |]. rewrite length_calloc. lia.
  - by vm_compute.
Qed.

Lemma in_range_true i n : 0 <= i < n -> (0 <=? i) && (i <? n) = true.
Proof. intros H. apply andb_true_iff. split; [apply Z.leb_le | apply Z.ltb_lt]; lia. Qed.

Lemma in_range_false i n : ~ (0 <= i < n) -> (0 <=? i) && (i <? n) = false.
Proof.
  intros H. apply andb_false_iff.
  destruct (decide (0 <= i)); [right; apply Z.ltb_ge | left; apply Z.leb_gt]; lia.
Qed.

Lemma arr_get_out (a : list muse_cell) i :
  ~ (0 <= i < Z.of_nat (List.length a)) -> arr_get a i = None.
Proof.
  intros H. unfold arr_get. case_decide; [| done].
  apply lookup_ge_None. lia.
Qed.

Lemma arr_set_out (a : list muse_cell) i x :
  ~ (0 <= i < Z.of_nat (List.length a)) -> arr_set a i x = None.
Proof. intros H. unfold arr_set. by rewrite decide_False. Qed.

Lemma arr_get_in (a : list muse_cell) i :
  0 <= i < Z.of_nat (List.length a) ->
  exists x, a !! Z.to_nat i = Some x /\ arr_get a i = Some x.
Proof.
  intros H. destruct (lookup_lt_is_Some_2 a (Z.to_nat i)) as [x Hx]; [lia |].
  exists x. split; [done |]. unfold arr_get. by rewrite decide_True by lia.
Qed.

Lemma arr_set_in (a : list muse_cell) i x :
  0 <= i < Z.of_nat (List.length a) -> arr_set a i x = Some (<[Z.to_nat i := x]> a).
Proof. intros H. unfold arr_set. by rewrite decide_True. Qed.

Lemma vector_inv_wf (v : vector_t) : vector_inv v -> vector_wf v.
Proof. intros [Hlen Hslots]. unfold vector_wf. lia. Qed.

(** C7 (amended).  [fn_vector] cuts its index argument [i] to a C [int],
    [to_int i], before it checks it; [muse_vector_get] and [muse_vector_put]
    take an [int].  For a vector whose slot array has at least [length]
    cells and every integer [i]: when [0 <= to_int i < length], reading
    returns the content of slot [to_int i] and writing returns the value and
    changes that slot only, in every build; otherwise the assertion fails
    in a diagnostic build; in a build without assertions the access is
    undefined when [to_int i] is outside the slot array, and reads or writes
    the cell when [to_int i] is past the length but inside the array (a
    slot that [vector_trim] took off). *)
Theorem vector_bounds (debug : bool) (v : vector_t) (i value : Z) :
  vector_wf v ->
  (0 <= to_int i < length v ->
     (exists x, slots v !! Z.to_nat (to_int i) = Some x /\
                fn_vector debug v [i] = Returns (v, x) /\
                muse_vector_get debug (Some v) (to_int i) = Returns x) /\
     fn_vector debug v [i; value] =
       Returns ({| length := length v;
                   slots := <[Z.to_nat (to_int i) := value]> (slots v) |}, value) /\
     muse_vector_put debug (Some v) (to_int i) value =
       Returns (Some {| length := length v;
                        slots := <[Z.to_nat (to_int i) := value]> (slots v) |},
                value)) /\
  (~ (0 <= to_int i < length v) ->
     fn_vector true v [i] = AssertionFailed /\
     fn_vector true v [i; value] = AssertionFailed /\
     muse_vector_get true (Some v) (to_int i) = AssertionFailed /\
     muse_vector_put true (Some v) (to_int i) value = AssertionFailed) /\
  (~ (0 <= to_int i < Z.of_nat (List.length (slots v))) ->
     fn_vector false v [i] = Undefined /\
     fn_vector false v [i; value] = Undefined /\
     muse_vector_get false (Some v) (to_int i) = Undefined /\
     muse_vector_put false (Some v) (to_int i) value = Undefined) /\
  (length v <= to_int i < Z.of_nat (List.length (slots v)) ->
     (exists x, slots v !! Z.to_nat (to_int i) = Some x /\
                fn_vector false v [i] = Returns (v, x) /\
                muse_vector_get false (Some v) (to_int i) = Returns x) /\
     fn_vector false v [i; value] =
       Returns ({| length := length v;
                   slots := <[Z.to_nat (to_int i) := value]> (slots v) |}, value) /\
     muse_vector_put false (Some v) (to_int i) value =
       Returns (Some {| length := length v;
                        slots := <[Z.to_nat (to_int i) := value]> (slots v) |},
                value)).
Proof.
  intros Hwf. unfold vector_wf in Hwf.
  split; [| split; [| split]].
  - intros Hin.
    destruct (arr_get_in (slots v) (to_int i)) as (x & Hx & Hget); [lia |].
    unfold fn_vector, muse_vector_get, muse_vector_put, assert_fails.
    rewrite (in_range_true (to_int i) _ Hin), Hget, arr_set_in by lia.
    rewrite bool_decide_eq_true_2 by eauto. rewrite !andb_false_r. simpl.
    split; [| done]. by exists x.
  - intros Hout.
    unfold fn_vector, muse_vector_get, muse_vector_put, assert_fails.
    rewrite (in_range_false (to_int i) _ Hout).
    rewrite bool_decide_eq_true_2 by eauto. done.
  - intros Hout.
    unfold fn_vector, muse_vector_get, muse_vector_put, assert_fails.
    rewrite arr_get_out, arr_set_out by lia.
    rewrite bool_decide_eq_true_2 by eauto. done.
  - intros Hin.
    destruct (arr_get_in (slots v) (to_int i)) as (x & Hx & Hget); [lia |].
    unfold fn_vector, muse_vector_get, muse_vector_put, assert_fails.
    rewrite Hget, arr_set_in by lia. simpl.
    split; [| done]. by exists x.
Qed.

(** C7, as stated, fails for an index outside the range of a C [int]:
    4294967297 is not in [0, 3), but [fn_vector] cuts it to 1, so that on a
    vector of three slots the assertion of a diagnostic build holds, the get
    returns slot 1 and the set overwrites it. *)
Lemma vector_index_wraps :
  ~ (0 <= 4294967297 < 3) /\
  vector_inv {| length := 3; slots := [7; 8; 9] |} /\
  fn_vector true {| length := 3; slots := [7; 8; 9] |} [4294967297] =
    Returns ({| length := 3; slots := [7; 8; 9] |}, 8) /\
  fn_vector true {| length := 3; slots := [7; 8; 9] |} [4294967297; 5] =
    Returns ({| length := 3; slots := [7; 5; 9] |}, 5).
Proof.
  split; [lia |]. split; [by vm_compute |]. split; by vm_compute.
Qed.

Lemma vector_bounds_witness :
  vector_wf {| length := 2; slots := [7; 8; 0] |} /\
  0 <= to_int 4294967297 < 2 /\
  fn_vector true {| length := 2; slots := [7; 8; 0] |} [4294967297] =
    Returns ({| length := 2; slots := [7; 8; 0] |}, 8) /\
  fn_vector true {| length := 2; slots := [7; 8; 0] |} [4294967297; 5] =
    Returns ({| length := 2; slots := [7; 5; 0] |}, 5).
Proof.
  assert (vector_wf {| length := 2; slots := [7; 8; 0] |}) as Hwf by (by vm_compute).
  assert (0 <= to_int 4294967297 < 2) as Hi by (by vm_compute).
  split; [done |]. split; [done |].
  destruct (vector_bounds true {| length := 2; slots := [7; 8; 0] |} 4294967297 5 Hwf)
    as [Hin _].
  destruct (Hin Hi) as ((x & Hx & Hget & _) & Hset & _).
  vm_compute in Hx. injection Hx as <-. split; [exact Hget | exact Hset].
Defined.

(** *** Lists in the heap *)

Lemma is_list_insert_fresh (m : heap) a y xs : forall c,
  m !! a = None -> is_list m c xs -> is_list (<[a := y]> m) c xs.
Proof.
  induction xs as [|x xs IH]; intros c Ha; simpl; [done |].
  intros (Hnil & next & Hc & Hrest). split; [done |]. exists next.
  split; [| by apply IH]. rewrite lookup_insert_ne; [done |]. congruence.
Qed.

Lemma array_to_list_spec xs : forall (m : heap) pre post,
  exists (m' : heap) lst,
    array_to_list (List.length xs) m (pre ++ xs ++ post) (Z.of_nat (List.length pre)) 1
      = Some (m', lst) /\
    is_list m' lst xs /\
    size m' = (size m + List.length xs)%nat.
Proof.
  induction xs as [|x xs IH]; intros m pre post.
  - exists m, MUSE_NIL. simpl. split; [done |]. split; [done | lia].
  - destruct (IH m (pre ++ [x]) post) as (m1 & rest & Hrun & Hlist & Hsize).
    rewrite <- app_assoc in Hrun. simpl in Hrun.
    rewrite length_app in Hrun. simpl in Hrun.
    exists (<[fresh_cell m1 := Cons x rest]> m1), (fresh_cell m1).
    split.
    { cbn [List.length array_to_list]. rewrite arr_get_nat.
      rewrite lookup_app_r by lia. rewrite Nat.sub_diag. cbn [lookup list_lookup app].
      cbn [mbind option_bind].
      replace (Z.of_nat (List.length pre) + 1) with (Z.of_nat (List.length pre + 1)) by lia.
      rewrite Hrun. done. }
    split.
    { simpl. split; [apply fresh_cell_not_NIL |]. exists rest.
      rewrite lookup_insert_eq. split; [done |].
      apply is_list_insert_fresh; [apply fresh_cell_None | done]. }
    rewrite map_size_insert_None by apply fresh_cell_None. simpl. lia.
Qed.

Lemma list_length_loop_spec (m : heap) xs : forall fuel c n,
  is_list m c xs -> (List.length xs < fuel)%nat ->
  list_length_loop fuel m c n = Some (n + Z.of_nat (List.length xs)).
Proof.
  induction xs as [|x xs IH]; intros [|fuel] c n Hlist Hfuel; simpl in *; try lia.
  - subst c. rewrite decide_True by done. f_equal. lia.
  - destruct Hlist as (Hnil & next & Hc & Hrest).
    rewrite decide_False by done. unfold _tail. rewrite Hc. simpl.
    rewrite (IH fuel next (n + 1)) by (done || lia). f_equal. lia.
Qed.

Lemma list_extract_spec (m : heap) xs : forall c pre junk,
  is_list m c xs -> List.length junk = List.length xs ->
  list_extract (List.length xs) m c (pre ++ junk) (Z.of_nat (List.length pre))
    = Some (pre ++ xs).
Proof.
  induction xs as [|x xs IH]; intros c pre junk Hlist Hlen.
  - destruct junk; [| done]. done.
  - destruct junk as [|j junk]; [done |]. simpl in Hlen.
    destruct Hlist as (Hnil & next & Hc & Hrest).
    cbn [List.length list_extract]. unfold _head, _tail. rewrite Hc. simpl.
    rewrite arr_set_nat by (rewrite length_app; simpl; lia).
    simpl. rewrite insert_app_r_alt by lia. rewrite Nat.sub_diag. simpl.
    replace (Z.of_nat (List.length pre) + 1) with (Z.of_nat (List.length (pre ++ [x])))
      by (rewrite length_app; simpl; lia).
    replace (pre ++ x :: junk) with ((pre ++ [x]) ++ junk) by (by rewrite <- app_assoc).
    rewrite (IH next (pre ++ [x]) junk) by (done || lia).
    by rewrite <- app_assoc.
Qed.

(** *** The round trip through a list *)

(** C8 (amended).  For a vector that satisfies its representation
    invariant, [fn_vector_to_list] without a range returns a list; when the
    vector has at least one slot, [fn_list_to_vector] of that list returns a
    vector with the same length and the same slots, and when the vector is
    empty it returns NIL. *)
Theorem vector_list_round_trip (debug : bool) (m : heap) (v : vector_t) :
  vector_inv v ->
  exists (m' : heap) lst,
    fn_vector_to_list debug m v [] = Returns (m', lst) /\
    fn_list_to_vector m' lst =
      Returns (if decide (0 < length v)
               then IsVector {| length := length v; slots := slots v |}
               else IsNIL).
Proof.
  intros [Hlen Hslots].
  destruct (array_to_list_spec (slots v) m [] []) as (m' & lst & Hrun & Hlist & Hsize).
  rewrite app_nil_r in Hrun. simpl in Hrun. change (Z.of_nat 0) with 0 in Hrun.
  assert (to_int (length v - 0) = length v) as Hcount.
  { rewrite Z.sub_0_r. apply to_int_id. unfold is_int. lia. }
  exists m', lst. split.
  - unfold fn_vector_to_list, assert_fails. rewrite Hcount.
    replace (1 * length v) with (length v) by lia.
    rewrite (to_int_id (length v)) by (unfold is_int; lia).
    rewrite Z.add_0_l, (to_int_id (length v)) by (unfold is_int; lia).
    replace ((length v >=? 0) && (0 >=? 0) && (length v <=? length v)) with true.
    2: { symmetry. rewrite !andb_true_iff, Z.geb_le, Z.leb_le. lia. }
    rewrite andb_false_r. unfold muse_array_to_list.
    replace (Z.to_nat (length v)) with (List.length (slots v)) by lia.
    by rewrite Hrun.
  - unfold fn_list_to_vector, muse_list_length.
    rewrite (list_length_loop_spec m' (slots v)); [| done | unfold walk_fuel; lia].
    cbn [mbind option_bind]. rewrite Z.add_0_l, Hslots.
    rewrite (to_int_id (length v)) by (unfold is_int; lia).
    destruct (decide (0 < length v)) as [Hpos | Hzero].
    + rewrite decide_True by lia.
      unfold vector_init, vector_init_with_length. simpl.
      rewrite decide_True by lia. simpl.
      unfold muse_list_extract.
      replace (Z.to_nat (length v)) with (List.length (slots v)) by lia.
      pose proof (list_extract_spec m' (slots v) lst [] (calloc (length v)) Hlist) as Hex.
      rewrite length_calloc in Hex. specialize (Hex ltac:(lia)).
      simpl in Hex. change (Z.of_nat 0) with 0 in Hex. by rewrite Hex.
    + by rewrite decide_False by lia.
Qed.

Lemma vector_list_round_trip_witness :
  vector_inv {| length := 3; slots := [7; 8; 9] |} /\
  exists (m' : heap) lst,
    fn_vector_to_list true ∅ {| length := 3; slots := [7; 8; 9] |} [] = Returns (m', lst) /\
    fn_list_to_vector m' lst = Returns (IsVector {| length := 3; slots := [7; 8; 9] |}).
Proof.
  assert (vector_inv {| length := 3; slots := [7; 8; 9] |}) as Hinv by (by vm_compute).
  split; [done |].
  apply (vector_list_round_trip true ∅ {| length := 3; slots := [7; 8; 9] |} Hinv).
Defined.

(** C8, as stated, fails for the empty vector: its list is NIL, and
    [fn_list_to_vector] returns NIL for a list without elements, not a
    vector. *)
Lemma empty_vector_round_trip_is_NIL :
  vector_init (Some 0) = zero_vector /\
  fn_vector_to_list true ∅ zero_vector [] = Returns (∅, MUSE_NIL) /\
  fn_list_to_vector ∅ MUSE_NIL = Returns IsNIL /\
  (forall v, IsNIL <> IsVector v).
Proof. split; [done |]. split; [by vm_compute |]. split; [by vm_compute | done]. Qed.

(** *** Construction, the monad view and the iterator

    The functions below call back into the evaluator ([muse_apply], an
    iterator callback).  The evaluator is not part of this file: the applied
    functions are taken to compute their result from their arguments. *)

Definition outcome_bind {A B} (o : outcome A) (k : A -> outcome B) : outcome B :=
  match o with
  | Returns a => k a
  | AssertionFailed => AssertionFailed
  | Undefined => Undefined
  end.

(** [fn_mk_vector]: the object protocol runs [vector_init] on the zeroed
    object with the arguments of the call. *)
Definition fn_mk_vector (args : option Z) : vector_t := vector_init args.

(** [muse_mk_vector]. *)
Definition muse_mk_vector (debug : bool) (len : Z) : outcome vector_t :=
  if assert_fails debug (len >=? 0) then AssertionFailed
  else Returns (fn_mk_vector (Some len)).

(** [vector_size], the size of the monad view, is the [length] field. *)
Definition vector_size (v : vector_t) : Z := length v.

(** [muse_vector_length]; [v] is [None] when the cell is not a vector. *)
Definition muse_vector_length (debug : bool) (v : option vector_t) : outcome Z :=
  if assert_fails debug (bool_decide (is_Some v)) then AssertionFailed
  else Returns (match v with Some v => length v | None => 0 end).

(** The [for] loop of [fn_vector_from_args], from index [i] on: [args] are
    the arguments that [muse_evalnext] has not taken yet, as evaluated. *)
Fixpoint from_args_loop (n : nat) (i : Z) (args : list muse_cell) (s : list muse_cell)
  : option (list muse_cell) :=
  match n with
  | O => Some s
  | S n' =>
    match args with
    | a :: rest => s' ← arr_set s i a; from_args_loop n' (i + 1) rest s'
    | [] => s' ← arr_set s i MUSE_NIL; from_args_loop n' (i + 1) [] s'
    end
  end.

(** [fn_vector_from_args]: [(vector a1 ... aN)]. *)
Definition fn_vector_from_args (args : list muse_cell) : outcome vector_t :=
  let len := to_int (Z.of_nat (List.length args)) in
  let v := fn_mk_vector (Some len) in
  defined (s ← from_args_loop (Z.to_nat len) 0 args (slots v);
           Some {| length := length v; slots := s |}).

(** [vector_resize]: [realloc] keeps the cells that fit, [memset] clears
    the cells from the old length on. *)
Definition vector_resize (v : vector_t) (new_size : Z) : vector_t :=
  if decide (length v >= new_size) then v
  else {| length := new_size;
          slots := take (Z.to_nat (length v)) (slots v)
                   ++ replicate (Z.to_nat (new_size - length v)) MUSE_NIL |}.

(** [vector_trim]: the loop takes one slot off the length in each round, so
    [length v] rounds and the last test are all there is. *)
Fixpoint vector_trim_loop (fuel : nat) (v : vector_t) : option vector_t :=
  match fuel with
  | O => None
  | S fuel' =>
    if decide (length v > 0) then
      x ← arr_get (slots v) (length v - 1);
      if decide (x = MUSE_NIL)
      then vector_trim_loop fuel' {| length := to_int (length v - 1); slots := slots v |}
      else Some v
    else Some v
  end.

Definition vector_trim (v : vector_t) : option vector_t :=
  vector_trim_loop (S (Z.to_nat (length v))) v.

(** [memcpy( dst + offset, src, n cells )]; copying no cell touches
    nothing. *)
Definition memcpy (dst : list muse_cell) (offset : Z) (src : list muse_cell) (n : Z)
  : option (list muse_cell) :=
  if decide (n = 0) then Some dst
  else if decide (0 <= offset /\ 0 < n /\ offset + n <= Z.of_nat (List.length dst)
                  /\ n <= Z.of_nat (List.length src))
  then Some (take (Z.to_nat offset) dst ++ take (Z.to_nat n) src
             ++ drop (Z.to_nat (offset + n)) dst)
  else None.

(** [vector_join]: the first loop adds up the lengths, the second copies the
    slot arrays one after the other.  An element of [objlist] that is not a
    vector ([None]) is dereferenced as one.  The reduction function is not
    used. *)
Fixpoint join_length (total : Z) (objlist : list (option vector_t)) : option Z :=
  match objlist with
  | [] => Some total
  | obj :: rest => v2 ← obj; join_length (to_int (total + length v2)) rest
  end.

Fixpoint join_copy (s : list muse_cell) (offset : Z) (objlist : list (option vector_t))
  : option (list muse_cell) :=
  match objlist with
  | [] => Some s
  | obj :: rest =>
    v2 ← obj;
    s' ← memcpy s offset (slots v2) (length v2);
    join_copy s' (to_int (offset + length v2)) rest
  end.

Definition vector_join (debug : bool) (v1 : vector_t) (objlist : list (option vector_t))
    (reduction_fn : muse_cell) : outcome vector_t :=
  outcome_bind (defined (join_length (length v1) objlist)) (fun total_length =>
  outcome_bind (muse_mk_vector debug total_length) (fun result =>
  defined (s ← memcpy (slots result) 0 (slots v1) (length v1);
           s' ← join_copy s (length v1) objlist;
           Some {| length := length result; slots := s' |}))).

Section WithApply.

(** [muse_apply( fn, (x), MUSE_TRUE )] and [muse_apply( fn, (x y), MUSE_TRUE )]
    for a function cell [fn]; [muse_apply( fn, (ix . x), MUSE_TRUE )] for the
    argument list that [vector_collect] builds from an index and a slot. *)
Variable apply1 : muse_cell -> muse_cell -> muse_cell.
Variable apply2 : muse_cell -> muse_cell -> muse_cell -> muse_cell.
Variable apply_ix : muse_cell -> Z -> muse_cell -> muse_cell.

(** The result of the mapper of [vector_collect] is NIL or a pair
    [(new_ix . value)]; [mapper_result] reads such a cell. *)
Variable mapper_result : muse_cell -> option (Z * muse_cell).

Fixpoint map_loop (n : nat) (i : Z) (fn : muse_cell) (src dst : list muse_cell)
  : option (list muse_cell) :=
  match n with
  | O => Some dst
  | S n' =>
    x ← arr_get src i;
    dst' ← arr_set dst i (apply1 fn x);
    map_loop n' (i + 1) fn src dst'
  end.

Definition vector_map (debug : bool) (v : vector_t) (fn : muse_cell) : outcome vector_t :=
  outcome_bind (muse_mk_vector debug (length v)) (fun result =>
  defined (s ← map_loop (Z.to_nat (length v)) 0 fn (slots v) (slots result);
           Some {| length := length result; slots := s |})).

Fixpoint reduce_loop (n : nat) (i : Z) (reduction_fn : muse_cell) (s : list muse_cell)
    (result : muse_cell) : option muse_cell :=
  match n with
  | O => Some result
  | S n' =>
    x ← arr_get s i;
    reduce_loop n' (i + 1) reduction_fn s (apply2 reduction_fn result x)
  end.

Definition vector_reduce (v : vector_t) (reduction_fn initial : muse_cell) : option muse_cell :=
  reduce_loop (Z.to_nat (length v)) 0 reduction_fn (slots v) initial.

(** [vector_merge_one]; the slot is read only when there is a reduction
    function. *)
Definition vector_merge_one (v : vector_t) (i : Z) (new_value reduction_fn : muse_cell)
  : option vector_t :=
  old ← (if decide (reduction_fn = MUSE_NIL) then Some MUSE_NIL else arr_get (slots v) i);
  let x := if decide (reduction_fn <> MUSE_NIL /\ old <> MUSE_NIL)
           then apply2 reduction_fn old new_value else new_value in
  s ← arr_set (slots v) i x;
  Some {| length := length v; slots := s |}.

(** The loop of [vector_collect] over the indices [i, i+1, ...] of the
    source, with the running count [j] of the slots that passed. *)
Fixpoint collect_loop (n : nat) (i j : Z) (v1 : vector_t) (predicate mapper reduction_fn : muse_cell)
    (result : vector_t) : option vector_t :=
  match n with
  | O => Some result
  | S n' =>
    x ← arr_get (slots v1) i;
    if decide (predicate = MUSE_NIL \/ apply_ix predicate i x <> MUSE_NIL) then
      result' ←
        (if decide (mapper <> MUSE_NIL) then
           let m := apply_ix mapper j x in
           if decide (m <> MUSE_NIL) then
             '(new_ix, value) ← mapper_result m;
             vector_merge_one (vector_resize result (to_int (new_ix + 1))) (to_int new_ix)
               value reduction_fn
           else Some result
         else vector_merge_one result j x reduction_fn);
      collect_loop n' (i + 1) (to_int (j + 1)) v1 predicate mapper reduction_fn result'
    else collect_loop n' (i + 1) j v1 predicate mapper reduction_fn result
  end.

Definition vector_collect (debug : bool) (v1 : vector_t)
    (predicate mapper reduction_fn : muse_cell) : outcome vector_t :=
  outcome_bind (muse_mk_vector debug (length v1)) (fun result =>
  defined (r ← collect_loop (Z.to_nat (length v1)) 0 0 v1 predicate mapper reduction_fn result;
           vector_trim r)).

End WithApply.

(** [vector_iterator]: the callback gets the context and a slot and says
    whether to go on; the result is the index where it stopped, as an integer
    cell, or NIL. *)
Section WithCallback.

Context {C : Type}.
Variable callback : C -> muse_cell -> bool * C.

Fixpoint iterator_loop (n : nat) (i : Z) (s : list muse_cell) (context : C)
  : option (option Z * C) :=
  match n with
  | O => Some (None, context)
  | S n' =>
    x ← arr_get s i;
    let '(cont, context') := callback context x in
    if cont then iterator_loop n' (i + 1) s context' else Some (Some i, context')
  end.

Definition vector_iterator (self : vector_t) (context : C) : option (option Z * C) :=
  iterator_loop (Z.to_nat (length self)) 0 (slots self) context.

End WithCallback.

(** *** Fresh vectors, and a write followed by a read *)

Lemma to_int_small z : 0 <= z < int_half -> to_int z = z.
Proof. intros H. apply to_int_id. unfold is_int. lia. Qed.

Lemma lookup_calloc n (i : nat) : (i < Z.to_nat n)%nat -> calloc n !! i = Some MUSE_NIL.
Proof. intros H. unfold calloc. by apply lookup_replicate_2. Qed.

(** [(mk-vector n)]: the argument is cut to a C [int], [to_int n], which
    is [n] itself when [n] is in the range of an [int].  The result is a
    vector of [to_int n] slots that all read as NIL when [to_int n] is
    positive, and the empty vector otherwise; no length is refused. *)
Theorem mk_vector_slots (debug : bool) (n i : Z) :
  (is_int n -> to_int n = n) /\
  (to_int n <= 0 -> fn_mk_vector (Some n) = zero_vector) /\
  (0 <= i < to_int n ->
     vector_inv (fn_mk_vector (Some n)) /\ length (fn_mk_vector (Some n)) = to_int n /\
     fn_vector debug (fn_mk_vector (Some n)) [i] = Returns (fn_mk_vector (Some n), MUSE_NIL)).
Proof.
  split; [apply to_int_id |].
  unfold fn_mk_vector, vector_init, vector_init_with_length.
  pose proof (to_int_is_int n) as [_ Hn]. split.
  - intros Hle. by rewrite decide_False by lia.
  - intros Hi. rewrite decide_True by lia.
    split; [split; simpl; [lia | rewrite length_calloc; lia] |]. split; [done |].
    unfold fn_vector, assert_fails. cbn [length slots].
    rewrite (to_int_small i) by lia. rewrite (in_range_true i _ Hi), andb_false_r.
    unfold arr_get. rewrite decide_True by lia.
    rewrite lookup_calloc by lia. done.
Qed.

Lemma mk_vector_slots_witness :
  0 <= 1 < to_int 4294967298 /\
  length (fn_mk_vector (Some 4294967298)) = 2 /\
  fn_vector true (fn_mk_vector (Some 4294967298)) [1]
    = Returns (fn_mk_vector (Some 4294967298), MUSE_NIL).
Proof.
  assert (0 <= 1 < to_int 4294967298) as Hi by (by vm_compute).
  split; [done |].
  destruct (mk_vector_slots true 4294967298 1) as (_ & _ & Hin).
  destruct (Hin Hi) as (_ & Hlen & Hget). split; [| exact Hget].
  rewrite Hlen. by vm_compute.
Defined.

(** After slot [i] is set to [x], slot [i] reads as [x] and every other slot
    reads as it did before; the length stays. *)
Theorem vector_put_get (debug : bool) (v : vector_t) (i j x : Z) :
  vector_inv v -> 0 <= i < length v -> 0 <= j < length v ->
  exists v' old,
    fn_vector debug v [i; x] = Returns (v', x) /\
    vector_inv v' /\ length v' = length v /\
    fn_vector debug v [j] = Returns (v, old) /\
    fn_vector debug v' [j] = Returns (v', if decide (i = j) then x else old).
Proof.
  intros [Hlen Hslots] Hi Hj.
  destruct (arr_get_in (slots v) j) as (old & Hold & Hget); [lia |].
  exists {| length := length v; slots := <[Z.to_nat i := x]> (slots v) |}, old.
  unfold fn_vector, assert_fails. cbn [length slots].
  rewrite !(to_int_small i), !(to_int_small j) by lia.
  rewrite (in_range_true i _ Hi), (in_range_true j _ Hj), !andb_false_r.
  rewrite arr_set_in by lia. rewrite Hget. cbn [mbind option_bind defined].
  split; [done |]. split; [split; simpl; [done | rewrite length_insert; lia] |].
  split; [done |]. split; [done |].
  unfold arr_get. rewrite decide_True by lia.
  destruct (decide (i = j)) as [-> | Hne].
  - rewrite list_lookup_insert_eq by lia. done.
  - rewrite list_lookup_insert_ne by lia. rewrite Hold. done.
Qed.

Lemma vector_put_get_witness :
  exists v' old,
    fn_vector true {| length := 3; slots := [7; 8; 9] |} [1; 5] = Returns (v', 5) /\
    vector_inv v' /\ length v' = 3 /\
    fn_vector true {| length := 3; slots := [7; 8; 9] |} [2] =
      Returns ({| length := 3; slots := [7; 8; 9] |}, old) /\
    fn_vector true v' [2] = Returns (v', if decide (1 = 2) then 5 else old).
Proof.
  assert (vector_inv {| length := 3; slots := [7; 8; 9] |}) as Hinv by (by vm_compute).
  apply (vector_put_get true {| length := 3; slots := [7; 8; 9] |} 1 2 5 Hinv);
    simpl; lia.
Defined.

(** *** A vector from its elements *)

Lemma from_args_loop_spec (xs : list muse_cell) : forall pre junk,
  List.length junk = List.length xs ->
  from_args_loop (List.length xs) (Z.of_nat (List.length pre)) xs (pre ++ junk)
    = Some (pre ++ xs).
Proof.
  induction xs as [|x xs IH]; intros pre junk Hlen.
  - destruct junk; [done | done].
  - destruct junk as [|j junk]; [done |]. simpl in Hlen.
    cbn [List.length from_args_loop].
    rewrite arr_set_nat by (rewrite length_app; simpl; lia).
    cbn [mbind option_bind]. rewrite insert_app_r_alt by lia. rewrite Nat.sub_diag. simpl.
    replace (Z.of_nat (List.length pre) + 1) with (Z.of_nat (List.length (pre ++ [x])))
      by (rewrite length_app; simpl; lia).
    replace (pre ++ x :: junk) with ((pre ++ [x]) ++ junk) by (by rewrite <- app_assoc).
    rewrite (IH (pre ++ [x]) junk) by lia. by rewrite <- app_assoc.
Qed.

(** [(vector a1 ... aN)] is the vector of length [N] whose slots are the
    arguments in their order; without arguments it is the empty vector. *)
Theorem vector_from_args_slots (args : list muse_cell) :
  Z.of_nat (List.length args) < int_half ->
  fn_vector_from_args args =
    Returns {| length := Z.of_nat (List.length args); slots := args |} /\
  vector_inv {| length := Z.of_nat (List.length args); slots := args |}.
Proof.
  intros Hlen. split; [| split; simpl; lia].
  unfold fn_vector_from_args, fn_mk_vector, vector_init, vector_init_with_length.
  rewrite !(to_int_small (Z.of_nat (List.length args))) by lia.
  rewrite Nat2Z.id.
  destruct (decide (Z.of_nat (List.length args) > 0)) as [Hpos | Hzero].
  - cbn [length slots].
    pose proof (from_args_loop_spec args [] (calloc (Z.of_nat (List.length args)))) as H.
    rewrite length_calloc, Nat2Z.id in H. specialize (H eq_refl).
    simpl in H. change (Z.of_nat 0) with 0 in H. by rewrite H.
  - destruct args; [done | simpl in Hzero; lia].
Qed.

Lemma vector_from_args_slots_witness :
  fn_vector_from_args [7; 8; 9] = Returns {| length := 3; slots := [7; 8; 9] |} /\
  vector_inv {| length := 3; slots := [7; 8; 9] |}.
Proof.
  apply (vector_from_args_slots [7; 8; 9]). by vm_compute.
Defined.

(** *** Growing and trimming *)

(** [vector_resize] never shrinks a vector: the length becomes the larger of
    the two, the old slots keep their values and the new slots are NIL. *)
Theorem vector_resize_slots (v : vector_t) (new_size i : Z) :
  vector_inv v -> new_size < int_half ->
  vector_inv (vector_resize v new_size) /\
  length (vector_resize v new_size) = Z.max (length v) new_size /\
  (0 <= i < length v ->
     slots (vector_resize v new_size) !! Z.to_nat i = slots v !! Z.to_nat i) /\
  (length v <= i < new_size ->
     slots (vector_resize v new_size) !! Z.to_nat i = Some MUSE_NIL).
Proof.
  intros [Hlen Hslots] Hnew. unfold vector_resize.
  destruct (decide (length v >= new_size)) as [Hge | Hlt].
  - split; [done |]. split; [lia |]. split; [done | lia].
  - cbn [length slots]. rewrite firstn_all2 by lia.
    split; [split; simpl; [lia | rewrite length_app, length_replicate; lia] |].
    split; [lia |]. split.
    + intros Hi. by rewrite lookup_app_l by lia.
    + intros Hi. rewrite lookup_app_r by lia.
      apply lookup_replicate_2. lia.
Qed.

Lemma vector_resize_slots_witness :
  vector_inv (vector_resize {| length := 2; slots := [7; 8] |} 4) /\
  length (vector_resize {| length := 2; slots := [7; 8] |} 4) = 4 /\
  slots (vector_resize {| length := 2; slots := [7; 8] |} 4) !! 3%nat = Some MUSE_NIL.
Proof.
  assert (vector_inv {| length := 2; slots := [7; 8] |}) as Hinv by (by vm_compute).
  assert (4 < int_half) as Hnew by (by vm_compute).
  destruct (vector_resize_slots {| length := 2; slots := [7; 8] |} 4 3 Hinv Hnew)
    as (H1 & H2 & _ & H4).
  split; [done |]. split; [done |]. apply H4. simpl. lia.
Defined.

Lemma vector_trim_loop_spec (s : list muse_cell) : forall (fuel : nat) (n : Z),
  0 <= n <= Z.of_nat (List.length s) -> n < int_half -> (Z.to_nat n < fuel)%nat ->
  exists n',
    vector_trim_loop fuel {| length := n; slots := s |} = Some {| length := n'; slots := s |} /\
    0 <= n' <= n /\
    (forall i, n' <= i < n -> s !! Z.to_nat i = Some MUSE_NIL) /\
    (0 < n' -> exists x, s !! Z.to_nat (n' - 1) = Some x /\ x <> MUSE_NIL).
Proof.
  induction fuel as [|fuel IH]; intros n Hn Hint Hfuel; [lia |].
  cbn [vector_trim_loop length slots].
  destruct (decide (n > 0)) as [Hpos | Hzero].
  - destruct (arr_get_in s (n - 1)) as (x & Hx & Hget); [lia |].
    rewrite Hget. cbn [mbind option_bind].
    destruct (decide (x = MUSE_NIL)) as [-> | Hx0].
    + rewrite (to_int_small (n - 1)) by lia.
      destruct (IH (n - 1)) as (n' & Hrun & Hrange & Hnil & Hlast); [lia | lia | lia |].
      exists n'. split; [done |]. split; [lia |]. split; [| done].
      intros i Hi. destruct (decide (i = n - 1)) as [-> | Hne]; [done | apply Hnil; lia].
    + exists n. split; [done |]. split; [lia |]. split; [intros i Hi; lia |].
      intros _. by exists x.
  - exists n. split; [done |]. split; [lia |]. split; [intros i Hi; lia | lia].
Qed.

(** [vector_trim] takes the trailing NIL slots off the length and keeps the
    slot array: the slots it takes off are NIL, and the last slot that is
    left is not. *)
Theorem vector_trim_trailing (v : vector_t) :
  vector_inv v ->
  exists n',
    vector_trim v = Some {| length := n'; slots := slots v |} /\
    0 <= n' <= length v /\
    (forall i, n' <= i < length v -> slots v !! Z.to_nat i = Some MUSE_NIL) /\
    (0 < n' -> exists x, slots v !! Z.to_nat (n' - 1) = Some x /\ x <> MUSE_NIL).
Proof.
  intros [Hlen Hslots]. unfold vector_trim. destruct v as [n s].
  cbn [length slots] in *. apply vector_trim_loop_spec; lia.
Qed.

(** A vector that [vector_trim] returns has its [length] slots inside the
    slot array. *)
Lemma vector_trim_wf (v v' : vector_t) :
  vector_inv v -> vector_trim v = Some v' -> vector_wf v'.
Proof.
  intros [Hlen Hslots] Hrun. unfold vector_trim in Hrun. destruct v as [n s].
  cbn [length slots] in *.
  destruct (vector_trim_loop_spec s (S (Z.to_nat n)) n) as (n' & Hrun' & Hn' & _);
    [lia | lia | lia |].
  rewrite Hrun' in Hrun. injection Hrun as <-. unfold vector_wf. simpl. lia.
Qed.

Lemma vector_trim_trailing_witness :
  exists n',
    vector_trim {| length := 4; slots := [7; 0; 9; 0] |}
      = Some {| length := n'; slots := [7; 0; 9; 0] |} /\
    0 <= n' <= 4 /\
    (forall i, n' <= i < 4 -> [7; 0; 9; 0] !! Z.to_nat i = Some MUSE_NIL) /\
    (0 < n' -> exists x, [7; 0; 9; 0] !! Z.to_nat (n' - 1) = Some x /\ x <> MUSE_NIL).
Proof.
  apply (vector_trim_trailing {| length := 4; slots := [7; 0; 9; 0] |}). by vm_compute.
Defined.

(** *** Joining, mapping and reducing *)

Lemma mk_vector_calloc (n : Z) :
  0 <= n < int_half -> fn_mk_vector (Some n) = {| length := n; slots := calloc n |}.
Proof.
  intros Hn. unfold fn_mk_vector, vector_init, vector_init_with_length.
  rewrite (to_int_small n Hn). case_decide; [done |].
  by replace n with 0 by lia.
Qed.

Lemma muse_mk_vector_calloc (debug : bool) (n : Z) :
  0 <= n < int_half ->
  muse_mk_vector debug n = Returns {| length := n; slots := calloc n |}.
Proof.
  intros Hn. unfold muse_mk_vector, assert_fails.
  replace (n >=? 0) with true by (symmetry; apply Z.geb_le; lia).
  rewrite andb_false_r. by rewrite mk_vector_calloc.
Qed.

Lemma memcpy_app (pre junk rest src : list muse_cell) (n : Z) :
  n = Z.of_nat (List.length src) -> List.length junk = List.length src ->
  memcpy (pre ++ junk ++ rest) (Z.of_nat (List.length pre)) src n = Some (pre ++ src ++ rest).
Proof.
  intros -> Hlen. unfold memcpy.
  destruct (decide (Z.of_nat (List.length src) = 0)) as [Hz | Hnz].
  - destruct src; [| done]. by destruct junk.
  - rewrite decide_True by (rewrite !length_app; lia).
    rewrite !Nat2Z.id, take_app_length, firstn_all. do 2 f_equal.
    replace (Z.to_nat (Z.of_nat (List.length pre) + Z.of_nat (List.length src)))
      with (List.length pre + List.length junk)%nat by lia.
    rewrite <- drop_drop, drop_app_length. by rewrite drop_app_length.
Qed.

(** The sum of the lengths of a list of vectors. *)
Definition total_length (vs : list vector_t) : Z := foldr (fun v acc => length v + acc) 0 vs.

Lemma total_length_cons v vs : total_length (v :: vs) = length v + total_length vs.
Proof. done. Qed.

Lemma total_length_nonneg vs : Forall vector_inv vs -> 0 <= total_length vs.
Proof. unfold total_length. induction 1 as [|v vs [Hv _] _ IH]; simpl; lia. Qed.

Lemma total_length_slots vs :
  Forall vector_inv vs -> Z.of_nat (List.length (concat (slots <$> vs))) = total_length vs.
Proof.
  unfold total_length.
  induction 1 as [|v vs [_ Hv] _ IH]; simpl; [done |].
  rewrite length_app, Nat2Z.inj_add, Hv. f_equal. exact IH.
Qed.

Lemma join_length_spec vs : forall total,
  Forall vector_inv vs -> 0 <= total -> total + total_length vs < int_half ->
  join_length total (Some <$> vs) = Some (total + total_length vs).
Proof.
  induction vs as [|v vs IH]; intros total Hvs Htot Hsum.
  - simpl. f_equal. unfold total_length. simpl. lia.
  - rewrite total_length_cons in *. rewrite fmap_cons. cbn [join_length mbind option_bind].
    apply Forall_cons in Hvs as [[Hv _] Hvs].
    pose proof (total_length_nonneg vs Hvs).
    rewrite (to_int_small (total + length v)) by lia.
    rewrite IH by (done || lia). f_equal. lia.
Qed.

Lemma join_copy_spec vs : forall pre junk,
  Forall vector_inv vs -> List.length junk = List.length (concat (slots <$> vs)) ->
  Z.of_nat (List.length pre) + total_length vs < int_half ->
  join_copy (pre ++ junk) (Z.of_nat (List.length pre)) (Some <$> vs)
    = Some (pre ++ concat (slots <$> vs)).
Proof.
  induction vs as [|v vs IH]; intros pre junk Hvs Hlen Hsum.
  - destruct junk; [done | done].
  - rewrite total_length_cons in Hsum. rewrite !fmap_cons in *.
    cbn [join_copy concat mbind option_bind] in *.
    apply Forall_cons in Hvs as [[Hv Hs] Hvs].
    pose proof (total_length_nonneg vs Hvs).
    rewrite length_app in Hlen.
    rewrite <- (take_drop (List.length (slots v)) junk).
    rewrite (memcpy_app pre (take (List.length (slots v)) junk)
               (drop (List.length (slots v)) junk) (slots v) (length v))
      by (done || rewrite length_take; lia).
    cbn [mbind option_bind].
    rewrite (to_int_small (Z.of_nat (List.length pre) + length v)) by lia.
    replace (Z.of_nat (List.length pre) + length v)
      with (Z.of_nat (List.length (pre ++ slots v))) by (rewrite length_app; lia).
    rewrite (app_assoc pre (slots v)).
    rewrite IH; [by rewrite <- app_assoc | done | rewrite length_drop; lia |].
    rewrite length_app. lia.
Qed.

(** [vector_join] returns the concatenation: the slots of the vector
    itself followed by the slots of the vectors of the list, in their order,
    whatever the reduction function is. *)
Theorem vector_join_concat (debug : bool) (v1 : vector_t) (vs : list vector_t)
    (reduction_fn : muse_cell) :
  vector_inv v1 -> Forall vector_inv vs -> length v1 + total_length vs < int_half ->
  vector_join debug v1 (Some <$> vs) reduction_fn =
    Returns {| length := length v1 + total_length vs;
               slots := slots v1 ++ concat (slots <$> vs) |}.
Proof.
  intros [Hlen Hslots] Hvs Hsum. unfold vector_join.
  pose proof (total_length_nonneg vs Hvs) as Hnn.
  pose proof (total_length_slots vs Hvs) as Hcat.
  rewrite join_length_spec by (done || lia). cbn [defined outcome_bind].
  rewrite muse_mk_vector_calloc by lia. cbn [outcome_bind length slots].
  set (junk1 := replicate (List.length (slots v1)) MUSE_NIL).
  set (junk2 := replicate (List.length (concat (slots <$> vs))) MUSE_NIL).
  assert (calloc (length v1 + total_length vs) = [] ++ junk1 ++ junk2) as ->.
  { unfold calloc, junk1, junk2. rewrite <- replicate_add. simpl. f_equal. lia. }
  change 0 with (Z.of_nat (List.length (@nil muse_cell))).
  rewrite (memcpy_app [] junk1 junk2 (slots v1) (length v1))
    by (done || unfold junk1; by rewrite length_replicate).
  cbn [mbind option_bind app]. rewrite <- Hslots.
  rewrite join_copy_spec; [done | done | unfold junk2; by rewrite length_replicate | lia].
Qed.

Lemma vector_join_concat_witness :
  vector_join true {| length := 1; slots := [7] |}
      [Some {| length := 2; slots := [8; 9] |}; Some zero_vector] 5 =
    Returns {| length := 3; slots := [7; 8; 9] |}.
Proof.
  assert (vector_inv {| length := 1; slots := [7] |}) as H1 by (by vm_compute).
  assert (Forall vector_inv [{| length := 2; slots := [8; 9] |}; zero_vector]) as H2.
  { repeat constructor; by vm_compute. }
  apply (vector_join_concat true {| length := 1; slots := [7] |}
           [{| length := 2; slots := [8; 9] |}; zero_vector] 5 H1 H2).
  by vm_compute.
Defined.

Section ApplyFacts.

Variable apply1 : muse_cell -> muse_cell -> muse_cell.
Variable apply2 : muse_cell -> muse_cell -> muse_cell -> muse_cell.

Lemma map_loop_spec (fn : muse_cell) (xs : list muse_cell) : forall seen junk,
  List.length junk = List.length xs ->
  map_loop apply1 (List.length xs) (Z.of_nat (List.length seen)) fn (seen ++ xs)
      ((apply1 fn <$> seen) ++ junk)
    = Some (apply1 fn <$> (seen ++ xs)).
Proof.
  induction xs as [|x xs IH]; intros seen junk Hlen.
  - destruct junk; [| done]. by rewrite !app_nil_r.
  - destruct junk as [|j junk]; [done |]. simpl in Hlen.
    cbn [List.length map_loop]. rewrite arr_get_nat.
    rewrite list_lookup_middle by done. cbn [mbind option_bind].
    replace (Z.of_nat (List.length seen)) with (Z.of_nat (List.length (apply1 fn <$> seen)))
      by (by rewrite length_fmap).
    rewrite arr_set_nat by (rewrite length_app; simpl; lia).
    cbn [mbind option_bind]. rewrite insert_app_r_alt by lia. rewrite Nat.sub_diag. simpl.
    rewrite length_fmap.
    replace (Z.of_nat (List.length seen) + 1) with (Z.of_nat (List.length (seen ++ [x])))
      by (rewrite length_app; simpl; lia).
    replace (seen ++ x :: xs) with ((seen ++ [x]) ++ xs) by (by rewrite <- app_assoc).
    replace ((apply1 fn <$> seen) ++ apply1 fn x :: junk)
      with ((apply1 fn <$> (seen ++ [x])) ++ junk)
      by (by rewrite fmap_app, <- app_assoc).
    apply IH. lia.
Qed.

(** [vector_map] returns a new vector of the same length whose slot [i] is
    the function applied to slot [i] of the source. *)
Theorem vector_map_slots (debug : bool) (v : vector_t) (fn : muse_cell) :
  vector_inv v ->
  vector_map apply1 debug v fn =
    Returns {| length := length v; slots := apply1 fn <$> slots v |}.
Proof.
  intros [Hlen Hslots]. unfold vector_map.
  rewrite muse_mk_vector_calloc by done. cbn [outcome_bind length slots].
  replace (Z.to_nat (length v)) with (List.length (slots v)) by lia.
  pose proof (map_loop_spec fn (slots v) [] (calloc (length v))) as H.
  rewrite length_calloc in H. specialize (H ltac:(lia)).
  simpl in H. change (Z.of_nat 0) with 0 in H. by rewrite H.
Qed.

Lemma reduce_loop_spec (fn : muse_cell) (xs : list muse_cell) : forall seen r,
  reduce_loop apply2 (List.length xs) (Z.of_nat (List.length seen)) fn (seen ++ xs) r
    = Some (foldl (apply2 fn) r xs).
Proof.
  induction xs as [|x xs IH]; intros seen r; [done |].
  cbn [List.length reduce_loop]. rewrite arr_get_nat.
  rewrite list_lookup_middle by done. cbn [mbind option_bind].
  replace (Z.of_nat (List.length seen) + 1) with (Z.of_nat (List.length (seen ++ [x])))
    by (rewrite length_app; simpl; lia).
  replace (seen ++ x :: xs) with ((seen ++ [x]) ++ xs) by (by rewrite <- app_assoc).
  by rewrite IH.
Qed.

(** [vector_reduce] folds the slots from the left, starting from the
    initial value: for the empty vector the result is the initial value. *)
Theorem vector_reduce_foldl (v : vector_t) (reduction_fn initial : muse_cell) :
  vector_inv v ->
  vector_reduce apply2 v reduction_fn initial
    = Some (foldl (apply2 reduction_fn) initial (slots v)).
Proof.
  intros [Hlen Hslots]. unfold vector_reduce.
  replace (Z.to_nat (length v)) with (List.length (slots v)) by lia.
  apply (reduce_loop_spec reduction_fn (slots v) [] initial).
Qed.

End ApplyFacts.

Lemma vector_map_slots_witness :
  vector_map (fun fn x => fn + x) true {| length := 3; slots := [7; 8; 9] |} 1 =
    Returns {| length := 3; slots := [8; 9; 10] |}.
Proof.
  apply (vector_map_slots (fun fn x => fn + x) true {| length := 3; slots := [7; 8; 9] |} 1).
  by vm_compute.
Defined.

Lemma vector_reduce_foldl_witness :
  vector_reduce (fun fn a b => fn * a + b) {| length := 3; slots := [7; 8; 9] |} 10 0 =
    Some 789.
Proof.
  apply (vector_reduce_foldl (fun fn a b => fn * a + b)
           {| length := 3; slots := [7; 8; 9] |} 10 0).
  by vm_compute.
Defined.

(** *** The iterator *)

Section IteratorFacts.

Context {C : Type}.
(** A callback that decides to go on from the slot alone ([go_on]) and
    updates its context with [visit]. *)
Variable go_on : muse_cell -> bool.
Variable visit : C -> muse_cell -> C.

Lemma iterator_loop_spec (xs : list muse_cell) : forall seen context,
  iterator_loop (fun c x => (go_on x, visit c x)) (List.length xs)
      (Z.of_nat (List.length seen)) (seen ++ xs) context
    = Some (match list_find (fun x => go_on x = false) xs with
            | Some (i, _) =>
              (Some (Z.of_nat (List.length seen + i)), foldl visit context (take (S i) xs))
            | None => (None, foldl visit context xs)
            end).
Proof.
  induction xs as [|x xs IH]; intros seen context; [done |].
  cbn [List.length iterator_loop]. rewrite arr_get_nat.
  rewrite list_lookup_middle by done. cbn [mbind option_bind list_find].
  destruct (go_on x) eqn:Hx.
  - rewrite decide_False by done.
    replace (Z.of_nat (List.length seen) + 1) with (Z.of_nat (List.length (seen ++ [x])))
      by (rewrite length_app; simpl; lia).
    replace (seen ++ x :: xs) with ((seen ++ [x]) ++ xs) by (by rewrite <- app_assoc).
    rewrite IH. destruct (list_find _ xs) as [[i y]|]; simpl; [| done].
    rewrite length_app. simpl. do 3 f_equal. lia.
  - rewrite decide_True by done. simpl. by rewrite Nat.add_0_r.
Qed.

(** [vector_iterator] visits the slots in index order and stops at the
    first slot on which the callback says stop: it returns that index, or
    NIL ([None]) when the callback never says stop, in which case every slot
    has been visited. *)
Theorem vector_iterator_first_stop (v : vector_t) (context : C) :
  vector_inv v ->
  vector_iterator (fun c x => (go_on x, visit c x)) v context
    = Some (match list_find (fun x => go_on x = false) (slots v) with
            | Some (i, _) => (Some (Z.of_nat i), foldl visit context (take (S i) (slots v)))
            | None => (None, foldl visit context (slots v))
            end).
Proof.
  intros [Hlen Hslots]. unfold vector_iterator.
  replace (Z.to_nat (length v)) with (List.length (slots v)) by lia.
  apply (iterator_loop_spec (slots v) [] context).
Qed.

End IteratorFacts.

Lemma vector_iterator_first_stop_witness :
  vector_iterator (fun c x => (negb (x =? 8), c + x)) {| length := 3; slots := [7; 8; 9] |} 0
    = Some (Some 1, 15).
Proof.
  apply (vector_iterator_first_stop (fun x => negb (x =? 8)) (fun c x => c + x)
           {| length := 3; slots := [7; 8; 9] |} 0).
  by vm_compute.
Defined.

(** *** Collecting the slots that pass a predicate *)

Section CollectFacts.

Variable apply2 : muse_cell -> muse_cell -> muse_cell -> muse_cell.
Variable apply_ix : muse_cell -> Z -> muse_cell -> muse_cell.
Variable mapper_result : muse_cell -> option (Z * muse_cell).

(** The slots that pass the predicate, in their order; [i] is the index of
    the first of [xs].  Without a predicate every slot passes. *)
Fixpoint kept (predicate : muse_cell) (i : Z) (xs : list muse_cell) : list muse_cell :=
  match xs with
  | [] => []
  | x :: xs' =>
    if decide (predicate = MUSE_NIL \/ apply_ix predicate i x <> MUSE_NIL)
    then x :: kept predicate (i + 1) xs'
    else kept predicate (i + 1) xs'
  end.

Lemma length_kept predicate xs : forall i,
  (List.length (kept predicate i xs) <= List.length xs)%nat.
Proof.
  induction xs as [|x xs IH]; intros i; simpl; [lia |].
  case_decide; simpl; specialize (IH (i + 1)); lia.
Qed.

Lemma collect_loop_spec (v1 : vector_t) (predicate : muse_cell) (len : Z) (xs : list muse_cell) :
  forall seen pre junk,
  slots v1 = seen ++ xs -> (List.length xs <= List.length junk)%nat ->
  Z.of_nat (List.length pre) + Z.of_nat (List.length xs) < int_half ->
  collect_loop apply2 apply_ix mapper_result (List.length xs)
      (Z.of_nat (List.length seen)) (Z.of_nat (List.length pre))
      v1 predicate MUSE_NIL MUSE_NIL {| length := len; slots := pre ++ junk |}
    = Some {| length := len;
              slots := pre ++ kept predicate (Z.of_nat (List.length seen)) xs
                       ++ drop (List.length (kept predicate (Z.of_nat (List.length seen)) xs))
                            junk |}.
Proof.
  induction xs as [|x xs IH]; intros seen pre junk Hsrc Hlen Hint; [done |].
  cbn [List.length collect_loop kept]. rewrite arr_get_nat, Hsrc.
  rewrite list_lookup_middle by done. cbn [mbind option_bind].
  simpl in Hlen, Hint.
  assert (Z.of_nat (List.length seen) + 1 = Z.of_nat (List.length (seen ++ [x]))) as Hnext
    by (rewrite length_app; simpl; lia).
  assert (slots v1 = (seen ++ [x]) ++ xs) as Hsrc' by (by rewrite <- app_assoc).
  destruct (decide (predicate = MUSE_NIL \/
                    apply_ix predicate (Z.of_nat (List.length seen)) x <> MUSE_NIL))
    as [Hpass | Hfail].
  - rewrite (decide_False (P := MUSE_NIL <> MUSE_NIL)) by (intros Hc; by apply Hc).
    destruct junk as [|j0 junk]; [simpl in Hlen; lia |]. simpl in Hlen.
    unfold vector_merge_one. rewrite decide_True by done. cbn [mbind option_bind slots length].
    rewrite (decide_False (P := MUSE_NIL <> MUSE_NIL /\ _)) by (intros [Hc _]; by apply Hc).
    rewrite arr_set_nat by (rewrite length_app; simpl; lia).
    cbn [mbind option_bind]. rewrite insert_app_r_alt by lia. rewrite Nat.sub_diag.
    cbn [insert list_insert].
    rewrite (to_int_small (Z.of_nat (List.length pre) + 1)) by lia.
    replace (Z.of_nat (List.length pre) + 1) with (Z.of_nat (List.length (pre ++ [x])))
      by (rewrite length_app; simpl; lia).
    replace (pre ++ x :: junk) with ((pre ++ [x]) ++ junk) by (by rewrite <- app_assoc).
    rewrite Hnext.
    rewrite (IH (seen ++ [x]) (pre ++ [x]) junk Hsrc') by (rewrite ?length_app; simpl; lia).
    by rewrite <- app_assoc.
  - rewrite Hnext. apply (IH (seen ++ [x]) pre junk Hsrc'); lia.
Qed.

(** Without a mapper and a reduction function, [vector_collect] moves the
    slots that pass the predicate to the front, in their order, and takes
    the trailing NIL slots off the length: passing slots that are NIL and
    come last are not counted. *)
Theorem vector_collect_filter (debug : bool) (v : vector_t) (predicate : muse_cell) :
  vector_inv v ->
  exists n',
    vector_collect apply2 apply_ix mapper_result debug v predicate MUSE_NIL MUSE_NIL =
      Returns {| length := n';
                 slots := kept predicate 0 (slots v)
                          ++ replicate (List.length (slots v)
                                        - List.length (kept predicate 0 (slots v))) MUSE_NIL |} /\
    0 <= n' <= Z.of_nat (List.length (kept predicate 0 (slots v))) /\
    (forall i, n' <= i < Z.of_nat (List.length (kept predicate 0 (slots v))) ->
       kept predicate 0 (slots v) !! Z.to_nat i = Some MUSE_NIL) /\
    (0 < n' ->
       exists x, kept predicate 0 (slots v) !! Z.to_nat (n' - 1) = Some x /\ x <> MUSE_NIL).
Proof.
  intros [Hlen Hslots]. unfold vector_collect.
  rewrite muse_mk_vector_calloc by done. cbn [outcome_bind].
  replace (Z.to_nat (length v)) with (List.length (slots v)) by lia.
  pose proof (collect_loop_spec v predicate (length v) (slots v) [] [] (calloc (length v))
                eq_refl) as Hloop.
  rewrite length_calloc in Hloop. specialize (Hloop ltac:(lia) ltac:(simpl; lia)).
  simpl in Hloop. change (Z.of_nat 0) with 0 in Hloop. rewrite Hloop.
  cbn [mbind option_bind]. clear Hloop.
  set (ks := kept predicate 0 (slots v)).
  pose proof (length_kept predicate (slots v) 0) as Hks. fold ks in Hks.
  assert (drop (List.length ks) (calloc (length v))
          = replicate (List.length (slots v) - List.length ks) MUSE_NIL) as ->.
  { unfold calloc. rewrite drop_replicate. f_equal. lia. }
  set (s := ks ++ replicate (List.length (slots v) - List.length ks) MUSE_NIL).
  assert (List.length s = List.length (slots v)) as Hs.
  { unfold s. rewrite length_app, length_replicate. lia. }
  destruct (vector_trim_loop_spec s (S (Z.to_nat (length v))) (length v))
    as (n' & Hrun & Hrange & Hnil & Hlast); [lia | lia | lia |].
  assert (n' <= Z.of_nat (List.length ks)) as Hn'.
  { destruct (decide (n' <= Z.of_nat (List.length ks))) as [| Hgt]; [done |].
    destruct Hlast as (x & Hx & Hx0); [lia |].
    unfold s in Hx. rewrite lookup_app_r in Hx by lia.
    apply lookup_replicate in Hx as [-> _]. done. }
  exists n'. unfold vector_trim. cbn [length]. rewrite Hrun. cbn [defined].
  split; [done |]. split; [lia |]. split.
  - intros i Hi. rewrite <- (Hnil i) by lia. unfold s. by rewrite lookup_app_l by lia.
  - intros Hpos. destruct (Hlast Hpos) as (x & Hx & Hx0). exists x. split; [| done].
    rewrite <- Hx. unfold s. by rewrite lookup_app_l by lia.
Qed.

End CollectFacts.

Lemma vector_collect_filter_witness :
  exists n',
    vector_collect (fun fn a b => a) (fun fn i x => if x =? 8 then 0 else 1)
        (fun m => None) true {| length := 4; slots := [7; 8; 9; 0] |} 5 MUSE_NIL MUSE_NIL
      = Returns {| length := n'; slots := [7; 9; 0; 0] |} /\
    0 <= n' <= 3.
Proof.
  assert (vector_inv {| length := 4; slots := [7; 8; 9; 0] |}) as Hinv by (by vm_compute).
  destruct (vector_collect_filter (fun fn a b => a) (fun fn i x => if x =? 8 then 0 else 1)
              (fun m => None) true {| length := 4; slots := [7; 8; 9; 0] |} 5 Hinv)
    as (n' & Hrun & Hrange & _).
  exists n'. split; [exact Hrun | exact Hrange].
Defined.

(** *** A range of a vector as a list *)

Lemma array_to_list_stride (xs : list muse_cell) : forall (m : heap) array from step,
  (forall k : nat, (k < List.length xs)%nat ->
     arr_get array (from + Z.of_nat k * step) = xs !! k) ->
  exists (m' : heap) lst,
    array_to_list (List.length xs) m array from step = Some (m', lst) /\
    is_list m' lst xs /\ m ⊆ m'.
Proof.
  induction xs as [|x xs IH]; intros m array from step Hget.
  - exists m, MUSE_NIL. done.
  - destruct (IH m array (from + step) step) as (m1 & rest & Hrun & Hlist & Hsub).
    { intros k Hk. transitivity ((x :: xs) !! S k); [| done].
      rewrite <- (Hget (S k)) by (simpl; lia). f_equal. lia. }
    exists (<[fresh_cell m1 := Cons x rest]> m1), (fresh_cell m1).
    cbn [List.length array_to_list].
    pose proof (Hget 0%nat ltac:(simpl; lia)) as H0.
    rewrite Z.mul_0_l, Z.add_0_r in H0. rewrite H0. cbn [lookup list_lookup mbind option_bind].
    rewrite Hrun. cbn [mbind option_bind]. split; [done |]. split.
    + simpl. split; [apply fresh_cell_not_NIL |]. exists rest.
      rewrite lookup_insert_eq. split; [done |].
      apply is_list_insert_fresh; [apply fresh_cell_None | done].
    + apply insert_subseteq_r; [| done].
      eapply lookup_weaken_None; [apply fresh_cell_None | done].
Qed.

(** [(vector->list v from count step)] with a positive step returns a new
    list of the [count] slots [from], [from + step], ..., as long as
    [from + step * count] does not pass the length; the cells that were in
    the heap are not changed. *)
Theorem vector_to_list_range (debug : bool) (m : heap) (v : vector_t) (from count step : Z) :
  vector_inv v -> 0 <= from -> 0 <= count -> 1 <= step < int_half ->
  from + step * count <= length v ->
  exists (m' : heap) lst xs,
    fn_vector_to_list debug m v [from; count; step] = Returns (m', lst) /\
    is_list m' lst xs /\ m ⊆ m' /\
    Z.of_nat (List.length xs) = count /\
    (forall k, 0 <= k < count ->
       xs !! Z.to_nat k = slots v !! Z.to_nat (from + k * step)).
Proof.
  intros [Hlen Hslots] Hfrom Hcount Hstep Hend.
  assert (0 <= step * count <= length v) as Hsc by nia.
  assert (count <= length v) as Hcl by nia.
  set (xs := (fun k : nat => default MUSE_NIL (slots v !! Z.to_nat (from + Z.of_nat k * step)))
               <$> seq 0 (Z.to_nat count)).
  assert (List.length xs = Z.to_nat count) as Hxs.
  { unfold xs. by rewrite length_fmap, length_seq. }
  assert (forall k : nat, (k < Z.to_nat count)%nat ->
            xs !! k = slots v !! Z.to_nat (from + Z.of_nat k * step)) as Hnth.
  { intros k Hk. unfold xs. rewrite list_lookup_fmap, lookup_seq_lt by done. simpl.
    destruct (lookup_lt_is_Some_2 (slots v) (Z.to_nat (from + Z.of_nat k * step)))
      as [y ->]; [nia | done]. }
  destruct (array_to_list_stride xs m (slots v) from step) as (m' & lst & Hrun & Hlist & Hsub).
  { intros k Hk. rewrite Hnth by lia. unfold arr_get. by rewrite decide_True by nia. }
  exists m', lst, xs. split.
  - unfold fn_vector_to_list, assert_fails.
    rewrite (to_int_small from), (to_int_small count), (to_int_small step) by lia.
    rewrite (to_int_small (step * count)) by lia.
    rewrite (to_int_small (from + step * count)) by lia.
    replace ((count >=? 0) && (from >=? 0) && (from + step * count <=? length v)) with true.
    2: { symmetry. rewrite !andb_true_iff, !Z.geb_le, Z.leb_le. lia. }
    rewrite andb_false_r. unfold muse_array_to_list. rewrite <- Hxs, Hrun. done.
  - split; [done |]. split; [done |]. split; [lia |].
    intros k Hk. rewrite (Hnth (Z.to_nat k)) by lia. by rewrite Z2Nat.id by lia.
Qed.

Lemma vector_to_list_range_witness :
  exists (m' : heap) lst xs,
    fn_vector_to_list true ∅ {| length := 5; slots := [5; 6; 7; 8; 9] |} [1; 2; 2]
      = Returns (m', lst) /\
    is_list m' lst xs /\ ∅ ⊆ m' /\
    Z.of_nat (List.length xs) = 2 /\
    (forall k, 0 <= k < 2 ->
       xs !! Z.to_nat k = [5; 6; 7; 8; 9] !! Z.to_nat (1 + k * 2)).
Proof.
  assert (vector_inv {| length := 5; slots := [5; 6; 7; 8; 9] |}) as Hinv by (by vm_compute).
  assert (1 <= 2 < int_half) as Hstep by (by vm_compute).
  apply (vector_to_list_range true ∅ {| length := 5; slots := [5; 6; 7; 8; 9] |} 1 2 2
           Hinv ltac:(lia) ltac:(lia) Hstep).
  simpl. lia.
Defined.

End Vector.

(** ** Hashtables and association lists ([muse_builtin_hashtable.c]) *)

Module HashtableAlist.
Import Cells Hashtable.

(** The [for] loop of [fn_hashtable_to_alist] over the buckets
    [i, i+1, ...]: the pairs of a bucket that is not empty are copied to
    [kvpairs_iter], which moves on by the size of the bucket. *)
Fixpoint to_alist_buckets (n : nat) (i : Z) (m : heap) (bk kvpairs : list muse_cell)
    (kvpairs_iter : Z) : option (list muse_cell * Z) :=
  match n with
  | O => Some (kvpairs, kvpairs_iter)
  | S n' =>
    alist ← arr_get bk i;
    if decide (alist = MUSE_NIL) then to_alist_buckets n' (i + 1) m bk kvpairs kvpairs_iter
    else
      bucket_size ← muse_list_length m alist;
      kvpairs' ← list_extract (Z.to_nat bucket_size) m alist kvpairs kvpairs_iter;
      to_alist_buckets n' (i + 1) m bk kvpairs' (kvpairs_iter + bucket_size)
  end.

(** [fn_hashtable_to_alist].  The array of [count] cells comes from
    [malloc]: the assertion after the loop says that all of it has been
    written, and a table for which it fails has no result here. *)
Definition fn_hashtable_to_alist (m : heap) (h : hashtable_t) : option (heap * muse_cell) :=
  let kvpairs := calloc (count h) in
  '(kvpairs', kvpairs_iter) ←
    to_alist_buckets (Z.to_nat (bucket_count h)) 0 m (buckets h) kvpairs 0;
  if decide (kvpairs_iter = count h) then muse_array_to_list m (count h) kvpairs' 0 1
  else None.

(** The pairs of an association list: every element is a cons cell. *)
Definition pairs_in (m : heap) (ps : list muse_cell) : Prop :=
  forall p, p ∈ ps -> is_Some (m !! p).

(** *** Lists and chains *)

Lemma chain_is_list (m : heap) es : forall c,
  chain m c es -> Vector.is_list m c (e_pair <$> es).
Proof.
  induction es as [|e es IH]; intros c; simpl; [done |].
  intros (-> & Hnil & next & Hc & _ & Hrest). split; [done |].
  exists next. split; [done | by apply IH].
Qed.

Lemma is_list_inj (m : heap) xs : forall ys c,
  Vector.is_list m c xs -> Vector.is_list m c ys -> xs = ys.
Proof.
  induction xs as [|x xs IH]; intros [|y ys] c; simpl; try done.
  - intros -> [? _]. done.
  - intros [? _] ->. done.
  - intros (_ & n1 & H1 & Hr1) (_ & n2 & H2 & Hr2).
    rewrite H1 in H2. injection H2 as <- <-. f_equal. by eapply IH.
Qed.

Lemma is_list_delete (m : heap) c xs : forall next,
  Vector.is_list m next xs ->
  (forall ys, Vector.is_list m c ys -> (length xs < length ys)%nat) ->
  Vector.is_list (delete c m) next xs.
Proof.
  induction xs as [|x xs IH]; intros next; simpl; [done |].
  intros (Hnil & n2 & Hn & Hrest) Hlong. split; [done |]. exists n2.
  assert (next <> c) as Hne.
  { intros ->. specialize (Hlong (x :: xs)). simpl in Hlong.
    assert (S (length xs) < S (length xs))%nat; [| lia].
    apply Hlong. split; [done |]. by exists n2. }
  rewrite lookup_delete_ne by done. split; [done |].
  apply IH; [done |]. intros ys Hys. specialize (Hlong ys Hys). simpl in Hlong. lia.
Qed.

Lemma is_list_length (m : heap) xs : forall c,
  Vector.is_list m c xs -> (length xs <= size m)%nat.
Proof.
  revert m. induction xs as [|x xs IH]; intros m c; simpl; [lia |].
  intros (Hnil & next & Hc & Hrest).
  assert (Vector.is_list (delete c m) next xs) as Hdel.
  { apply is_list_delete; [done |]. intros ys Hys.
    rewrite <- (is_list_inj m (x :: xs) ys c); [simpl; lia | | done].
    split; [done |]. by exists next. }
  specialize (IH _ _ Hdel).
  rewrite map_size_delete_Some in IH by eauto.
  assert (size m <> 0%nat); [| lia].
  intros H0. apply map_size_empty_iff in H0. subst m. by rewrite lookup_empty in Hc.
Qed.

Lemma muse_list_length_spec (m : heap) c xs :
  Vector.is_list m c xs -> Z.of_nat (length xs) < int_half ->
  muse_list_length m c = Some (Z.of_nat (length xs)).
Proof.
  intros Hlist Hlen. unfold muse_list_length.
  rewrite (Vector.list_length_loop_spec m xs (walk_fuel m) c 0 Hlist).
  - cbn [mbind option_bind]. rewrite Z.add_0_l. f_equal.
    apply to_int_id. unfold is_int. lia.
  - pose proof (is_list_length m xs c Hlist). unfold walk_fuel. lia.
Qed.

Lemma list_extract_app (m : heap) xs : forall c pre junk rest,
  Vector.is_list m c xs -> length junk = length xs ->
  list_extract (length xs) m c (pre ++ junk ++ rest) (Z.of_nat (length pre))
    = Some (pre ++ xs ++ rest).
Proof.
  induction xs as [|x xs IH]; intros c pre junk rest Hlist Hlen.
  - destruct junk; [| done]. done.
  - destruct junk as [|j junk]; [done |]. simpl in Hlen.
    destruct Hlist as (Hnil & next & Hc & Hrest).
    cbn [length list_extract]. unfold _head, _tail. rewrite Hc. simpl.
    rewrite arr_set_nat by (rewrite length_app; simpl; lia).
    simpl. rewrite insert_app_r_alt by lia. rewrite Nat.sub_diag. simpl.
    replace (Z.of_nat (length pre) + 1) with (Z.of_nat (length (pre ++ [x])))
      by (rewrite length_app; simpl; lia).
    replace (pre ++ x :: junk ++ rest) with ((pre ++ [x]) ++ junk ++ rest)
      by (by rewrite <- app_assoc).
    rewrite (IH next (pre ++ [x]) junk rest) by (done || lia).
    by rewrite <- app_assoc.
Qed.

(** *** The pairs of a table as a list *)

Lemma to_alist_buckets_spec (m : heap) bk : forall cs ess (i : nat) pre junk,
  drop i bk = cs -> Forall2 (chain m) cs ess ->
  length junk = length (concat ess) ->
  Z.of_nat (length pre) + Z.of_nat (length (concat ess)) < int_half ->
  to_alist_buckets (length cs) (Z.of_nat i) m bk (pre ++ junk) (Z.of_nat (length pre))
    = Some (pre ++ (e_pair <$> concat ess),
            Z.of_nat (length pre) + Z.of_nat (length (concat ess))).
Proof.
  intros cs ess i pre junk Hdrop Hch. revert i pre junk Hdrop.
  induction Hch as [|c es cs ess Hc Hch IH]; intros i pre junk Hdrop Hlen Hint.
  - destruct junk; [| done]. simpl. by rewrite Z.add_0_r.
  - assert (bk !! i = Some c) as Hi.
    { rewrite <- (Nat.add_0_r i), <- lookup_drop, Hdrop. done. }
    assert (drop (S i) bk = cs) as Hdrop'.
    { rewrite (drop_S _ _ _ Hi) in Hdrop. by injection Hdrop. }
    cbn [length to_alist_buckets]. rewrite arr_get_nat, Hi. cbn [mbind option_bind].
    replace (Z.of_nat i + 1) with (Z.of_nat (S i)) by lia.
    cbn [concat] in *. rewrite length_app in Hlen, Hint.
    destruct (decide (c = MUSE_NIL)) as [-> | Hne].
    + destruct es as [|e es]; [| by destruct Hc as (_ & ? & _)].
      simpl in *. by apply IH.
    + pose proof (chain_is_list m es c Hc) as Hlist.
      rewrite (muse_list_length_spec m c (e_pair <$> es) Hlist)
        by (rewrite length_fmap; lia).
      cbn [mbind option_bind]. rewrite Nat2Z.id.
      rewrite <- (take_drop (length es) junk).
      rewrite (list_extract_app m (e_pair <$> es) c pre (take (length es) junk)
                 (drop (length es) junk) Hlist)
        by (rewrite length_take, length_fmap; lia).
      cbn [mbind option_bind]. rewrite length_fmap.
      replace (Z.of_nat (length pre) + Z.of_nat (length es))
        with (Z.of_nat (length (pre ++ (e_pair <$> es))))
        by (rewrite length_app, length_fmap; lia).
      rewrite (app_assoc pre).
      rewrite (IH (S i) (pre ++ (e_pair <$> es)) (drop (length es) junk) Hdrop').
      * rewrite fmap_app, <- app_assoc. do 2 f_equal.
        rewrite !length_app, length_fmap. lia.
      * rewrite length_drop. lia.
      * rewrite length_app, length_fmap. lia.
Qed.

Lemma to_alist_spec (m : heap) h bs :
  table_inv m h bs -> count h < int_half ->
  exists (m' : heap) lst,
    fn_hashtable_to_alist m h = Some (m', lst) /\
    Vector.is_list m' lst (e_pair <$> concat bs) /\
    m ⊆ m' /\ table_inv m' h bs.
Proof.
  intros Hinv Hcnt.
  pose proof (inv_count _ _ _ Hinv) as Hc.
  pose proof (inv_length _ _ _ Hinv) as Hl.
  pose proof (to_alist_buckets_spec m (buckets h) (buckets h) bs 0 [] (calloc (count h))
                eq_refl (inv_chains _ _ _ Hinv)) as Hloop.
  rewrite length_calloc in Hloop. specialize (Hloop ltac:(lia) ltac:(simpl; lia)).
  simpl in Hloop. change (Z.of_nat 0) with 0 in Hloop.
  unfold fn_hashtable_to_alist. rewrite <- Hl, Nat2Z.id, Hloop.
  cbn [mbind option_bind]. rewrite decide_True by lia.
  set (xs := e_pair <$> concat bs).
  destruct (Vector.array_to_list_stride xs m xs 0 1) as (m' & lst & Hrun & Hlist & Hsub).
  { intros k Hk. rewrite Z.add_0_l, Z.mul_1_r. apply arr_get_nat. }
  exists m', lst. split.
  { unfold muse_array_to_list. rewrite Hc.
    replace (Z.to_nat (Z.of_nat (length (concat bs)))) with (length xs)
      by (unfold xs; rewrite length_fmap; lia).
    done. }
  split; [done |]. split; [done |].
  destruct Hinv as [H1 H2 H3 H4 H5]. split; try done.
  apply (chains_frame (fun _ => 0) (fun _ _ => true) m m' _ _ H3).
  intros a Ha.
  destruct (chains_cells_dom m _ _ a H3 Ha) as [x Hx].
  rewrite Hx. by apply (lookup_weaken m m').
Qed.

(** [(hashtable->alist ht)] returns a new list of the pair cells of the
    table, bucket after bucket: the pairs are the table's own, not copies,
    and the cells that were in the heap, the table's among them, are not
    changed. *)
Theorem hashtable_to_alist_pairs (m : heap) h bs :
  table_inv m h bs -> count h < int_half ->
  exists (m' : heap) lst,
    fn_hashtable_to_alist m h = Some (m', lst) /\
    Vector.is_list m' lst (e_pair <$> concat bs) /\
    m ⊆ m' /\ table_inv m' h bs.
Proof.
  intros Hinv Hcnt.
  destruct (to_alist_spec m h bs Hinv Hcnt) as (m' & lst & Hrun & Hlist & Hsub & Hinv').
  by exists m', lst.
Qed.

(** *** A table from an association list *)

Section WithHash.

Variable muse_hash : muse_cell -> Z.

Lemma array_to_list_chain ps : forall (m : heap) pre post,
  (forall p, p ∈ ps -> exists k v, m !! p = Some (Cons k v)) -> NoDup ps ->
  exists (m' : heap) c es,
    array_to_list (length ps) m (pre ++ ps ++ post) (Z.of_nat (length pre)) 1
      = Some (m', c) /\
    chain m' c es /\ e_pair <$> es = ps /\ NoDup (cells_of es) /\ m ⊆ m' /\
    (forall e, e ∈ es -> e_cell e ∉ dom m).
Proof.
  induction ps as [|p ps IH]; intros m pre post Hpairs Hnd.
  - exists m, MUSE_NIL, []. simpl. split; [done |]. split; [done |]. split; [done |].
    split; [constructor |]. split; [done |]. intros e He. by apply elem_of_nil in He.
  - apply NoDup_cons in Hnd as [Hp Hnd].
    destruct (IH m (pre ++ [p]) post) as (m1 & rest & es1 & Hrun & Hch & Hps & Hnd1 & Hsub & Hfresh).
    { intros q Hq. apply Hpairs. by right. }
    { done. }
    rewrite <- app_assoc in Hrun. simpl in Hrun.
    rewrite length_app in Hrun. simpl in Hrun.
    destruct (Hpairs p ltac:(by left)) as (k & v & Hpv).
    set (c := fresh_cell m1).
    assert (m1 !! c = None) as Hc by apply fresh_cell_None.
    assert (m1 !! p = Some (Cons k v)) as Hpv1 by (by apply (lookup_weaken m m1)).
    assert (c <> p) as Hcp by (intros Heq; rewrite Heq, Hpv1 in Hc; done).
    assert (c ∉ cells_of es1) as Hc1.
    { intros Hin. destruct (chain_cells_dom m1 es1 rest c Hch Hin) as [x Hx].
      by rewrite Hx in Hc. }
    assert (p ∉ cells_of es1) as Hp1.
    { intros Hin.
      apply (elem_of_cells_of muse_hash (fun _ _ => true)) in Hin as (e & He & [Heq | Heq]).
      - apply (Hfresh e He). rewrite <- Heq. by apply elem_of_dom_2 in Hpv.
      - apply Hp. rewrite <- Hps, Heq. by apply list_elem_of_fmap_2. }
    exists (<[c := Cons p rest]> m1), c, (Entry c p k v :: es1).
    split.
    { cbn [length array_to_list]. rewrite arr_get_nat.
      rewrite lookup_app_r by lia. rewrite Nat.sub_diag. cbn [lookup list_lookup app].
      cbn [mbind option_bind].
      replace (Z.of_nat (length pre) + 1) with (Z.of_nat (length pre + 1)) by lia.
      rewrite Hrun. done. }
    split.
    { simpl. split; [done |]. split; [apply fresh_cell_not_NIL |]. exists rest.
      rewrite lookup_insert_eq. split; [done |].
      rewrite lookup_insert_ne by done. split; [done |].
      by apply (chain_insert_fresh muse_hash (fun _ _ => true)). }
    split; [by rewrite fmap_cons, Hps |].
    split.
    { rewrite cells_of_cons. simpl. apply NoDup_cons. split.
      - rewrite elem_of_cons. intros [? | ?]; [done | by apply Hc1].
      - apply NoDup_cons. done. }
    split.
    { apply insert_subseteq_r; [| done]. by eapply lookup_weaken_None. }
    intros e [-> | He]%elem_of_cons.
    + simpl. intros Hin. apply elem_of_dom in Hin as [x Hx].
      apply (lookup_weaken m m1) in Hx; [| done]. by rewrite Hx in Hc.
    + by apply Hfresh.
Qed.

Lemma from_alist_spec (m : heap) alist ps :
  Vector.is_list m alist ps ->
  (forall p, p ∈ ps -> exists k v, m !! p = Some (Cons k v)) -> NoDup ps ->
  Z.of_nat (length ps) < int_half ->
  exists (m' : heap) h' bs',
    fn_alist_to_hashtable muse_hash m alist = Some (m', h') /\
    table_inv m' h' bs' /\ placed muse_hash (bucket_count h') bs' /\
    e_pair <$> concat bs' ≡ₚ ps /\
    count h' = Z.of_nat (length ps) /\
    bucket_count h' = Z.lor (Z.of_nat (length ps)) 1 /\
    m ⊆ m'.
Proof.
  intros Hlist Hpairs Hnd Hlen. unfold fn_alist_to_hashtable, muse_list_to_array.
  rewrite (muse_list_length_spec m alist ps Hlist Hlen). cbn [mbind option_bind].
  unfold muse_list_extract. rewrite Nat2Z.id.
  pose proof (Vector.list_extract_spec m ps alist [] (calloc (Z.of_nat (length ps))) Hlist)
    as Hex.
  rewrite length_calloc, Nat2Z.id in Hex. specialize (Hex eq_refl).
  simpl in Hex. change (Z.of_nat 0) with 0 in Hex. rewrite Hex.
  cbn [mbind option_bind]. unfold muse_array_to_list. rewrite Nat2Z.id.
  destruct (array_to_list_chain ps m [] [] Hpairs Hnd)
    as (m1 & c & es & Hrun & Hch & Hps & Hnd1 & Hsub & Hfresh).
  rewrite app_nil_r in Hrun. simpl in Hrun. change (Z.of_nat 0) with 0 in Hrun.
  rewrite Hrun. cbn [mbind option_bind].
  change (arr_set (buckets (hashtable_init None)) 0 c)
    with (Some (c :: replicate 6 MUSE_NIL)).
  cbn [mbind option_bind].
  set (h1 := {| count := Z.of_nat (length ps);
                bucket_count := bucket_count (hashtable_init None);
                buckets := c :: replicate 6 MUSE_NIL |}).
  assert (length es = length ps) as Hles by (by rewrite <- Hps, length_fmap).
  assert (concat (es :: replicate 6 []) = es) as Hcat.
  { simpl. apply app_nil_r. }
  assert (table_inv m1 h1 (es :: replicate 6 [])) as Hinv1.
  { split.
    - by vm_compute.
    - reflexivity.
    - constructor; [done |]. repeat constructor.
    - by rewrite Hcat.
    - rewrite Hcat. simpl. lia. }
  destruct (hashtable_rehash_spec muse_hash (fun _ _ => true) m1 h1 _ (Z.of_nat (length ps)) Hinv1)
    as (m' & h' & bs' & Hre & Hinv' & Hpl' & Hperm & Hbc' & Hcnt' & Hdom & Hframe); [lia |].
  rewrite Hcat in Hperm, Hframe.
  exists m', h', bs'. split; [done |]. split; [done |]. split; [done |].
  split; [by rewrite Hperm, Hps |]. split; [done |]. split; [done |].
  apply map_subseteq_spec. intros a x Hax.
  pose proof (lookup_weaken m m1 a x Hax Hsub) as Hax1.
  destruct (decide (a ∈ cells_of es)) as [Hin | Hout]; [| by rewrite Hframe].
  apply (elem_of_cells_of muse_hash (fun _ _ => true)) in Hin as (e & He & [Heq | Heq]).
  - destruct (Hfresh e He). rewrite <- Heq. by apply elem_of_dom_2 in Hax.
  - subst a.
    pose proof (chain_entry (fun _ _ => true) (fun _ => eq_refl) m1 es e c Hch He) as H1.
    assert (e ∈ concat bs') as He' by (by rewrite Hperm).
    pose proof (chains_entry (fun _ _ => true) (fun _ => eq_refl) m' _ bs' e
                  (inv_chains _ _ _ Hinv') He') as H2.
    congruence.
Qed.

(** [(hashtable alist)] for a list of [n] distinct pairs returns a table of
    [n | 1] buckets and size [n] that holds the pairs of the list
    themselves, each in the bucket of its key; the list is not changed. *)
Theorem alist_to_hashtable_pairs (m : heap) alist ps :
  Vector.is_list m alist ps ->
  (forall p, p ∈ ps -> exists k v, m !! p = Some (Cons k v)) -> NoDup ps ->
  Z.of_nat (length ps) < int_half ->
  exists (m' : heap) h' bs',
    fn_alist_to_hashtable muse_hash m alist = Some (m', h') /\
    table_inv m' h' bs' /\ placed muse_hash (bucket_count h') bs' /\
    e_pair <$> concat bs' ≡ₚ ps /\
    count h' = Z.of_nat (length ps) /\
    bucket_count h' = Z.lor (Z.of_nat (length ps)) 1 /\
    m ⊆ m'.
Proof.
  intros Hlist Hpairs Hnd Hlen.
  destruct (from_alist_spec m alist ps Hlist Hpairs Hnd Hlen)
    as (m' & h' & bs' & Hrun & Hinv & Hpl & Hperm & Hcnt & Hbc & Hsub).
  by exists m', h', bs'.
Qed.

(** A list of distinct pairs that is made a table and then a list again
    comes back with the same pair cells, in some order. *)
Theorem alist_hashtable_round_trip (m : heap) alist ps :
  Vector.is_list m alist ps ->
  (forall p, p ∈ ps -> exists k v, m !! p = Some (Cons k v)) -> NoDup ps ->
  Z.of_nat (length ps) < int_half ->
  exists (m1 : heap) h1 (m2 : heap) lst qs,
    fn_alist_to_hashtable muse_hash m alist = Some (m1, h1) /\
    fn_hashtable_to_alist m1 h1 = Some (m2, lst) /\
    Vector.is_list m2 lst qs /\ qs ≡ₚ ps /\ m ⊆ m2.
Proof.
  intros Hlist Hpairs Hnd Hlen.
  destruct (from_alist_spec m alist ps Hlist Hpairs Hnd Hlen)
    as (m1 & h1 & bs1 & Hrun1 & Hinv1 & _ & Hperm & Hcnt & _ & Hsub1).
  destruct (to_alist_spec m1 h1 bs1 Hinv1 ltac:(lia))
    as (m2 & lst & Hrun2 & Hlist2 & Hsub2 & _).
  exists m1, h1, m2, lst, (e_pair <$> concat bs1).
  split; [done |]. split; [done |]. split; [done |]. split; [done |].
  by transitivity m1.
Qed.

End WithHash.

(** *** Concrete lists *)

Lemma dup_alist_is_list : Vector.is_list dup_alist_heap 2 [1; 3].
Proof.
  simpl. split; [done |]. exists 4. split; [by vm_compute |].
  split; [done |]. exists 0. split; [by vm_compute | done].
Qed.

Lemma dup_alist_pairs p :
  p ∈ [1; 3] -> exists k v, dup_alist_heap !! p = Some (Cons k v).
Proof.
  intros Hp. apply elem_of_cons in Hp as [-> | Hp]; [by exists 5, 10 |].
  apply elem_of_cons in Hp as [-> | Hp]; [by exists 5, 20 | by apply elem_of_nil in Hp].
Qed.

Lemma dup_alist_nodup : NoDup [1; 3].
Proof. apply (bool_decide_unpack _). by vm_compute. Qed.

Lemma hashtable_to_alist_pairs_witness :
  exists (m' : heap) lst,
    fn_hashtable_to_alist demo_heap demo_table = Some (m', lst) /\
    Vector.is_list m' lst [1] /\ demo_heap ⊆ m' /\
    table_inv m' demo_table demo_entries.
Proof.
  apply (hashtable_to_alist_pairs demo_heap demo_table demo_entries demo_table_inv).
  by vm_compute.
Defined.

Lemma alist_to_hashtable_pairs_witness :
  exists (m' : heap) h' bs',
    fn_alist_to_hashtable id_hash dup_alist_heap 2 = Some (m', h') /\
    table_inv m' h' bs' /\ placed id_hash (bucket_count h') bs' /\
    e_pair <$> concat bs' ≡ₚ [1; 3] /\
    count h' = 2 /\ bucket_count h' = 3 /\ dup_alist_heap ⊆ m'.
Proof.
  apply (alist_to_hashtable_pairs id_hash dup_alist_heap 2 [1; 3] dup_alist_is_list
           dup_alist_pairs dup_alist_nodup).
  by vm_compute.
Defined.

Lemma alist_hashtable_round_trip_witness :
  exists (m1 : heap) h1 (m2 : heap) lst qs,
    fn_alist_to_hashtable id_hash dup_alist_heap 2 = Some (m1, h1) /\
    fn_hashtable_to_alist m1 h1 = Some (m2, lst) /\
    Vector.is_list m2 lst qs /\ qs ≡ₚ [1; 3] /\ dup_alist_heap ⊆ m2.
Proof.
  apply (alist_hashtable_round_trip id_hash dup_alist_heap 2 [1; 3] dup_alist_is_list
           dup_alist_pairs dup_alist_nodup).
  by vm_compute.
Defined.

End HashtableAlist.

(** ** File ports ([muse_builtin_fileport.c]) *)

Module Fileport.

(** *** The C library's files, as far as the port code uses them

    A file of the file system is a list of bytes; an open file is a
    descriptor with a path and an offset.  A [FILE*] is identified with its
    descriptor ([fileno]).  Output through [fwrite] goes to the buffer of
    the stream first: [pending] holds, for a stream, the bytes that are not
    written to the file yet; [fflush] and [fclose] write them, and the C
    library may write them earlier.  Input through [fread] is identified
    with [read] on the descriptor: reading ahead inside the C library does
    not change what a reader gets. *)
Record world := World {
  disk : gmap string (list byte);
  fdtab : gmap Z (string * nat);
  pending : gmap Z (list byte)
}.

(** [read( fd, c, n )]: the bytes read, or [None] for the error result -1. *)
Definition os_read (fd : Z) (n : nat) (w : world) : option (list byte) * world :=
  match fdtab w !! fd with
  | Some (path, off) =>
    match disk w !! path with
    | Some content =>
      let data := take n (drop off content) in
      (Some data,
       {| disk := disk w; fdtab := <[fd := (path, (off + List.length data)%nat)]> (fdtab w);
          pending := pending w |})
    | None => (None, w)
    end
  | None => (None, w)
  end.

(** [write( fd, bytes, n )]: the number of bytes written, or [None]. *)
Definition os_write (fd : Z) (bytes : list byte) (w : world) : option nat * world :=
  match fdtab w !! fd with
  | Some (path, off) =>
    match disk w !! path with
    | Some content =>
      let content' :=
        take off content ++ bytes ++ drop (off + List.length bytes) content in
      (Some (List.length bytes),
       {| disk := <[path := content']> (disk w);
          fdtab := <[fd := (path, (off + List.length bytes)%nat)]> (fdtab w);
          pending := pending w |})
    | None => (None, w)
    end
  | None => (None, w)
  end.

(** [tell( fd )]: the offset of the descriptor. *)
Definition os_tell (fd : Z) (w : world) : option Z :=
  match fdtab w !! fd with
  | Some (_, off) => Some (Z.of_nat off)
  | None => None
  end.

(** Modelled from the spec: [muse_fopen( path, mode )], a wrapper of [fopen]
    that is not in this file ("failing to open the backing stream").  ["rb"]
    opens an existing file at offset 0 and fails when there is none, ["wb"]
    creates or empties the file, any other mode string fails; the new
    stream gets an unused descriptor above the three standard ones and an
    empty buffer. *)
Definition muse_fopen (path : string) (fmode : string) (w : world) : option Z * world :=
  let fd := fresh ({[0; 1; 2]} ∪ dom (fdtab w)) in
  if String.eqb fmode "rb" then
    match disk w !! path with
    | Some _ => (Some fd, {| disk := disk w; fdtab := <[fd := (path, 0%nat)]> (fdtab w);
                             pending := delete fd (pending w) |})
    | None => (None, w)
    end
  else if String.eqb fmode "wb" then
    (Some fd, {| disk := <[path := []]> (disk w); fdtab := <[fd := (path, 0%nat)]> (fdtab w);
                 pending := delete fd (pending w) |})
  else (None, w).

(** Releasing a descriptor, with whatever is left in its buffer. *)
Definition os_close (fd : Z) (w : world) : world :=
  {| disk := disk w; fdtab := delete fd (fdtab w); pending := delete fd (pending w) |}.

(** The bytes in the buffer of stream [f]. *)
Definition stream_buffer (f : Z) (w : world) : list byte := default [] (pending w !! f).

(** [ftell( f )]: the position of the stream, which counts the bytes in
    its buffer. *)
Definition ftell (f : Z) (w : world) : option Z :=
  '(_, off) ← fdtab w !! f; Some (Z.of_nat (off + List.length (stream_buffer f w))).

(** [fflush( f )] writes the buffer out: 0, or [EOF]. *)
Definition fflush (f : Z) (w : world) : Z * world :=
  match stream_buffer f w with
  | [] => (0, w)
  | buf =>
    match os_write f buf w with
    | (Some _, w') =>
      (0, {| disk := disk w'; fdtab := fdtab w'; pending := delete f (pending w') |})
    | (None, _) => (-1, w)
    end
  end.

(** [fclose( f )] flushes the stream and releases it. *)
Definition fclose (f : Z) (w : world) : world := os_close f (fflush f w).2.

(** *** Ports *)

(** [fileport_t] with the fields of [muse_port_base_t] that this file
    touches. *)
Record fileport_t := Fileport {
  mode : Z;                  (* base.mode *)
  in_bytes : list byte;      (* base.in.bytes *)
  in_pos : Z;                (* base.in.pos *)
  in_avail : Z;              (* base.in.avail *)
  in_fpos : Z;               (* base.in.fpos *)
  out_fpos : Z;              (* base.out.fpos *)
  error : Z;                 (* base.error *)
  eof : Z;                   (* base.eof *)
  desc : Z;                  (* int desc *)
  file : option Z            (* FILE *file; None is NULL *)
}.

(** The zero-initialised object that the protocol hands to [fileport_init]. *)
Definition zero_port : fileport_t :=
  {| mode := 0; in_bytes := []; in_pos := 0; in_avail := 0; in_fpos := 0; out_fpos := 0;
     error := 0; eof := 0; desc := 0; file := None |}.

Definition set_mode (p : fileport_t) (x : Z) : fileport_t :=
  {| mode := x; in_bytes := in_bytes p; in_pos := in_pos p; in_avail := in_avail p;
     in_fpos := in_fpos p; out_fpos := out_fpos p; error := error p; eof := eof p;
     desc := desc p; file := file p |}.

Definition set_stream (p : fileport_t) (d : Z) (f : option Z) : fileport_t :=
  {| mode := mode p; in_bytes := in_bytes p; in_pos := in_pos p; in_avail := in_avail p;
     in_fpos := in_fpos p; out_fpos := out_fpos p; error := error p; eof := eof p;
     desc := d; file := f |}.

Definition set_status (p : fileport_t) (err e : Z) : fileport_t :=
  {| mode := mode p; in_bytes := in_bytes p; in_pos := in_pos p; in_avail := in_avail p;
     in_fpos := in_fpos p; out_fpos := out_fpos p; error := err; eof := e;
     desc := desc p; file := file p |}.

Definition set_input (p : fileport_t) (bytes : list byte) (avail : Z) : fileport_t :=
  {| mode := mode p; in_bytes := bytes; in_pos := in_pos p; in_avail := avail;
     in_fpos := in_fpos p; out_fpos := out_fpos p; error := error p; eof := eof p;
     desc := desc p; file := file p |}.

Definition set_fpos (p : fileport_t) (i o : Z) : fileport_t :=
  {| mode := mode p; in_bytes := in_bytes p; in_pos := in_pos p; in_avail := in_avail p;
     in_fpos := i; out_fpos := o; error := error p; eof := eof p;
     desc := desc p; file := file p |}.

Definition k_utf8_header : list byte := [xef; xbb; xbf].

Definition is_utf8_header (c : list byte) : bool :=
  match c with
  | [c0; c1; c2] => Byte.eqb c0 xef && Byte.eqb c1 xbb && Byte.eqb c2 xbf
  | _ => false
  end.

Section WithPortLayer.

(** How much of a stream's buffer the C library writes out when [fwrite]
    has added to it depends on the size and the mode of the buffer, which
    this file does not set: [written_out buf] is the number of bytes at the
    front of the buffer content [buf] that are written out at that call (all
    of them for an unbuffered stream, none while a large buffer has room). *)
Variable written_out : list byte -> nat.

(** [fwrite( bytes, 1, n, f )]. *)
Definition fwrite (f : Z) (bytes : list byte) (w : world) : option nat * world :=
  let buf := stream_buffer f w ++ bytes in
  let k := Nat.min (written_out buf) (List.length buf) in
  match os_write f (take k buf) w with
  | (Some _, w') =>
    (Some (List.length bytes),
     {| disk := disk w'; fdtab := fdtab w'; pending := <[f := drop k buf]> (pending w') |})
  | (None, _) => (None, w)
  end.

(** [fileport_read], [fileport_write], [fileport_flush], [fileport_close]. *)
Definition fileport_read (nbytes : nat) (p : fileport_t) (w : world)
  : option (list byte) * world :=
  match file p with
  | Some f => os_read f nbytes w
  | None => os_read (desc p) nbytes w
  end.

Definition fileport_write (buffer : list byte) (p : fileport_t) (w : world)
  : option nat * world :=
  match file p with
  | Some f => fwrite f buffer w
  | None => os_write (desc p) buffer w
  end.

Definition fileport_flush (p : fileport_t) (w : world) : Z * world :=
  match file p with
  | Some f => fflush f w
  | None => (0, w)
  end.

Definition fileport_close (p : fileport_t) (w : world) : fileport_t * world :=
  match file p with
  | Some f => (set_stream p 0 None, fclose f w)
  | None => (p, w)
  end.

(** The mode bits of [muse_port.h] and [port_init] of the generic port layer
    are not in this file. *)
Variable MUSE_PORT_READ : Z.
Variable MUSE_PORT_WRITE : Z.
Variable MUSE_PORT_EZSCHEME : Z.
Variable MUSE_PORT_READ_DETECT_MACROS : Z.
Variable port_init : fileport_t -> fileport_t.

(** [MUSE_PLATFORM_WINDOWS] is defined. *)
Variable windows : bool.

Definition check_for_ezscheme_file (p : fileport_t) : fileport_t :=
  if decide (in_avail p > 0) then
    match in_bytes p with
    | c :: _ => if Byte.eqb c x23 then set_mode p (Z.lor (mode p) MUSE_PORT_EZSCHEME) else p
    | [] => p
    end
  else p.

(** [write_utf8_header]: the body is compiled on Windows only. *)
Definition write_utf8_header (p : fileport_t) (w : world) : world :=
  if windows then
    if decide (os_tell (desc p) w = Some 0) then (os_write (desc p) k_utf8_header w).2
    else w
  else w.

(** [discard_utf8_header]; [None] when [p->file] is NULL or the assertion
    on the input buffer fails. *)
Definition discard_utf8_header (p : fileport_t) (w : world) : option (fileport_t * world) :=
  f ← file p;
  if decide (ftell f w = Some 0) then
    let '(r, w') := os_read (desc p) 3 w in
    let c := default [] r in
    let nbytes : Z := match r with Some c => Z.of_nat (List.length c) | None => -1 end in
    let nbytes := if decide (nbytes = 3) then (if is_utf8_header c then 0 else nbytes)
                  else nbytes in
    if decide (nbytes > 0) then
      if decide (in_pos p = 0 /\ in_avail p = 0) then
        Some (set_input p (c ++ drop (List.length c) (in_bytes p)) (in_avail p + nbytes), w')
      else None
    else Some (p, w')
  else Some (p, w).

(** The symbols that [open-file] takes as flags, by their names. *)
Definition _csymbol (name : string) : string := name.

(** The [while ( args )] loop of [fileport_init] over the flag arguments. *)
Fixpoint read_write_flags (args : list string) (read_flag write_flag : bool) : bool * bool :=
  match args with
  | [] => (read_flag, write_flag)
  | flag :: args' =>
    if String.eqb flag (_csymbol "for-reading") then read_write_flags args' true write_flag
    else if String.eqb flag (_csymbol "for-reading") then read_write_flags args' read_flag true
    else read_write_flags args' read_flag write_flag
  end.

Definition open_mode (read_flag write_flag : bool) : string :=
  if read_flag then (if write_flag then "rwb" else "rb")
  else (if write_flag then "wb" else "rb").

(** The mode string that [fileport_init] passes to [muse_fopen]. *)
Definition requested_mode (args : list string) : string :=
  let '(read_flag, write_flag) := read_write_flags args false false in
  open_mode read_flag write_flag.

(** [fileport_init] on the zero-initialised object [p]. *)
Definition fileport_init (p : fileport_t) (filename : string) (args : list string) (w : world)
  : option (fileport_t * world) :=
  let '(read_flag, write_flag) := read_write_flags args false false in
  let p := if read_flag then set_mode p (Z.lor (mode p) MUSE_PORT_READ) else p in
  let p := if write_flag then set_mode p (Z.lor (mode p) MUSE_PORT_WRITE) else p in
  let p := port_init p in
  match muse_fopen filename (open_mode read_flag write_flag) w with
  | (None, w') => Some (p, w')
  | (Some f, w') =>
    let p := set_stream p f (Some f) in
    let p := set_status p 0 0 in
    let w' := if write_flag then write_utf8_header p w' else w' in
    if read_flag then
      '(p', w'') ← discard_utf8_header p w';
      Some (check_for_ezscheme_file p', w'')
    else Some (p, w')
  end.

(** [muse_assign_port] on an open stream [f]; a failing [muse_assert] is
    fatal. *)
Definition muse_assign_port (f : Z) (mode_bits : Z) (w : world) : option (fileport_t * world) :=
  let port := set_stream zero_port f (Some f) in
  let port := port_init port in
  '(port, w) ←
    (if decide (Z.land mode_bits MUSE_PORT_READ <> 0) then
       pos ← ftell f w;
       '(port', w') ← discard_utf8_header (set_fpos port pos (out_fpos port)) w;
       Some (check_for_ezscheme_file port', w')
     else Some (port, w));
  if decide (mode_bits < MUSE_PORT_READ_DETECT_MACROS * 2) then
    let port := set_mode port (Z.lor (mode port) mode_bits) in
    if decide (Z.land mode_bits MUSE_PORT_WRITE <> 0) then
      pos ← ftell f w;
      let port := set_fpos port (in_fpos port) pos in
      Some (port, write_utf8_header port w)
    else Some (port, w)
  else None.

(** Modelled from the spec: what a reader of the port sees, which the
    generic port layer (not in this file) delivers: "push the peeked bytes
    back into the input buffer so the first read sees the original bytes",
    that is the available bytes of the input buffer and then the rest of
    the stream. *)
Definition port_input (p : fileport_t) (w : world) : option (list byte) :=
  let buffered := take (Z.to_nat (in_avail p - in_pos p)) (drop (Z.to_nat (in_pos p)) (in_bytes p)) in
  '(path, off) ← fdtab w !! desc p;
  content ← disk w !! path;
  Some (buffered ++ drop off content).

(** A file written through a port on a new stream, closed, and opened
    again with [open-file path 'for-reading]: what the reader sees. *)
Definition written_then_read (payload : list byte) (path : string) (w0 : world)
  : option (list byte) :=
  let '(opened, w1) := muse_fopen path "wb" w0 in
  f ← opened;
  '(pw, w2) ← muse_assign_port f MUSE_PORT_WRITE w1;
  let '(_, w3) := fileport_write payload pw w2 in
  let '(_, w4) := fileport_close pw w3 in
  '(pr, w5) ← fileport_init zero_port path [_csymbol "for-reading"] w4;
  port_input pr w5.

(** *** The mode flags of [open-file] *)

Lemma read_write_flags_no_write args : forall r,
  (read_write_flags args r false).2 = false.
Proof.
  induction args as [|flag args IH]; intros r; simpl; [done |].
  destruct (String.eqb flag (_csymbol "for-reading")); apply IH.
Qed.

Lemma requested_mode_rb args : requested_mode args = "rb".
Proof.
  unfold requested_mode.
  pose proof (read_write_flags_no_write args false) as H.
  destruct (read_write_flags args false false) as [r w]. simpl in H. subst w.
  by destruct r.
Qed.

(** *** A port whose stream could not be opened *)

Hypothesis port_init_stream :
  forall p, desc (port_init p) = desc p /\ file (port_init p) = file p.

(** C5 (amended).  When the stream cannot be opened, [fileport_init]
    returns (nothing is signalled) a port without a stream handle and with
    descriptor 0, and the files are as they were; flushing or closing that
    port does nothing; reading from it and writing to it do not detect the
    missing stream: they read and write descriptor 0. *)
Theorem failed_open_port (filename : string) (args : list string) (w : world) :
  (muse_fopen filename (requested_mode args) w).1 = None ->
  exists p,
    fileport_init zero_port filename args w = Some (p, w) /\
    file p = None /\ desc p = 0 /\
    (forall w', fileport_flush p w' = (0, w')) /\
    (forall w', fileport_close p w' = (p, w')) /\
    (forall n w', fileport_read n p w' = os_read 0 n w') /\
    (forall buffer w', fileport_write buffer p w' = os_write 0 buffer w').
Proof.
  intros Hfail. unfold fileport_init. unfold requested_mode in Hfail.
  destruct (read_write_flags args false false) as [r wf].
  set (p1 := if r then set_mode zero_port _ else zero_port).
  set (p2 := if wf then set_mode p1 _ else p1).
  assert (desc p2 = 0 /\ file p2 = None) as [Hd Hf].
  { subst p2 p1. by destruct r, wf. }
  destruct (port_init_stream p2) as [Hd' Hf']. rewrite Hd in Hd'. rewrite Hf in Hf'.
  assert (muse_fopen filename (open_mode r wf) w = (None, w)) as Hopen.
  { revert Hfail. unfold muse_fopen.
    repeat (case_match; simpl; try done). }
  rewrite Hopen. exists (port_init p2).
  split; [done |]. split; [done |]. split; [done |].
  unfold fileport_flush, fileport_close, fileport_read, fileport_write.
  rewrite Hf', Hd'. done.
Qed.

(** *** The header of a written file *)

Hypothesis port_init_input :
  forall p, in_pos (port_init p) = 0 /\ in_avail (port_init p) = 0.
Hypothesis write_not_read : Z.land MUSE_PORT_WRITE MUSE_PORT_READ = 0.
Hypothesis write_bit : MUSE_PORT_WRITE <> 0.
Hypothesis write_is_mode_bit : MUSE_PORT_WRITE < MUSE_PORT_READ_DETECT_MACROS * 2.

Lemma os_read_at fd n w path off content :
  fdtab w !! fd = Some (path, off) -> disk w !! path = Some content ->
  os_read fd n w =
    (Some (take n (drop off content)),
     {| disk := disk w;
        fdtab := <[fd := (path, (off + List.length (take n (drop off content)))%nat)]>
                   (fdtab w);
        pending := pending w |}).
Proof. intros Hfd Hdisk. unfold os_read. by rewrite Hfd, Hdisk. Qed.

Lemma os_write_at fd bytes w path off content :
  fdtab w !! fd = Some (path, off) -> disk w !! path = Some content ->
  os_write fd bytes w =
    (Some (List.length bytes),
     {| disk := <[path := take off content ++ bytes ++ drop (off + List.length bytes) content]>
                  (disk w);
        fdtab := <[fd := (path, (off + List.length bytes)%nat)]> (fdtab w);
        pending := pending w |}).
Proof. intros Hfd Hdisk. unfold os_write. by rewrite Hfd, Hdisk. Qed.

Lemma os_tell_at fd w path off :
  fdtab w !! fd = Some (path, off) -> os_tell fd w = Some (Z.of_nat off).
Proof. intros Hfd. unfold os_tell. by rewrite Hfd. Qed.

Lemma ftell_at f w path off :
  fdtab w !! f = Some (path, off) -> pending w !! f = None ->
  ftell f w = Some (Z.of_nat off).
Proof.
  intros Hfd Hp. unfold ftell, stream_buffer. rewrite Hfd, Hp. simpl.
  by rewrite Nat.add_0_r.
Qed.

(** *** Writing to a stream and closing it *)

(** Two writes, of the first [k] bytes of [buf] and of the rest, leave what
    one write of [buf] leaves. *)
Lemma write_in_two_parts (content buf : list byte) (off k : nat) :
  (off <= List.length content)%nat -> (k <= List.length buf)%nat ->
  take (off + k) (take off content ++ take k buf ++ drop (off + k) content)
    ++ drop k buf
    ++ drop (off + k + List.length (drop k buf))
         (take off content ++ take k buf ++ drop (off + k) content)
  = take off content ++ buf ++ drop (off + List.length buf) content.
Proof.
  intros Hoff Hk.
  assert (List.length (take off content ++ take k buf) = (off + k)%nat) as Hlen.
  { rewrite length_app, !length_take_le by lia. done. }
  rewrite (app_assoc (take off content) (take k buf)).
  rewrite (take_app_length' _ _ (off + k)) by done.
  rewrite <- (drop_drop _ (List.length (drop k buf)) (off + k)).
  rewrite (drop_app_length' _ _ (off + k)) by done.
  rewrite drop_drop, length_drop.
  replace (off + k + (List.length buf - k))%nat with (off + List.length buf)%nat by lia.
  rewrite <- !app_assoc. f_equal. rewrite (app_assoc (take k buf)). by rewrite take_drop.
Qed.

(** Whatever part of the buffer [fwrite] writes out at once, after [fclose]
    the file holds the buffered bytes and the written bytes at the offset of
    the stream, and the stream is gone. *)
Lemma fwrite_fclose f bytes w path off content :
  fdtab w !! f = Some (path, off) -> disk w !! path = Some content ->
  (off <= List.length content)%nat ->
  exists w1,
    fwrite f bytes w = (Some (List.length bytes), w1) /\
    fclose f w1 =
      {| disk := <[path := take off content ++ (stream_buffer f w ++ bytes)
                            ++ drop (off + List.length (stream_buffer f w ++ bytes)) content]>
                   (disk w);
         fdtab := delete f (fdtab w);
         pending := delete f (pending w) |}.
Proof.
  intros Hfd Hdisk Hoff. unfold fwrite.
  set (buf := stream_buffer f w ++ bytes).
  set (k := Nat.min (written_out buf) (List.length buf)).
  assert (k <= List.length buf)%nat as Hk by lia.
  rewrite (os_write_at f (take k buf) w path off content Hfd Hdisk).
  rewrite (length_take_le buf k Hk).
  eexists. split; [done |].
  unfold fclose, fflush, stream_buffer. cbn [pending disk fdtab].
  rewrite lookup_insert_eq. cbn [default from_option id].
  destruct (drop k buf) as [|b rest] eqn:Hdrop.
  - assert (k = List.length buf) as Hkall.
    { apply (f_equal List.length) in Hdrop. rewrite length_drop in Hdrop. simpl in Hdrop. lia. }
    unfold os_close. cbn [snd disk fdtab pending].
    rewrite !delete_insert_eq. rewrite (take_ge buf k) by lia. by rewrite Hkall.
  - rewrite <- Hdrop.
    rewrite (os_write_at f (drop k buf) _ path (off + k)
               (take off content ++ take k buf ++ drop (off + k) content)).
    2: { cbn [fdtab]. apply lookup_insert_eq. }
    2: { cbn [disk]. apply lookup_insert_eq. }
    unfold os_close. cbn [snd disk fdtab pending].
    rewrite !insert_insert_eq, !delete_insert_eq, delete_delete_eq.
    by rewrite (write_in_two_parts content buf off k Hoff Hk).
Qed.

(** The writer's side: after the port is assigned, the payload written and
    the port closed, the file holds the header (on Windows) and the
    payload. *)
Definition header_written : list byte := if windows then k_utf8_header else [].

Lemma writer_spec (payload : list byte) (path : string) (w0 : world) :
  exists f pw w2 w3 r,
    muse_fopen path "wb" w0 = (Some f, {| disk := <[path := []]> (disk w0);
                                          fdtab := <[f := (path, 0%nat)]> (fdtab w0);
                                          pending := delete f (pending w0) |}) /\
    muse_assign_port f MUSE_PORT_WRITE
      {| disk := <[path := []]> (disk w0); fdtab := <[f := (path, 0%nat)]> (fdtab w0);
         pending := delete f (pending w0) |}
      = Some (pw, w2) /\
    file pw = Some f /\
    fileport_write payload pw w2 = (r, w3) /\
    disk (fclose f w3) !! path = Some (header_written ++ payload).
Proof.
  set (f := fresh ({[0; 1; 2]} ∪ dom (fdtab w0))).
  set (w1 := {| disk := <[path := []]> (disk w0); fdtab := <[f := (path, 0%nat)]> (fdtab w0);
                pending := delete f (pending w0) |}).
  assert (fdtab w1 !! f = Some (path, 0%nat)) as Hfd1 by apply lookup_insert_eq.
  assert (disk w1 !! path = Some []) as Hdisk1 by apply lookup_insert_eq.
  assert (pending w1 !! f = None) as Hpend1 by apply lookup_delete_eq.
  set (port0 := port_init (set_stream zero_port f (Some f))).
  destruct (port_init_stream (set_stream zero_port f (Some f))) as [Hd Hf].
  simpl in Hd, Hf. fold port0 in Hd, Hf.
  set (pw := set_fpos (set_mode port0 (Z.lor (mode port0) MUSE_PORT_WRITE))
               (in_fpos (set_mode port0 (Z.lor (mode port0) MUSE_PORT_WRITE))) 0).
  assert (muse_assign_port f MUSE_PORT_WRITE w1 = Some (pw, write_utf8_header pw w1)) as Hassign.
  { unfold muse_assign_port. fold port0.
    destruct (decide (Z.land MUSE_PORT_WRITE MUSE_PORT_READ <> 0)) as [Hc | _];
      [by rewrite write_not_read in Hc |].
    cbn [mbind option_bind]. rewrite decide_True by done.
    rewrite Z.land_diag. rewrite decide_True by done.
    rewrite (ftell_at f w1 path 0 Hfd1 Hpend1). done. }
  assert (desc pw = f /\ file pw = Some f) as [Hdpw Hfpw] by done.
  assert (exists w2, write_utf8_header pw w1 = w2 /\
                     fdtab w2 !! f = Some (path, List.length header_written) /\
                     disk w2 !! path = Some header_written /\
                     pending w2 !! f = None) as (w2 & Hw2 & Hfd2 & Hdisk2 & Hpend2).
  { unfold write_utf8_header, header_written. destruct windows.
    - rewrite Hdpw, (os_tell_at f w1 path 0 Hfd1). rewrite decide_True by done.
      rewrite (os_write_at f k_utf8_header w1 path 0 [] Hfd1 Hdisk1).
      eexists. split; [done |]. simpl. by rewrite !lookup_insert_eq.
    - by exists w1. }
  destruct (fwrite_fclose f payload w2 path _ _ Hfd2 Hdisk2 ltac:(lia))
    as (w3 & Hwrite & Hclose).
  exists f, pw, w2, w3, (Some (List.length payload)).
  fold w1. split; [done |]. split; [by rewrite Hassign, Hw2 |].
  split; [done |]. split; [unfold fileport_write; by rewrite Hfpw |].
  rewrite Hclose. cbn [disk]. rewrite lookup_insert_eq. f_equal.
  unfold stream_buffer. rewrite Hpend2. cbn [default from_option id app].
  rewrite firstn_all, drop_ge by lia. by rewrite app_nil_r.
Qed.

Lemma port_input_ezscheme p w :
  port_input (check_for_ezscheme_file p) w = port_input p w.
Proof.
  unfold check_for_ezscheme_file. case_decide; [| done].
  destruct (in_bytes p) as [|c bytes] eqn:Hb; [done |].
  destruct (Byte.eqb c x23); [| done].
  unfold port_input. simpl. by rewrite Hb.
Qed.

Lemma take_drop_length (n : nat) (c : list byte) :
  take n c ++ drop (List.length (take n c)) c = c.
Proof.
  rewrite length_take. destruct (decide (n <= List.length c)%nat).
  - rewrite Nat.min_l by done. apply take_drop.
  - rewrite Nat.min_r by lia. rewrite take_ge, drop_ge by lia. apply app_nil_r.
Qed.

(** The reader's side: [open-file path 'for-reading] on a file that
    exists. *)
Lemma reader_spec (path : string) (w4 : world) (content : list byte) :
  disk w4 !! path = Some content ->
  exists pr w5,
    fileport_init zero_port path [_csymbol "for-reading"] w4 = Some (pr, w5) /\
    port_input pr w5 =
      Some (if is_utf8_header (take 3 content) then drop 3 content else content).
Proof.
  intros Hdisk. unfold fileport_init.
  change (read_write_flags [_csymbol "for-reading"] false false) with (true, false).
  cbv iota beta. unfold open_mode, muse_fopen.
  change (String.eqb "rb" "rb") with true. cbv iota. rewrite Hdisk.
  set (f := fresh ({[0; 1; 2]} ∪ dom (fdtab w4))).
  set (w5 := {| disk := disk w4; fdtab := <[f := (path, 0%nat)]> (fdtab w4);
                pending := delete f (pending w4) |}).
  set (p0 := port_init (set_mode zero_port (Z.lor (mode zero_port) MUSE_PORT_READ))).
  set (p1 := set_status (set_stream p0 f (Some f)) 0 0).
  destruct (port_init_input (set_mode zero_port (Z.lor (mode zero_port) MUSE_PORT_READ)))
    as [Hpos Havail]. fold p0 in Hpos, Havail.
  assert (fdtab w5 !! f = Some (path, 0%nat)) as Hfd5 by apply lookup_insert_eq.
  assert (disk w5 !! path = Some content) as Hdisk5 by done.
  assert (pending w5 !! f = None) as Hpend5 by apply lookup_delete_eq.
  assert (in_pos p1 = 0 /\ in_avail p1 = 0 /\ desc p1 = f /\ file p1 = Some f)
    as (Hpos1 & Havail1 & Hd1 & Hf1) by done.
  unfold discard_utf8_header. rewrite Hf1, Hd1. cbn [mbind option_bind].
  rewrite (ftell_at f w5 path 0 Hfd5 Hpend5). rewrite decide_True by done.
  rewrite (os_read_at f 3 w5 path 0 content Hfd5 Hdisk5).
  rewrite drop_0. cbn [from_option id]. rewrite Nat.add_0_l.
  set (data := take 3 content).
  set (w6 := {| disk := disk w5;
                fdtab := <[f := (path, List.length data)]> (fdtab w5);
                pending := pending w5 |}).
  assert (fdtab w6 !! f = Some (path, List.length data)) as Hfd6 by apply lookup_insert_eq.
  assert (disk w6 !! path = Some content) as Hdisk6 by done.
  assert (forall q, desc q = f -> in_pos q = 0 ->
            port_input q w6 =
              Some (take (Z.to_nat (in_avail q)) (in_bytes q) ++ drop (List.length data) content))
    as Hinput.
  { intros q Hdq Hpq. unfold port_input. rewrite Hdq, Hfd6, Hpq. cbn [mbind option_bind].
    rewrite Hdisk6. cbn [mbind option_bind]. by rewrite Z.sub_0_r. }
  destruct (is_utf8_header data) eqn:Hhdr.
  - assert (List.length data = 3%nat) as Hlen.
    { destruct data as [|? [|? [|? [|? ?]]]]; done. }
    destruct (decide (Z.of_nat (List.length data) = 3)) as [_ | Hne]; [| lia].
    rewrite decide_False by lia.
    eexists _, _. split; [done |].
    rewrite port_input_ezscheme, (Hinput p1 Hd1 Hpos1), Havail1, Hlen. done.
  - set (nbytes := Z.of_nat (List.length data)).
    assert ((if decide (nbytes = 3) then nbytes else nbytes) = nbytes) as ->
      by (by case_decide).
    destruct (decide (nbytes > 0)) as [Hn | Hn].
    + rewrite decide_True by done.
      eexists _, _. split; [done |].
      rewrite port_input_ezscheme, Hinput by done. simpl.
      rewrite Havail. rewrite Z.add_0_l. subst nbytes. rewrite Nat2Z.id.
      rewrite take_app_length. f_equal. apply take_drop_length.
    + eexists _, _. split; [done |].
      rewrite port_input_ezscheme, (Hinput p1 Hd1 Hpos1), Havail1.
      assert (List.length data = 0%nat) as Hlen by lia.
      rewrite Hlen. done.
Qed.

(** C6 (amended).  A payload written through a port on a new stream is what
    a reader of the reopened file sees, when the writer emitted the header
    (a Windows build) or when the payload does not begin with the three
    marker bytes; on a build that writes no header, the reader of a payload
    that begins with the marker sees the payload without its first three
    bytes. *)
Theorem port_round_trip (payload : list byte) (path : string) (w0 : world) :
  written_then_read payload path w0 =
    Some (if windows then payload
          else if is_utf8_header (take 3 payload) then drop 3 payload
          else payload).
Proof.
  unfold written_then_read.
  destruct (writer_spec payload path w0) as (f & pw & w2 & w3 & r & Hopen & Hassign & Hf
                                             & Hwrite & Hdisk3).
  rewrite Hopen. cbn [mbind option_bind]. rewrite Hassign. cbn [mbind option_bind].
  rewrite Hwrite. unfold fileport_close. rewrite Hf.
  destruct (reader_spec path (fclose f w3) (header_written ++ payload) Hdisk3)
    as (pr & w5 & Hinit & Hinput).
  rewrite Hinit. cbn [mbind option_bind]. rewrite Hinput.
  unfold header_written. by destruct windows.
Qed.

(** *** Opening a file that exists for reading *)

(** Whether a file starts with the byte [#]. *)
Definition starts_with_hash (content : list byte) : bool :=
  match content with
  | c :: _ => Byte.eqb c x23
  | [] => false
  end.

Lemma is_utf8_header_no_hash (c : list byte) :
  is_utf8_header (take 3 c) = true -> starts_with_hash c = false.
Proof.
  destruct c as [|c0 [|c1 [|c2 c]]]; simpl; try done.
  intros H. apply andb_true_iff in H as [H _]. apply andb_true_iff in H as [H _].
  apply byte_dec_bl in H. by subst.
Qed.

Lemma os_read_disk fd n w : disk (os_read fd n w).2 = disk w.
Proof. unfold os_read. repeat case_match; done. Qed.

Lemma discard_utf8_header_disk p w p' w' :
  discard_utf8_header p w = Some (p', w') -> disk w' = disk w.
Proof.
  unfold discard_utf8_header. destruct (file p) as [f|]; [| done].
  cbn [mbind option_bind]. case_decide; [| by intros [= _ <-]].
  pose proof (os_read_disk (desc p) 3 w) as Hdisk.
  destruct (os_read (desc p) 3 w) as [r w1]. simpl in Hdisk.
  repeat case_match; intros [= _ <-]; done.
Qed.

(** [(open-file path 'for-reading)] on a file that exists opens it and
    leaves every file as it is, and the reader of the port sees the content
    without a leading UTF-8 header: a file of fewer than three bytes, or one
    that does not start with the header, is seen whole. *)
Theorem open_for_reading_input (path : string) (w : world) (content : list byte) :
  disk w !! path = Some content ->
  exists pr w',
    fileport_init zero_port path [_csymbol "for-reading"] w = Some (pr, w') /\
    disk w' = disk w /\
    port_input pr w' =
      Some (if is_utf8_header (take 3 content) then drop 3 content else content).
Proof.
  intros Hdisk. destruct (reader_spec path w content Hdisk) as (pr & w' & Hinit & Hinput).
  exists pr, w'. split; [done |]. split; [| done].
  revert Hinit. unfold fileport_init.
  change (read_write_flags [_csymbol "for-reading"] false false) with (true, false).
  cbv iota beta. unfold open_mode, muse_fopen.
  change (String.eqb "rb" "rb") with true. cbv iota. rewrite Hdisk.
  destruct (discard_utf8_header _ _) as [[p' w'']|] eqn:Hdiscard; [| done].
  cbn [mbind option_bind]. intros [= <- <-].
  by apply discard_utf8_header_disk in Hdiscard.
Qed.

(** [(open-file path 'for-reading)] marks the port as an ezscheme file
    exactly when the first byte of the file is [#]; a [#] that follows a
    UTF-8 header is not seen, since the header is discarded and nothing is
    left in the input buffer. *)
Theorem open_for_reading_ezscheme (path : string) (w : world) (content : list byte) :
  disk w !! path = Some content ->
  exists pr w',
    fileport_init zero_port path [_csymbol "for-reading"] w = Some (pr, w') /\
    file pr = Some (desc pr) /\ error pr = 0 /\ eof pr = 0 /\
    mode pr =
      (let base :=
         mode (port_init (set_mode zero_port (Z.lor (mode zero_port) MUSE_PORT_READ))) in
       if starts_with_hash content then Z.lor base MUSE_PORT_EZSCHEME else base).
Proof.
  intros Hdisk. unfold fileport_init.
  change (read_write_flags [_csymbol "for-reading"] false false) with (true, false).
  cbv iota beta zeta. unfold open_mode, muse_fopen.
  change (String.eqb "rb" "rb") with true. cbv iota. rewrite Hdisk.
  set (f := fresh ({[0; 1; 2]} ∪ dom (fdtab w))).
  set (w5 := {| disk := disk w; fdtab := <[f := (path, 0%nat)]> (fdtab w);
                pending := delete f (pending w) |}).
  set (p0 := port_init (set_mode zero_port (Z.lor (mode zero_port) MUSE_PORT_READ))).
  set (p1 := set_status (set_stream p0 f (Some f)) 0 0).
  destruct (port_init_input (set_mode zero_port (Z.lor (mode zero_port) MUSE_PORT_READ)))
    as [Hpos Havail]. fold p0 in Hpos, Havail.
  assert (fdtab w5 !! f = Some (path, 0%nat)) as Hfd5 by apply lookup_insert_eq.
  assert (disk w5 !! path = Some content) as Hdisk5 by done.
  assert (pending w5 !! f = None) as Hpend5 by apply lookup_delete_eq.
  assert (in_pos p1 = 0 /\ in_avail p1 = 0 /\ desc p1 = f /\ file p1 = Some f /\
          mode p1 = mode p0 /\ error p1 = 0 /\ eof p1 = 0)
    as (Hpos1 & Havail1 & Hd1 & Hf1 & Hm1 & He1 & Heof1) by done.
  unfold discard_utf8_header. rewrite Hf1, Hd1. cbn [mbind option_bind].
  rewrite (ftell_at f w5 path 0 Hfd5 Hpend5). rewrite decide_True by done.
  rewrite (os_read_at f 3 w5 path 0 content Hfd5 Hdisk5).
  rewrite drop_0. cbn [from_option id]. rewrite Nat.add_0_l.
  set (data := take 3 content).
  destruct (is_utf8_header data) eqn:Hhdr.
  - assert (List.length data = 3%nat) as Hlen.
    { destruct data as [|? [|? [|? [|? ?]]]]; done. }
    destruct (decide (Z.of_nat (List.length data) = 3)) as [_ | Hne]; [| lia].
    rewrite decide_False by lia.
    eexists _, _. split; [done |].
    unfold check_for_ezscheme_file. rewrite Havail1, decide_False by lia.
    rewrite (is_utf8_header_no_hash content Hhdr). rewrite Hd1. done.
  - set (nbytes := Z.of_nat (List.length data)).
    assert ((if decide (nbytes = 3) then nbytes else nbytes) = nbytes) as ->
      by (by case_decide).
    destruct (decide (nbytes > 0)) as [Hn | Hn].
    + rewrite decide_True by done.
      eexists _, _. split; [done |].
      destruct content as [|c content]; [done |].
      unfold check_for_ezscheme_file. cbn [in_avail in_bytes set_input].
      rewrite decide_True by lia. subst data. cbn [take app head].
      cbn [starts_with_hash].
      destruct (Byte.eqb c x23) eqn:Hc; done.
    + eexists _, _. split; [done |].
      assert (content = []) as -> by (destruct content; [done | simpl in *; lia]).
      unfold check_for_ezscheme_file. rewrite Havail1, decide_False by lia.
      rewrite Hd1. done.
Qed.

(** *** A port on a stream that is not at its beginning *)


(** *** Writing to a port and closing it *)


End WithPortLayer.

(** *** Concrete ports

    The mode bits 1, 2, 4 and 16, a [port_init] that empties the input buffer,
    and a world whose standard input holds the two bytes "hi". *)
Definition port_init_model (p : fileport_t) : fileport_t :=
  {| mode := mode p; in_bytes := []; in_pos := 0; in_avail := 0;
     in_fpos := 0; out_fpos := 0; error := error p; eof := eof p;
     desc := desc p; file := file p |}.

Definition stdin_world : world :=
  {| disk := {[ "/dev/stdin" := [x68; x69] ]};
     fdtab := {[ 0 := ("/dev/stdin", 0%nat) ]};
     pending := ∅ |}.

Lemma port_init_model_stream p :
  desc (port_init_model p) = desc p /\ file (port_init_model p) = file p.
Proof. done. Qed.

(** C4 fails on the code: both tests of the flag loop compare with
    [for-reading], so [write_flag] is never set.  [(open-file "output.txt"
    'for-writing)] on a system without that file opens nothing (the mode
    string is "rb"), creates nothing and leaves the mode bits zero; and
    whatever the flags are, the write flag stays clear and the mode string
    is "rb". *)
Lemma open_for_writing_is_not_writable :
  read_write_flags [_csymbol "for-writing"] false false = (false, false) /\
  open_mode false false = "rb" /\
  fileport_init 1 2 4 port_init_model false zero_port "output.txt" [_csymbol "for-writing"]
    stdin_world
  = Some (zero_port, stdin_world) /\
  (forall args r, (read_write_flags args r false).2 = false) /\
  (forall args, requested_mode args = "rb").
Proof.
  split; [done |]. split; [done |]. split; [by vm_compute |].
  split; [intros args r; apply read_write_flags_no_write | apply requested_mode_rb].
Qed.

(** C5, as stated, fails: after [(open-file "missing.txt" 'for-reading)]
    has failed, reading two bytes from the port returns the two bytes of
    the standard input and moves its offset, and writing to the port writes
    to descriptor 0. *)
Lemma failed_open_reads_stdin :
  exists p,
    fileport_init 1 2 4 port_init_model false zero_port "missing.txt"
      [_csymbol "for-reading"] stdin_world = Some (p, stdin_world) /\
    file p = None /\
    fileport_read 2 p stdin_world =
      (Some [x68; x69],
       {| disk := disk stdin_world; fdtab := {[ 0 := ("/dev/stdin", 2%nat) ]};
          pending := ∅ |}) /\
    fileport_write (fun _ => 0%nat) [x41] p stdin_world =
      (Some 1%nat,
       {| disk := {[ "/dev/stdin" := [x41; x69] ]};
          fdtab := {[ 0 := ("/dev/stdin", 1%nat) ]};
          pending := ∅ |}).
Proof.
  exists (set_mode zero_port 1).
  split; [by vm_compute |]. split; [done |]. split; by vm_compute.
Qed.

Lemma failed_open_port_witness :
  (muse_fopen "missing.txt" (requested_mode [_csymbol "for-reading"]) stdin_world).1 = None /\
  exists p,
    fileport_init 1 2 4 port_init_model false zero_port "missing.txt"
      [_csymbol "for-reading"] stdin_world = Some (p, stdin_world) /\
    file p = None /\ desc p = 0 /\
    (forall w', fileport_flush p w' = (0, w')) /\
    (forall w', fileport_close p w' = (p, w')) /\
    (forall n w', fileport_read n p w' = os_read 0 n w') /\
    (forall buffer w', fileport_write (fun _ => 0%nat) buffer p w' = os_write 0 buffer w').
Proof.
  assert ((muse_fopen "missing.txt" (requested_mode [_csymbol "for-reading"])
             stdin_world).1 = None) as Hfail by (by vm_compute).
  split; [done |].
  apply (failed_open_port (fun _ => 0%nat) 1 2 4 port_init_model false port_init_model_stream
           "missing.txt" [_csymbol "for-reading"] stdin_world Hfail).
Defined.

Lemma port_init_model_input p :
  in_pos (port_init_model p) = 0 /\ in_avail (port_init_model p) = 0.
Proof. done. Qed.

(** C6, as stated, fails on a build that writes no header: a payload that
    begins with the three marker bytes loses them when the file is read
    back. *)
Lemma marker_payload_loses_bytes :
  written_then_read (fun _ => 0%nat) 1 2 4 16 port_init_model false [xef; xbb; xbf; x41]
    "out.txt" stdin_world
    = Some [x41] /\
  Some [x41] <> Some [xef; xbb; xbf; x41].
Proof. split; [by vm_compute | done]. Qed.

Lemma port_round_trip_witness :
  written_then_read (fun _ => 0%nat) 1 2 4 16 port_init_model true [xef; xbb; xbf; x41]
    "out.txt" stdin_world
    = Some [xef; xbb; xbf; x41] /\
  written_then_read (fun _ => 0%nat) 1 2 4 16 port_init_model false [x23; x41]
    "out.txt" stdin_world
    = Some [x23; x41].
Proof.
  assert (Z.land 2 1 = 0) as Hbits by done.
  assert (2 <> 0) as Hw by done.
  assert (2 < 16 * 2) as Hlt by done.
  split.
  - apply (port_round_trip (fun _ => 0%nat) 1 2 4 16 port_init_model true port_init_model_stream
             port_init_model_input Hbits Hw Hlt [xef; xbb; xbf; x41] "out.txt" stdin_world).
  - apply (port_round_trip (fun _ => 0%nat) 1 2 4 16 port_init_model false
             port_init_model_stream
             port_init_model_input Hbits Hw Hlt [x23; x41] "out.txt" stdin_world).
Defined.

(** A world with the two-byte script "#A" on disk, and a stream on it at
    offset 1. *)
Definition script_world : world :=
  {| disk := {[ "a.scm" := [x23; x41] ]};
     fdtab := {[ 5 := ("a.scm", 1%nat) ]};
     pending := ∅ |}.


Lemma open_for_reading_input_witness :
  exists pr w',
    fileport_init 1 2 4 port_init_model false zero_port "a.scm" [_csymbol "for-reading"]
      script_world = Some (pr, w') /\
    disk w' = disk script_world /\
    port_input pr w' = Some [x23; x41].
Proof.
  apply (open_for_reading_input 1 2 4 port_init_model false port_init_model_input
           "a.scm" script_world [x23; x41]).
  by vm_compute.
Defined.

Lemma open_for_reading_ezscheme_witness :
  exists pr w',
    fileport_init 1 2 4 port_init_model false zero_port "a.scm" [_csymbol "for-reading"]
      script_world = Some (pr, w') /\
    file pr = Some (desc pr) /\ error pr = 0 /\ eof pr = 0 /\
    mode pr = 5.
Proof.
  apply (open_for_reading_ezscheme 1 2 4 port_init_model false port_init_model_input
           "a.scm" script_world [x23; x41]).
  by vm_compute.
Defined.


End Fileport.
